(** * PostgreSQL user and role controller: a shallow embedding

    The development follows [controller.py]: the psycopg2 SQL composition
    used by [DatabaseClient], the configuration and data classes, the JSON
    state file of [StateManager] and one reconciliation cycle of
    [PostgresUserController].  Effects (database, Kubernetes API, state
    file, metrics, the statistics object) are threaded through a state and
    exception monad; a ghost trace records what a cycle issued. *)

From Stdlib Require Import String Ascii List Bool Arith Lia.
From stdpp Require Import gmap strings list fin_maps.

Set Warnings "-register-all".

(** ** psycopg2.sql: composable SQL fragments *)

Module sql.

(** [sql.SQL(s)] is emitted verbatim, [sql.Identifier(s)] goes through the
    identifier quoter. *)
Inductive Composable : Type :=
| SQL (s : string)
| Identifier (s : string).

Definition Composed : Type := list Composable.

Definition dquote : ascii := "034"%char.

(** The quoter doubles every double-quote of the name ... *)
Fixpoint double_quotes (s : string) : string :=
  match s with
  | EmptyString => EmptyString
  | String c r =>
      if Ascii.eqb c dquote
      then String dquote (String dquote (double_quotes r))
      else String c (double_quotes r)
  end.

(** ... and wraps the result in double-quotes. *)
Definition quote_ident (s : string) : string :=
  String dquote (double_quotes s +:+ String dquote EmptyString).

Definition as_string1 (c : Composable) : string :=
  match c with
  | SQL s => s
  | Identifier s => quote_ident s
  end.

Definition as_string (q : Composed) : string :=
  fold_right (fun c acc => as_string1 c +:+ acc) EmptyString q.

Definition flush (pre : string) : Composed :=
  match pre with
  | EmptyString => []
  | _ => [SQL pre]
  end.

(** [sql.SQL(template).format] with positional arguments: the template is
    cut at every auto-numbered field [{}]; a non-empty literal piece becomes an [SQL]
    fragment and each field is replaced by the next argument.  psycopg2
    raises [IndexError] when the arguments run out; every template of the
    controller is applied to exactly as many arguments as it has fields,
    and the function below simply stops there. *)
Fixpoint format_from (template pre : string) (args : list Composable) : Composed :=
  match template with
  | EmptyString => flush pre
  | String "{" (String "}" rest) =>
      flush pre ++
      match args with
      | a :: args' => a :: format_from rest EmptyString args'
      | [] => []
      end
  | String c rest => format_from rest (pre +:+ String c EmptyString) args
  end.

Definition format (template : string) (args : list Composable) : Composed :=
  format_from template EmptyString args.

(** Reading a quoted identifier back, the way the SQL lexer does: a
    doubled quote stands for one quote, a single quote ends the name. *)
Fixpoint read_quoted (s : string) : option (string * string) :=
  match s with
  | EmptyString => None
  | String c r =>
      if Ascii.eqb c dquote then
        match r with
        | String c' r' =>
            if Ascii.eqb c' dquote
            then match read_quoted r' with
                 | Some (name, rest) => Some (String dquote name, rest)
                 | None => None
                 end
            else Some (EmptyString, r)
        | EmptyString => Some (EmptyString, EmptyString)
        end
      else match read_quoted r with
           | Some (name, rest) => Some (String c name, rest)
           | None => None
           end
  end.

Definition read_ident (s : string) : option (string * string) :=
  match s with
  | String c r => if Ascii.eqb c dquote then read_quoted r else None
  | EmptyString => None
  end.

Definition starts_with_dquote (s : string) : bool :=
  match s with
  | String c _ => Ascii.eqb c dquote
  | EmptyString => false
  end.

End sql.

Import sql.

(** ** Configuration *)

Record Config : Type := {
  NAMESPACE : string;
  CONFIGMAP_NAME : string;
  DB_NAME : string;
  DB_USER : string;
  STATE_FILE : string;
  DRY_RUN : bool;
  MAX_RETRIES : nat
}.

(** System roles to exclude from management. *)
Definition SYSTEM_ROLES : gset string :=
  {[ "postgres"; "pg_monitor"; "pg_read_all_settings"; "pg_read_all_stats";
     "pg_stat_scan_tables"; "pg_read_server_files"; "pg_write_server_files";
     "pg_execute_server_program"; "pg_signal_backend"; "rds_superuser" ]}.

(** ** Data models *)

Record UserSpec : Type := {
  username : string;
  database : string;
  roles : list string;
  privileges : option (gmap string (list string))
}.

Record ReconciliationStats : Type := {
  users_created : nat;
  users_updated : nat;
  users_deleted : nat;
  roles_created : nat;
  roles_deleted : nat;
  drift_detected : nat;
  errors : nat
}.

Record Metrics : Type := {
  reconciliation_count : nat;
  drift_count : nat;
  users_managed : nat;
  roles_managed : nat;
  error_count : nat
}.

(** ** The json module, as far as the state file needs it

    Characters are the 256 values of [ascii] (code points 0 to 255) and
    numeric literals are left out: [asdict] of a [UserSpec] holds strings,
    lists, dicts and [None] only. *)

Module json.

(** A number is kept as its literal: the code never computes with one,
    it only meets it where it expects a mapping or a string. *)
Inductive value : Type :=
| JNull
| JBool (b : bool)
| JString (s : string)
| JArray (l : list value)
| JObject (l : list (string * value))
| JNumber (literal : string).

Inductive token : Type :=
| TLBrace | TRBrace | TLBracket | TRBracket | TComma | TColon
| TStr (s : string) | TNull | TTrue | TFalse | TNum (literal : string).

Definition backslash : ascii := "\"%char.
Definition newline : ascii := "010"%char.
Definition space : ascii := " "%char.

Definition hex_digit (n : nat) : ascii :=
  nth n (list_ascii_of_string "0123456789abcdef") "0"%char.

(** [ESCAPE_ASCII] of the encoder: the quote, the backslash and whatever
    lies outside the printable range from space to tilde. *)
Definition escape (c : ascii) : list ascii :=
  if Ascii.eqb c dquote then [backslash; dquote]
  else if Ascii.eqb c backslash then [backslash; backslash]
  else if Ascii.eqb c "010"%char then [backslash; "n"%char]
  else if Ascii.eqb c "013"%char then [backslash; "r"%char]
  else if Ascii.eqb c "009"%char then [backslash; "t"%char]
  else if Ascii.eqb c "008"%char then [backslash; "b"%char]
  else if Ascii.eqb c "012"%char then [backslash; "f"%char]
  else if (nat_of_ascii c <? 32) || (126 <? nat_of_ascii c)
       then [backslash; "u"%char; "0"%char; "0"%char;
             hex_digit (nat_of_ascii c / 16); hex_digit (nat_of_ascii c mod 16)]
  else [c].

Definition encode_string (s : string) : list ascii :=
  dquote :: flat_map escape (list_ascii_of_string s) ++ [dquote].

Definition newline_indent (level : nat) : list ascii :=
  newline :: repeat space (2 * level).

Definition chars (s : string) : list ascii := list_ascii_of_string s.

(** [json.dump(data, f, indent=2)]: one member per line, two spaces per
    nesting level, [", "]-free item separator and [": "] after a key. *)
Fixpoint encode (level : nat) (v : value) : list ascii :=
  match v with
  | JNull => chars "null"
  | JBool true => chars "true"
  | JBool false => chars "false"
  | JString s => encode_string s
  | JArray [] => chars "[]"
  | JArray (x :: xs) =>
      "["%char :: newline_indent (S level) ++ encode (S level) x ++
      (fix rest (l : list value) : list ascii :=
         match l with
         | [] => newline_indent level ++ ["]"%char]
         | y :: l' => ","%char :: newline_indent (S level) ++ encode (S level) y ++ rest l'
         end) xs
  | JObject [] => chars "{}"
  | JObject ((k, x) :: xs) =>
      "{"%char :: newline_indent (S level) ++ encode_string k ++ chars ": " ++
      encode (S level) x ++
      (fix rest (l : list (string * value)) : list ascii :=
         match l with
         | [] => newline_indent level ++ ["}"%char]
         | (k', y) :: l' =>
             ","%char :: newline_indent (S level) ++ encode_string k' ++ chars ": " ++
             encode (S level) y ++ rest l'
         end) xs
  | JNumber literal => chars literal
  end.

Definition dumps (v : value) : string := string_of_list_ascii (encode 0 v).

(** The tokens of a value, for the decoder's view of [encode]. *)
Fixpoint tokens (v : value) : list token :=
  match v with
  | JNull => [TNull]
  | JBool true => [TTrue]
  | JBool false => [TFalse]
  | JString s => [TStr s]
  | JArray [] => [TLBracket; TRBracket]
  | JArray (x :: xs) =>
      TLBracket :: tokens x ++
      (fix rest (l : list value) : list token :=
         match l with
         | [] => [TRBracket]
         | y :: l' => TComma :: tokens y ++ rest l'
         end) xs
  | JObject [] => [TLBrace; TRBrace]
  | JObject ((k, x) :: xs) =>
      TLBrace :: TStr k :: TColon :: tokens x ++
      (fix rest (l : list (string * value)) : list token :=
         match l with
         | [] => [TRBrace]
         | (k', y) :: l' => TComma :: TStr k' :: TColon :: tokens y ++ rest l'
         end) xs
  | JNumber literal => [TNum literal]
  end.

(** *** Decoding: a lexer and a recursive-descent parser *)

Definition is_ws (c : ascii) : bool :=
  Ascii.eqb c space || Ascii.eqb c "009"%char || Ascii.eqb c "010"%char
  || Ascii.eqb c "013"%char.

Definition hex_val (c : ascii) : option nat :=
  let n := nat_of_ascii c in
  if (48 <=? n) && (n <=? 57) then Some (n - 48)
  else if (97 <=? n) && (n <=? 102) then Some (n - 87)
  else if (65 <=? n) && (n <=? 70) then Some (n - 55)
  else None.

(** [\uXXXX]; a code point above 255 has no character in this model. *)
Definition hex4 (a b c d : ascii) : option ascii :=
  match hex_val a, hex_val b, hex_val c, hex_val d with
  | Some 0, Some 0, Some h, Some l => Some (ascii_of_nat (16 * h + l))
  | _, _, _, _ => None
  end.

Definition simple_escape (e : ascii) : option ascii :=
  if Ascii.eqb e dquote then Some dquote
  else if Ascii.eqb e backslash then Some backslash
  else if Ascii.eqb e "/"%char then Some "/"%char
  else if Ascii.eqb e "b"%char then Some "008"%char
  else if Ascii.eqb e "f"%char then Some "012"%char
  else if Ascii.eqb e "n"%char then Some "010"%char
  else if Ascii.eqb e "r"%char then Some "013"%char
  else if Ascii.eqb e "t"%char then Some "009"%char
  else None.

Definition str_token (acc : list ascii) : token :=
  TStr (string_of_list_ascii (rev acc)).

(** The number literals of the decoder, [NUMBER_RE]: an optional minus,
    an integer part without leading zero, an optional fraction and an
    optional exponent.  The states tell how far into the literal the
    scan is. *)
Inductive num_state : Type :=
| NSign | NZero | NInt | NDot | NFrac | NExp | NExpSign | NExpDigits.

Definition is_digit (c : ascii) : bool :=
  (48 <=? nat_of_ascii c) && (nat_of_ascii c <=? 57).

Definition is_exp (c : ascii) : bool := Ascii.eqb c "e"%char || Ascii.eqb c "E"%char.

Definition num_start (c : ascii) : option num_state :=
  if Ascii.eqb c "-"%char then Some NSign
  else if Ascii.eqb c "0"%char then Some NZero
  else if is_digit c then Some NInt
  else None.

Definition num_step (st : num_state) (c : ascii) : option num_state :=
  match st with
  | NSign =>
      if Ascii.eqb c "0"%char then Some NZero
      else if is_digit c then Some NInt else None
  | NZero =>
      if Ascii.eqb c "."%char then Some NDot
      else if is_exp c then Some NExp else None
  | NInt =>
      if is_digit c then Some NInt
      else if Ascii.eqb c "."%char then Some NDot
      else if is_exp c then Some NExp else None
  | NDot => if is_digit c then Some NFrac else None
  | NFrac =>
      if is_digit c then Some NFrac
      else if is_exp c then Some NExp else None
  | NExp =>
      if Ascii.eqb c "+"%char || Ascii.eqb c "-"%char then Some NExpSign
      else if is_digit c then Some NExpDigits else None
  | NExpSign => if is_digit c then Some NExpDigits else None
  | NExpDigits => if is_digit c then Some NExpDigits else None
  end.

(** The states in which what was read so far is a whole literal. *)
Definition num_accepting (st : num_state) : bool :=
  match st with
  | NZero | NInt | NFrac | NExpDigits => true
  | _ => false
  end.

Definition num_token (acc : list ascii) : token :=
  TNum (string_of_list_ascii (rev acc)).

(** [cur = Some acc] while inside a string literal, [acc] holding its
    characters so far, newest first.  A number is scanned as far as it
    goes; where it stops short of a whole literal nothing that follows can
    begin a token, so the text is no document.  [NaN], [Infinity] and
    [-Infinity] are read as the decoder reads them by default. *)
Fixpoint lex (inp : list ascii) (cur : option (list ascii)) : option (list token) :=
  match cur with
  | Some acc =>
      match inp with
      | [] => None
      | c :: rest =>
          if Ascii.eqb c dquote then cons (str_token acc) <$> lex rest None
          else if Ascii.eqb c backslash then
            match rest with
            | e :: rest1 =>
                match simple_escape e with
                | Some ch => lex rest1 (Some (ch :: acc))
                | None =>
                    if Ascii.eqb e "u"%char then
                      match rest1 with
                      | h1 :: h2 :: h3 :: h4 :: rest2 =>
                          match hex4 h1 h2 h3 h4 with
                          | Some ch => lex rest2 (Some (ch :: acc))
                          | None => None
                          end
                      | _ => None
                      end
                    else None
                end
            | [] => None
            end
          else if nat_of_ascii c <? 32 then None
          else lex rest (Some (c :: acc))
      end
  | None =>
      match inp with
      | [] => Some []
      | c :: rest =>
          if is_ws c then lex rest None
          else if Ascii.eqb c "{"%char then cons TLBrace <$> lex rest None
          else if Ascii.eqb c "}"%char then cons TRBrace <$> lex rest None
          else if Ascii.eqb c "["%char then cons TLBracket <$> lex rest None
          else if Ascii.eqb c "]"%char then cons TRBracket <$> lex rest None
          else if Ascii.eqb c ","%char then cons TComma <$> lex rest None
          else if Ascii.eqb c ":"%char then cons TColon <$> lex rest None
          else if Ascii.eqb c dquote then lex rest (Some [])
          else if Ascii.eqb c "n"%char then
            match rest with
            | c1 :: c2 :: c3 :: rest1 =>
                if Ascii.eqb c1 "u"%char && Ascii.eqb c2 "l"%char && Ascii.eqb c3 "l"%char
                then cons TNull <$> lex rest1 None else None
            | _ => None
            end
          else if Ascii.eqb c "t"%char then
            match rest with
            | c1 :: c2 :: c3 :: rest1 =>
                if Ascii.eqb c1 "r"%char && Ascii.eqb c2 "u"%char && Ascii.eqb c3 "e"%char
                then cons TTrue <$> lex rest1 None else None
            | _ => None
            end
          else if Ascii.eqb c "f"%char then
            match rest with
            | c1 :: c2 :: c3 :: c4 :: rest1 =>
                if Ascii.eqb c1 "a"%char && Ascii.eqb c2 "l"%char && Ascii.eqb c3 "s"%char
                   && Ascii.eqb c4 "e"%char
                then cons TFalse <$> lex rest1 None else None
            | _ => None
            end
          else if Ascii.eqb c "N"%char then
            match rest with
            | c1 :: c2 :: rest1 =>
                if Ascii.eqb c1 "a"%char && Ascii.eqb c2 "N"%char
                then cons (TNum "NaN") <$> lex rest1 None else None
            | _ => None
            end
          else if Ascii.eqb c "I"%char then
            match rest with
            | c1 :: c2 :: c3 :: c4 :: c5 :: c6 :: c7 :: rest1 =>
                if Ascii.eqb c1 "n"%char && Ascii.eqb c2 "f"%char && Ascii.eqb c3 "i"%char
                   && Ascii.eqb c4 "n"%char && Ascii.eqb c5 "i"%char && Ascii.eqb c6 "t"%char
                   && Ascii.eqb c7 "y"%char
                then cons (TNum "Infinity") <$> lex rest1 None else None
            | _ => None
            end
          else
            match num_start c with
            | Some st0 =>
                (fix scan (l : list ascii) (st : num_state) (acc : list ascii) {struct l}
                   : option (list token) :=
                   match l with
                   | [] => if num_accepting st then Some [num_token acc] else None
                   | d :: l' =>
                       match num_step st d with
                       | Some st' => scan l' st' (d :: acc)
                       | None =>
                           if num_accepting st then cons (num_token acc) <$> lex l None
                           else
                             match st, l with
                             | NSign, c1 :: c2 :: c3 :: c4 :: c5 :: c6 :: c7 :: c8 :: rest1 =>
                                 if Ascii.eqb c1 "I"%char && Ascii.eqb c2 "n"%char
                                    && Ascii.eqb c3 "f"%char && Ascii.eqb c4 "i"%char
                                    && Ascii.eqb c5 "n"%char && Ascii.eqb c6 "i"%char
                                    && Ascii.eqb c7 "t"%char && Ascii.eqb c8 "y"%char
                                 then cons (TNum "-Infinity") <$> lex rest1 None else None
                             | _, _ => None
                             end
                       end
                   end) rest st0 [c]
            | None => None
            end
      end
  end.

Fixpoint parse_value (fuel : nat) (ts : list token) : option (value * list token) :=
  match fuel with
  | 0 => None
  | S fuel' =>
      match ts with
      | TNull :: r => Some (JNull, r)
      | TTrue :: r => Some (JBool true, r)
      | TFalse :: r => Some (JBool false, r)
      | TStr s :: r => Some (JString s, r)
      | TNum literal :: r => Some (JNumber literal, r)
      | TLBracket :: TRBracket :: r => Some (JArray [], r)
      | TLBracket :: r =>
          match parse_elems fuel' r with
          | Some (l, r') => Some (JArray l, r')
          | None => None
          end
      | TLBrace :: TRBrace :: r => Some (JObject [], r)
      | TLBrace :: r =>
          match parse_members fuel' r with
          | Some (l, r') => Some (JObject l, r')
          | None => None
          end
      | _ => None
      end
  end
with parse_elems (fuel : nat) (ts : list token) : option (list value * list token) :=
  match fuel with
  | 0 => None
  | S fuel' =>
      match parse_value fuel' ts with
      | Some (v, TComma :: r) =>
          match parse_elems fuel' r with
          | Some (l, r') => Some (v :: l, r')
          | None => None
          end
      | Some (v, TRBracket :: r) => Some ([v], r)
      | _ => None
      end
  end
with parse_members (fuel : nat) (ts : list token)
     : option (list (string * value) * list token) :=
  match fuel with
  | 0 => None
  | S fuel' =>
      match ts with
      | TStr k :: TColon :: r =>
          match parse_value fuel' r with
          | Some (v, TComma :: r') =>
              match parse_members fuel' r' with
              | Some (l, r'') => Some ((k, v) :: l, r'')
              | None => None
              end
          | Some (v, TRBrace :: r') => Some ([(k, v)], r')
          | _ => None
          end
      | _ => None
      end
  end.

(** [json.load]: the whole text must be one document; [None] stands for
    [JSONDecodeError]. *)
Definition loads (s : string) : option value :=
  match lex (list_ascii_of_string s) None with
  | Some ts =>
      match parse_value (S (length ts)) ts with
      | Some (v, []) => Some v
      | _ => None
      end
  | None => None
  end.

End json.

Import json.

(** ** The outside world *)

(** The two catalogs the controller reads.  Roles are identified by name;
    a row [(r, m)] of [pg_auth_members] says that role [r] is granted to
    member [m]. *)
Record pg_role : Type := { rolname : string; rolcanlogin : bool }.

Record Database : Type := {
  pg_roles : list pg_role;
  pg_auth_members : list (string * string)
}.

Inductive cond : Type :=
| NotIn (names : list string)
| NotCanLogin
| And (a b : cond).

Inductive query : Type :=
| SelectRolname (where_ : option cond)
| SelectGrantedRoles (member : string).

Fixpoint eval_cond (c : cond) (r : pg_role) : bool :=
  match c with
  | NotIn names => negb (bool_decide (rolname r ∈ names))
  | NotCanLogin => negb (rolcanlogin r)
  | And a b => eval_cond a r && eval_cond b r
  end.

Definition run_query (d : Database) (q : query) : list string :=
  match q with
  | SelectRolname None => map rolname (pg_roles d)
  | SelectRolname (Some c) => map rolname (filter (fun r => eval_cond c r = true) (pg_roles d))
  | SelectGrantedRoles member =>
      r ← pg_roles d;
      m ← pg_auth_members d;
      u ← pg_roles d;
      if bool_decide (rolname r = m.1 ∧ rolname u = m.2 ∧ rolname u = member)
      then [rolname r] else []
  end.

(** What [yaml.safe_load] makes of the ConfigMap text.  The fields of a
    user entry carry the types [UserSpec] declares for them. *)
Record user_data : Type := {
  ud_username : option string;
  ud_database : option string;
  ud_roles : option (list string);
  ud_privileges : option (gmap string (list string))
}.

Inductive yaml_document : Type :=
| YamlInvalid
| YamlNotMapping
| YamlMapping (users : option (list user_data)).

Inductive api_response : Type :=
| ApiOk (data : gmap string string)
| ApiError (status : nat).

Inductive io_outcome : Type :=
| IoOk
| IoOpenFails
| IoWriteFails (written : nat).

Inductive exn : Type :=
| YAMLError | KeyError | JSONDecodeError | IOError
| TypeError | AttributeError | ValueError
| Psycopg2Error
| ApiException (status : nat).

(** Everything the process does not control: the libraries it calls and
    the faults of the services it talks to, the latter indexed by a clock
    that advances with every interaction.  [autocommit t] tells whether
    the connection the pool hands out at time [t] is in autocommit mode,
    as [create_role] and [drop_role] leave the connection they used. *)
Record Env : Type := {
  safe_load : string -> yaml_document;
  b64decode : string -> option string;
  read_namespaced_config_map : string -> string -> nat -> api_response;
  read_namespaced_secret : string -> string -> nat -> api_response;
  db_fault : nat -> bool;
  pg_execute : Database -> Composed -> list string -> option Database;
  autocommit : nat -> bool;
  io_fault : nat -> io_outcome
}.

(** The ghost trace. *)
Inductive call : Type :=
| create_role_call (role_name : string) (dry_run : bool)
| drop_role_call (role_name : string) (dry_run : bool)
| create_user_call (user_spec : UserSpec) (dry_run : bool)
| update_user_roles_call (name : string) (old_roles new_roles : gset string) (dry_run : bool)
| drop_user_call (name : string) (dry_run : bool)
| fetch_existing_users_call
| fetch_existing_roles_call
| fetch_user_roles_call (name : string)
| get_user_password_call (name : string)
| load_state_call
| save_state_call (users : gmap string UserSpec).

Inductive event : Type :=
| EvCall (c : call)
| EvQuery (q : query)
| EvExecute (q : Composed) (params : list string)
| EvCommit
| EvRollback
| EvWrite (path : string).

Definition empty_stats : ReconciliationStats :=
  {| users_created := 0; users_updated := 0; users_deleted := 0; roles_created := 0;
     roles_deleted := 0; drift_detected := 0; errors := 0 |}.

Definition empty_metrics : Metrics :=
  {| reconciliation_count := 0; drift_count := 0; users_managed := 0; roles_managed := 0;
     error_count := 0 |}.

Record World : Type := {
  db : Database;
  clock : nat;
  files : gmap string string;
  metrics : Metrics;
  stats : ReconciliationStats;
  trace : list event
}.

Definition set_db (d : Database) (w : World) : World :=
  {| db := d; clock := clock w; files := files w; metrics := metrics w; stats := stats w;
     trace := trace w |}.
Definition set_clock (t : nat) (w : World) : World :=
  {| db := db w; clock := t; files := files w; metrics := metrics w; stats := stats w;
     trace := trace w |}.
Definition set_files (f : gmap string string) (w : World) : World :=
  {| db := db w; clock := clock w; files := f; metrics := metrics w; stats := stats w;
     trace := trace w |}.
Definition set_metrics (m : Metrics) (w : World) : World :=
  {| db := db w; clock := clock w; files := files w; metrics := m; stats := stats w;
     trace := trace w |}.
Definition set_stats (s : ReconciliationStats) (w : World) : World :=
  {| db := db w; clock := clock w; files := files w; metrics := metrics w; stats := s;
     trace := trace w |}.
Definition add_event (e : event) (w : World) : World :=
  {| db := db w; clock := clock w; files := files w; metrics := metrics w; stats := stats w;
     trace := trace w ++ [e] |}.

(** ** The state and exception monad *)

Inductive result (A : Type) : Type :=
| Ok (a : A)
| Raise (e : exn).
Arguments Ok {A} a.
Arguments Raise {A} e.

Definition M (A : Type) : Type := World -> result A * World.

Definition ret {A} (a : A) : M A := fun w => (Ok a, w).

Definition bind {A B} (m : M A) (k : A -> M B) : M B :=
  fun w =>
    match m w with
    | (Ok a, w') => k a w'
    | (Raise e, w') => (Raise e, w')
    end.

Definition raise {A} (e : exn) : M A := fun w => (Raise e, w).

Definition get : M World := fun w => (Ok w, w).

Definition modify (f : World -> World) : M unit := fun w => (Ok tt, f w).

(** [try: m except <classes>: h]; [handles] tells the caught classes. *)
Definition catch {A} (handles : exn -> bool) (m : M A) (h : exn -> M A) : M A :=
  fun w =>
    match m w with
    | (Ok a, w') => (Ok a, w')
    | (Raise e, w') => if handles e then h e w' else (Raise e, w')
    end.

Declare Scope monad_scope.
Delimit Scope monad_scope with monad.
Bind Scope monad_scope with M.
Notation "x <- c1 ;; c2" := (bind c1 (fun x => c2))
  (at level 20, c1 at level 99, c2 at level 200, only parsing) : monad_scope.
Notation "c1 ;; c2" := (bind c1 (fun _ => c2))
  (at level 100, c2 at level 200, only parsing, right associativity) : monad_scope.
Local Open Scope monad_scope.

Fixpoint for_each {A} (l : list A) (body : A -> M unit) : M unit :=
  match l with
  | [] => ret tt
  | x :: l' => body x ;; for_each l' body
  end.

Definition emit (e : event) : M unit := modify (add_event e).

Definition tick : M nat :=
  fun w => (Ok (clock w), set_clock (S (clock w)) w).

Definition update_stats (f : ReconciliationStats -> ReconciliationStats) : M unit :=
  modify (fun w => set_stats (f (stats w)) w).

Definition Exception (e : exn) : bool := true.

Definition is_psycopg2_Error (e : exn) : bool :=
  match e with Psycopg2Error => true | _ => false end.

Definition incr_users_created (s : ReconciliationStats) : ReconciliationStats :=
  {| users_created := S (users_created s); users_updated := users_updated s;
     users_deleted := users_deleted s; roles_created := roles_created s;
     roles_deleted := roles_deleted s; drift_detected := drift_detected s;
     errors := errors s |}.
Definition incr_users_updated (s : ReconciliationStats) : ReconciliationStats :=
  {| users_created := users_created s; users_updated := S (users_updated s);
     users_deleted := users_deleted s; roles_created := roles_created s;
     roles_deleted := roles_deleted s; drift_detected := drift_detected s;
     errors := errors s |}.
Definition incr_users_deleted (s : ReconciliationStats) : ReconciliationStats :=
  {| users_created := users_created s; users_updated := users_updated s;
     users_deleted := S (users_deleted s); roles_created := roles_created s;
     roles_deleted := roles_deleted s; drift_detected := drift_detected s;
     errors := errors s |}.
Definition incr_roles_created (s : ReconciliationStats) : ReconciliationStats :=
  {| users_created := users_created s; users_updated := users_updated s;
     users_deleted := users_deleted s; roles_created := S (roles_created s);
     roles_deleted := roles_deleted s; drift_detected := drift_detected s;
     errors := errors s |}.
Definition incr_errors (s : ReconciliationStats) : ReconciliationStats :=
  {| users_created := users_created s; users_updated := users_updated s;
     users_deleted := users_deleted s; roles_created := roles_created s;
     roles_deleted := roles_deleted s; drift_detected := drift_detected s;
     errors := S (errors s) |}.
Definition set_drift_detected (n : nat) (s : ReconciliationStats) : ReconciliationStats :=
  {| users_created := users_created s; users_updated := users_updated s;
     users_deleted := users_deleted s; roles_created := roles_created s;
     roles_deleted := roles_deleted s; drift_detected := n;
     errors := errors s |}.

Fixpoint replace (old new : ascii) (s : string) : string :=
  match s with
  | EmptyString => EmptyString
  | String c r => String (if Ascii.eqb c old then new else c) (replace old new r)
  end.

Definition is_empty_string (s : string) : bool :=
  match s with EmptyString => true | _ => false end.

Section Controller.

Variable env : Env.
Variable cfg : Config.

(** *** KubernetesClient *)

Fixpoint fetch_configmap_from (fuel : nat) (name namespace : string) (retry_count : nat)
  : M (option string) :=
  t <- tick ;;
  match read_namespaced_config_map env name namespace t with
  | ApiOk data => ret (Some (default EmptyString (data !! "users.yaml")))
  | ApiError status =>
      if status =? 404 then ret None
      else if retry_count <? MAX_RETRIES cfg then
        match fuel with
        | S fuel' => fetch_configmap_from fuel' name namespace (S retry_count)
        | 0 => raise (ApiException status)
        end
      else raise (ApiException status)
  end.

Definition fetch_configmap (name namespace : string) : M (option string) :=
  fetch_configmap_from (MAX_RETRIES cfg) name namespace 0.

Definition secret_name (name : string) : string :=
  "user-" +:+ replace "_" "-" name +:+ "-secret".

Fixpoint get_user_password_from (fuel : nat) (name namespace : string) (retry_count : nat)
  : M (option string) :=
  t <- tick ;;
  match read_namespaced_secret env (secret_name name) namespace t with
  | ApiOk data =>
      match data !! "password" with
      | Some encoded_pw =>
          if is_empty_string encoded_pw then ret None
          else match b64decode env encoded_pw with
               | Some pw => ret (Some pw)
               | None => raise ValueError
               end
      | None => ret None
      end
  | ApiError status =>
      if status =? 404 then ret None
      else if retry_count <? MAX_RETRIES cfg then
        match fuel with
        | S fuel' => get_user_password_from fuel' name namespace (S retry_count)
        | 0 => raise (ApiException status)
        end
      else raise (ApiException status)
  end.

Definition get_user_password (name namespace : string) : M (option string) :=
  emit (EvCall (get_user_password_call name)) ;;
  get_user_password_from (MAX_RETRIES cfg) name namespace 0.

(** *** DatabaseClient *)

Definition get_connection : M unit :=
  t <- tick ;;
  if db_fault env t then raise Psycopg2Error else ret tt.

(** [cur.execute] of one of the three SELECTs, then [cur.fetchall()]. *)
Definition cursor_select (q : query) : M (list string) :=
  emit (EvQuery q) ;;
  t <- tick ;;
  if db_fault env t then raise Psycopg2Error
  else w <- get ;; ret (run_query (db w) q).

(** [cur.execute] of a composed statement. *)
Definition cursor_execute (q : Composed) (params : list string) : M unit :=
  emit (EvExecute q params) ;;
  t <- tick ;;
  if db_fault env t then raise Psycopg2Error
  else
    w <- get ;;
    match pg_execute env (db w) q params with
    | Some d => modify (set_db d)
    | None => raise Psycopg2Error
    end.

(** [conn.commit()]: it stands inside the [try] and can fail as a
    statement can. *)
Definition commit : M unit :=
  emit EvCommit ;;
  t <- tick ;;
  if db_fault env t then raise Psycopg2Error else ret tt.

(** The shape shared by the provisioning methods: take a connection, run
    the statements, commit; on [psycopg2.Error] roll back and re-raise.
    The rollback undoes the statements unless the connection is in
    autocommit mode, where each statement took effect as it ran. *)
Definition transaction (body : M unit) : M unit :=
  w0 <- get ;;
  get_connection ;;
  catch is_psycopg2_Error
    (body ;; commit)
    (fun e =>
       emit EvRollback ;;
       (if autocommit env (clock w0) then ret tt else modify (set_db (db w0))) ;;
       raise e).

Definition system_roles_list : list string := elements SYSTEM_ROLES.

Definition fetch_existing_users : M (gset string) :=
  emit (EvCall fetch_existing_users_call) ;;
  get_connection ;;
  rows <- cursor_select (SelectRolname (Some (NotIn system_roles_list))) ;;
  ret (list_to_set rows).

Definition fetch_existing_roles : M (gset string) :=
  emit (EvCall fetch_existing_roles_call) ;;
  get_connection ;;
  rows <- cursor_select (SelectRolname (Some (And (NotIn system_roles_list) NotCanLogin))) ;;
  ret (list_to_set rows).

Definition fetch_user_roles (name : string) : M (gset string) :=
  emit (EvCall (fetch_user_roles_call name)) ;;
  get_connection ;;
  rows <- cursor_select (SelectGrantedRoles name) ;;
  ret (list_to_set rows).

Definition create_role (role_name : string) (dry_run : bool) : M unit :=
  emit (EvCall (create_role_call role_name dry_run)) ;;
  if dry_run then ret tt
  else
    get_connection ;;
    cursor_execute (format "CREATE ROLE {} NOLOGIN;" [Identifier role_name]) [].

Definition drop_role (role_name : string) (dry_run : bool) : M unit :=
  emit (EvCall (drop_role_call role_name dry_run)) ;;
  if dry_run then ret tt
  else
    get_connection ;;
    cursor_execute (format "DROP ROLE IF EXISTS {};" [Identifier role_name]) [].

Definition has_privileges (user_spec : UserSpec) : bool :=
  match privileges user_spec with
  | Some m => negb (bool_decide (m = ∅))
  | None => false
  end.

Definition _grant_privileges (user_spec : UserSpec) : M unit :=
  if negb (has_privileges user_spec) then ret tt
  else
    for_each (map_to_list (default ∅ (privileges user_spec)))
      (fun item =>
         for_each item.2
           (fun privilege =>
              cursor_execute
                (format "GRANT {} ON {} TO {};"
                   [SQL privilege; Identifier item.1; Identifier (username user_spec)])
                [])).

Definition create_user (user_spec : UserSpec) (password : string) (dry_run : bool) : M unit :=
  emit (EvCall (create_user_call user_spec dry_run)) ;;
  if dry_run then ret tt
  else
    transaction
      (cursor_execute
         (format "CREATE USER {} WITH PASSWORD %s;" [Identifier (username user_spec)])
         [password] ;;
       cursor_execute
         (format "GRANT CONNECT ON DATABASE {} TO {};"
            [Identifier (database user_spec); Identifier (username user_spec)]) [] ;;
       for_each (roles user_spec)
         (fun role =>
            cursor_execute
              (format "GRANT {} TO {};" [Identifier role; Identifier (username user_spec)])
              []) ;;
       if has_privileges user_spec then _grant_privileges user_spec else ret tt).

Definition update_user_roles (name : string) (old_roles new_roles : gset string)
    (dry_run : bool) : M unit :=
  emit (EvCall (update_user_roles_call name old_roles new_roles dry_run)) ;;
  let to_revoke := old_roles ∖ new_roles in
  let to_grant := new_roles ∖ old_roles in
  if bool_decide (to_revoke = ∅) && bool_decide (to_grant = ∅) then ret tt
  else if dry_run then ret tt
  else
    transaction
      (for_each (elements to_revoke)
         (fun role =>
            cursor_execute
              (format "REVOKE {} FROM {};" [Identifier role; Identifier name]) []) ;;
       for_each (elements to_grant)
         (fun role =>
            cursor_execute
              (format "GRANT {} TO {};" [Identifier role; Identifier name]) [])).

Definition drop_user (name : string) (dry_run : bool) : M unit :=
  emit (EvCall (drop_user_call name dry_run)) ;;
  if dry_run then ret tt
  else
    transaction
      (cursor_execute
         (format "REVOKE ALL PRIVILEGES ON DATABASE {} FROM {};"
            [Identifier (DB_NAME cfg); Identifier name]) [] ;;
       cursor_execute
         (format "REASSIGN OWNED BY {} TO {};"
            [Identifier name; Identifier (DB_USER cfg)]) [] ;;
       cursor_execute (format "DROP OWNED BY {};" [Identifier name]) [] ;;
       cursor_execute (format "DROP USER IF EXISTS {};" [Identifier name]) []).

(** *** StateManager *)

(** [dataclasses.asdict]. *)
Definition privileges_to_json (p : option (gmap string (list string))) : value :=
  match p with
  | None => JNull
  | Some m => JObject (map (fun item => (item.1, JArray (map JString item.2))) (map_to_list m))
  end.

Definition asdict (spec : UserSpec) : value :=
  JObject [("username", JString (username spec));
           ("database", JString (database spec));
           ("roles", JArray (map JString (roles spec)));
           ("privileges", privileges_to_json (privileges spec))].

(** The dict [json.load] builds from an object: a repeated key keeps its
    last value. *)
Definition dict_of_members {A} (ms : list (string * A)) : gmap string A :=
  foldl (fun d item => <[item.1 := item.2]> d) ∅ ms.

Definition as_str (v : value) : option string :=
  match v with JString s => Some s | _ => None end.

Definition as_str_list (v : value) : option (list string) :=
  match v with JArray l => mapM as_str l | _ => None end.

Definition as_privileges (v : value) : option (option (gmap string (list string))) :=
  match v with
  | JNull => Some None
  | JObject ms =>
      let d := dict_of_members ms in
      if bool_decide (map_Forall (fun _ x => is_Some (as_str_list x)) d)
      then Some (Some (omap as_str_list d))
      else None
  | _ => None
  end.

Definition UserSpec_fields : list string := ["username"; "database"; "roles"; "privileges"].

(** [UserSpec] called with the dict as keyword arguments; [None] is the
    [TypeError] of a call with a missing or an unexpected keyword, or with something that is no
    mapping.  A field whose JSON value is not of the declared type is
    outside the typed model and is rejected the same way. *)
Definition UserSpec_of_kwargs (v : value) : option UserSpec :=
  match v with
  | JObject ms =>
      let d := dict_of_members ms in
      if forallb (fun k => bool_decide (k ∈ UserSpec_fields)) (map fst ms) then
        u ← d !! "username" ≫= as_str;
        b ← d !! "database" ≫= as_str;
        r ← d !! "roles" ≫= as_str_list;
        p ← as_privileges (default JNull (d !! "privileges"));
        Some {| username := u; database := b; roles := r; privileges := p |}
      else None
  | _ => None
  end.

Definition state_to_json (users : gmap string UserSpec) : value :=
  JObject (map (fun item => (item.1, asdict item.2)) (map_to_list users)).

(** The comprehension of [load_state]: one [UserSpec] per key of the
    loaded dict, [TypeError] as soon as one of them cannot be built. *)
Definition state_of_json (data : value) : result (gmap string UserSpec) :=
  match data with
  | JObject ms =>
      let d := dict_of_members ms in
      if bool_decide (map_Forall (fun _ spec => is_Some (UserSpec_of_kwargs spec)) d)
      then Ok (omap UserSpec_of_kwargs d)
      else Raise TypeError
  | _ => Raise AttributeError
  end.

Definition is_load_error (e : exn) : bool :=
  match e with JSONDecodeError | IOError => true | _ => false end.

Definition load_state : M (gmap string UserSpec) :=
  emit (EvCall load_state_call) ;;
  w <- get ;;
  match files w !! STATE_FILE cfg with
  | None => ret ∅
  | Some text =>
      t <- tick ;;
      catch is_load_error
        (match io_fault env t with
         | IoOk =>
             match loads text with
             | Some data =>
                 match state_of_json data with
                 | Ok users => ret users
                 | Raise e => raise e
                 end
             | None => raise JSONDecodeError
             end
         | _ => raise IOError
         end)
        (fun _ => ret ∅)
  end.

Definition take_string (n : nat) (s : string) : string :=
  string_of_list_ascii (take n (list_ascii_of_string s)).

(** [open(self.state_file, 'w')] truncates the file; what [json.dump]
    got out before an [IOError] stays in it. *)
Definition save_state (users : gmap string UserSpec) : M unit :=
  emit (EvCall (save_state_call users)) ;;
  let text := dumps (state_to_json users) in
  t <- tick ;;
  match io_fault env t with
  | IoOk =>
      emit (EvWrite (STATE_FILE cfg)) ;;
      modify (fun w => set_files (<[STATE_FILE cfg := text]> (files w)) w)
  | IoOpenFails => ret tt
  | IoWriteFails written =>
      emit (EvWrite (STATE_FILE cfg)) ;;
      modify (fun w => set_files (<[STATE_FILE cfg := take_string written text]> (files w)) w)
  end.

(** *** PostgresUserController *)

Fixpoint collect_users (l : list user_data) (users : gmap string UserSpec)
  : option (gmap string UserSpec) :=
  match l with
  | [] => Some users
  | user_data :: l' =>
      match ud_username user_data with
      | Some name =>
          let spec := {| username := name;
                         database := default (DB_NAME cfg) (ud_database user_data);
                         roles := default [] (ud_roles user_data);
                         privileges := ud_privileges user_data |} in
          collect_users l' (<[username spec := spec]> users)
      | None => None
      end
  end.

(** [None] from [collect_users] is the [KeyError] on a missing
    [username]; it is caught like [yaml.YAMLError].  [parsed.get] on a
    document that is no mapping raises [AttributeError], which is not. *)
Definition parse_desired_users (yaml_content : string) : result (gmap string UserSpec) :=
  if is_empty_string yaml_content then Ok ∅
  else
    match safe_load env yaml_content with
    | YamlInvalid => Ok ∅
    | YamlNotMapping => Raise AttributeError
    | YamlMapping users =>
        match collect_users (default [] users) ∅ with
        | Some users => Ok users
        | None => Ok ∅
        end
    end.

Definition detect_drift (desired : gmap string UserSpec) (actual_users : gset string)
  : gset string * gset string * gset string :=
  let desired_usernames := dom desired in
  (desired_usernames ∖ actual_users,
   actual_users ∖ desired_usernames,
   desired_usernames ∩ actual_users).

Definition all_desired_roles (desired_users : gmap string UserSpec) : gset string :=
  foldr (fun item acc => acc ∪ list_to_set (roles item.2)) ∅ (map_to_list desired_users).

Definition reconcile_roles (desired_users : gmap string UserSpec) (dry_run : bool) : M unit :=
  existing_roles <- fetch_existing_roles ;;
  let roles_to_create := all_desired_roles desired_users ∖ existing_roles in
  for_each (elements roles_to_create)
    (fun role =>
       catch Exception
         (create_role role dry_run ;; update_stats incr_roles_created)
         (fun _ => update_stats incr_errors)).

Definition lift {A} (r : result A) : M A :=
  match r with
  | Ok a => ret a
  | Raise e => raise e
  end.

Definition no_password (password : option string) : bool :=
  match password with
  | Some pw => is_empty_string pw
  | None => true
  end.

(** [reconcile_users] up to the point where the three views are at
    hand: the desired users, the previous state and the users of the
    database.  [None] is one of its two early returns. *)
Definition fetch_states
  : M (option (gmap string UserSpec * gmap string UserSpec * gset string)) :=
  yaml_content <- fetch_configmap (CONFIGMAP_NAME cfg) (NAMESPACE cfg) ;;
  match yaml_content with
  | None => update_stats incr_errors ;; ret None
  | Some yaml_content =>
      desired_users <- lift (parse_desired_users yaml_content) ;;
      previous_state <- load_state ;;
      catch Exception
        (actual_users <- fetch_existing_users ;;
         ret (Some (desired_users, previous_state, actual_users)))
        (fun _ => update_stats incr_errors ;; ret None)
  end.

Definition handle_deletions (previous_state : gmap string UserSpec)
    (users_to_delete : gset string) (dry_run : bool) : M unit :=
  for_each (elements users_to_delete)
    (fun name =>
       if bool_decide (name ∈ dom previous_state) then
         catch Exception
           (drop_user name dry_run ;; update_stats incr_users_deleted)
           (fun _ => update_stats incr_errors)
       else ret tt).

Definition handle_creations (desired_users : gmap string UserSpec)
    (users_to_create : gset string) (dry_run : bool) : M unit :=
  for_each (elements users_to_create)
    (fun name =>
       user_spec <- lift (match desired_users !! name with
                          | Some spec => Ok spec
                          | None => Raise KeyError
                          end) ;;
       catch Exception
         (password <- get_user_password name (NAMESPACE cfg) ;;
          if no_password password then update_stats incr_errors
          else
            create_user user_spec (default EmptyString password) dry_run ;;
            update_stats incr_users_created)
         (fun _ => update_stats incr_errors)).

Definition roles_changed (prev_spec : option UserSpec) (user_spec : UserSpec) : bool :=
  match prev_spec with
  | Some prev =>
      negb (bool_decide ((list_to_set (roles prev) : gset string) = list_to_set (roles user_spec)))
  | None => false
  end.

Definition handle_updates (desired_users previous_state : gmap string UserSpec)
    (users_to_update : gset string) (dry_run : bool) : M unit :=
  for_each (elements users_to_update)
    (fun name =>
       user_spec <- lift (match desired_users !! name with
                          | Some spec => Ok spec
                          | None => Raise KeyError
                          end) ;;
       let prev_spec := previous_state !! name in
       if roles_changed prev_spec user_spec then
         catch Exception
           (actual_roles <- fetch_user_roles name ;;
            let desired_roles : gset string := list_to_set (roles user_spec) in
            if negb (bool_decide (actual_roles = desired_roles)) then
              update_user_roles name actual_roles desired_roles dry_run ;;
              update_stats incr_users_updated
            else ret tt)
           (fun _ => update_stats incr_errors)
       else ret tt).

(** The rest of [reconcile_users], from "Reconcile roles first" on. *)
Definition reconcile_from (desired_users previous_state : gmap string UserSpec)
    (actual_users : gset string) (dry_run : bool) : M unit :=
  reconcile_roles desired_users dry_run ;;
  let '(users_to_create, users_to_delete, users_to_update) :=
    detect_drift desired_users actual_users in
  let drift := size users_to_create + size users_to_delete in
  (if 0 <? drift then update_stats (set_drift_detected drift) else ret tt) ;;
  handle_deletions previous_state users_to_delete dry_run ;;
  handle_creations desired_users users_to_create dry_run ;;
  handle_updates desired_users previous_state users_to_update dry_run ;;
  (if negb dry_run then save_state desired_users else ret tt) ;;
  modify (fun w =>
    set_metrics {| reconciliation_count := reconciliation_count (metrics w);
                   drift_count := drift_count (metrics w);
                   users_managed := size desired_users;
                   roles_managed := roles_managed (metrics w);
                   error_count := error_count (metrics w) |} w) ;;
  existing_roles <- fetch_existing_roles ;;
  modify (fun w =>
    set_metrics {| reconciliation_count := reconciliation_count (metrics w);
                   drift_count := drift_count (metrics w);
                   users_managed := users_managed (metrics w);
                   roles_managed := size existing_roles;
                   error_count := error_count (metrics w) |} w).

Definition reconcile_users (dry_run : bool) : M unit :=
  states <- fetch_states ;;
  match states with
  | Some (desired_users, previous_state, actual_users) =>
      reconcile_from desired_users previous_state actual_users dry_run
  | None => ret tt
  end.

Definition record_reconciliation : M unit :=
  modify (fun w =>
    set_metrics {| reconciliation_count := S (reconciliation_count (metrics w));
                   drift_count := drift_count (metrics w) + drift_detected (stats w);
                   users_managed := users_managed (metrics w);
                   roles_managed := roles_managed (metrics w);
                   error_count := error_count (metrics w) + errors (stats w) |} w).

(** One turn of [run_reconciliation_loop]: fresh statistics, the
    reconciliation under the configured dry-run flag, and the metrics
    recorded on both exits. *)
Definition reconciliation_cycle : M unit :=
  modify (set_stats empty_stats) ;;
  catch Exception
    (reconcile_users (DRY_RUN cfg) ;; record_reconciliation)
    (fun _ => update_stats incr_errors ;; record_reconciliation).

End Controller.

(** * Reasoning about computations *)

(** ** Relations between the world before and after *)

Definition steps {A} (R : relation World) (m : M A) : Prop :=
  forall w, R w (m w).2.

(** The events a computation adds to the trace. *)
Definition events_of {A} (m : M A) (w : World) : list event :=
  drop (length (trace w)) (trace (m w).2).

Definition trace_ext (P : event -> Prop) : relation World :=
  fun w w' => exists es, trace w' = trace w ++ es /\ Forall P es.

Definition keeps {X} (f : World -> X) : relation World :=
  fun w w' => f w' = f w.

Definition both (R1 R2 : relation World) : relation World :=
  fun w w' => R1 w w' /\ R2 w w'.


(** ** Predicates on events used by the properties below *)

(** The events the first part of a cycle can leave. *)
Definition fetch_event (e : event) : Prop :=
  match e with
  | EvCall load_state_call | EvCall fetch_existing_users_call => True
  | EvQuery (SelectRolname _) => True
  | _ => False
  end.

(** [drop_user] is called for [u] only when [u] is a key of the previous
    state, is in the database and is not desired. *)
Definition drop_guard (desired previous : gmap string UserSpec) (actual : gset string)
    (e : event) : Prop :=
  forall u dr, e = EvCall (drop_user_call u dr) ->
    u ∈ dom previous /\ u ∈ actual /\ u ∉ dom desired.

(** The membership of [u] is queried or changed only when [u] is a key of
    the previous state, is desired and is in the database. *)
Definition membership_event (u : string) (e : event) : Prop :=
  match e with
  | EvCall (fetch_user_roles_call name) => name = u
  | EvCall (update_user_roles_call name _ _ _) => name = u
  | EvQuery (SelectGrantedRoles name) => name = u
  | _ => False
  end.

Definition update_guard (desired previous : gmap string UserSpec) (actual : gset string)
    (e : event) : Prop :=
  forall u, membership_event u e ->
    u ∈ dom previous /\ u ∈ dom desired /\ u ∈ actual.

(** ** Concrete configurations, environments and worlds *)

Definition default_config (dry_run : bool) : Config :=
  {| NAMESPACE := "postgres"; CONFIGMAP_NAME := "postgres-users-config";
     DB_NAME := "postgres"; DB_USER := "postgres";
     STATE_FILE := "/tmp/users_state.json"; DRY_RUN := dry_run; MAX_RETRIES := 5 |}.

(** A well-behaved environment: the ConfigMap decodes to [doc], the secret
    of a user holds the password listed in [secrets] (stored unencoded),
    the services never fail and the server accepts every statement. *)
Definition quiet_env (doc : yaml_document) (secrets : gmap string string) : Env :=
  {| safe_load := fun _ => doc;
     b64decode := fun s => Some s;
     read_namespaced_config_map := fun _ _ _ => ApiOk {[ "users.yaml" := "users: ..." ]};
     read_namespaced_secret := fun name _ _ =>
       match secrets !! name with
       | Some pw => ApiOk {[ "password" := pw ]}
       | None => ApiError 404
       end;
     db_fault := fun _ => false;
     pg_execute := fun d _ _ => Some d;
     autocommit := fun _ => false;
     io_fault := fun _ => IoOk |}.

Definition login_role (name : string) : pg_role := {| rolname := name; rolcanlogin := true |}.
Definition group_role (name : string) : pg_role := {| rolname := name; rolcanlogin := false |}.

Definition plain_user (name db : string) (rs : list string) : UserSpec :=
  {| username := name; database := db; roles := rs; privileges := None |}.

Definition entry (name db : string) (rs : list string) : user_data :=
  {| ud_username := Some name; ud_database := Some db; ud_roles := Some rs;
     ud_privileges := None |}.

Definition start_world (roles_ : list pg_role) (members : list (string * string))
    (state : option (gmap string UserSpec)) : World :=
  {| db := {| pg_roles := roles_; pg_auth_members := members |};
     clock := 0;
     files := match state with
              | Some users => {[ "/tmp/users_state.json" := dumps (state_to_json users) ]}
              | None => ∅
              end;
     metrics := empty_metrics;
     stats := empty_stats;
     trace := [] |}.

(** [bob] was created by the controller and is no longer desired;
    [charlie] was never managed. *)
Definition world_bob_charlie : World :=
  start_world [login_role "postgres"; login_role "bob"; login_role "charlie"] []
    (Some {[ "bob" := plain_user "bob" "app" [] ]}).

(** [alice] is desired with role [rw], exists with role [ro], and the
    state file does not know her. *)
Definition world_alice_unknown : World :=
  start_world [login_role "postgres"; login_role "alice"; group_role "ro"; group_role "rw"]
    [("ro", "alice")] None.

(** ** Dry run *)

(** What a dry run may leave in the trace: reads, and gateway calls made
    with the dry-run flag set.  No statement, no commit or rollback, no
    [save_state] and no write to a file. *)
Definition dry_run_event (e : event) : Prop :=
  match e with
  | EvQuery _ => True
  | EvCall (create_role_call _ dr) | EvCall (drop_role_call _ dr)
  | EvCall (create_user_call _ dr) | EvCall (update_user_roles_call _ _ _ dr)
  | EvCall (drop_user_call _ dr) => dr = true
  | EvCall (save_state_call _) => False
  | EvCall _ => True
  | EvExecute _ _ | EvCommit | EvRollback | EvWrite _ => False
  end.

Fixpoint count_events (sel : event -> bool) (es : list event) : nat :=
  match es with
  | [] => 0
  | e :: es' => (if sel e then 1 else 0) + count_events sel es'
  end.

Definition is_create_role_call (e : event) : bool :=
  match e with EvCall (create_role_call _ _) => true | _ => false end.
Definition is_create_user_call (e : event) : bool :=
  match e with EvCall (create_user_call _ _) => true | _ => false end.
Definition is_update_user_roles_call (e : event) : bool :=
  match e with EvCall (update_user_roles_call _ _ _ _) => true | _ => false end.
Definition is_drop_user_call (e : event) : bool :=
  match e with EvCall (drop_user_call _ _) => true | _ => false end.

(** The four mutation counters move with the gateway calls of [es]. *)
Definition counters_follow (es : list event) (s s' : ReconciliationStats) : Prop :=
  roles_created s' = roles_created s + count_events is_create_role_call es
  /\ users_created s' = users_created s + count_events is_create_user_call es
  /\ users_updated s' = users_updated s + count_events is_update_user_roles_call es
  /\ users_deleted s' = users_deleted s + count_events is_drop_user_call es.

Definition dry_run_step : relation World :=
  fun w w' =>
    exists es,
      trace w' = trace w ++ es /\ Forall dry_run_event es
      /\ db w' = db w /\ files w' = files w
      /\ counters_follow es (stats w) (stats w').

(** ** Further predicates *)

Definition never_raises {A} (m : M A) : Prop :=
  forall w, exists a, (m w).1 = Ok a.

(** A gated gateway call in a dry run: it returns, having done nothing
    but announce itself. *)
Definition gated (m : M unit) (c : call) : Prop :=
  forall w, m w = (Ok tt, add_event (EvCall c) w).

Definition drift_of (w : World) : nat := drift_detected (stats w).

(** Only [charlie], whom nobody declared and the controller never
    created, is in the database. *)
Definition world_charlie : World :=
  start_world [login_role "postgres"; login_role "charlie"] [] None.

(** [alice] is desired with role [rw] and is missing, together with the
    role; [bob] is owned and no longer desired. *)
Definition world_alice_missing : World :=
  start_world [login_role "postgres"; login_role "bob"] []
    (Some {[ "bob" := plain_user "bob" "app" [] ]}).

(** ** Malformed desired state *)

(** The ConfigMap text does not decode ([yaml.YAMLError]) or one of its
    user entries has no [username] ([KeyError]). *)
Definition malformed (env : Env) (yaml_content : string) : Prop :=
  safe_load env yaml_content = YamlInvalid
  \/ exists users,
       safe_load env yaml_content = YamlMapping (Some users)
       /\ Exists (fun user_data => ud_username user_data = None) users.

(** The set [fetch_existing_users] reads from a database. *)
Definition live_users (d : Database) : gset string :=
  list_to_set (run_query d (SelectRolname (Some (NotIn system_roles_list)))).

Definition live_groups (d : Database) : gset string :=
  list_to_set
    (run_query d (SelectRolname (Some (And (NotIn system_roles_list) NotCanLogin)))).

Definition mono : relation World := trace_ext (fun _ => True).

(** ** The statements of [create_user] *)

(** The literal pieces of the templates [create_user] and
    [_grant_privileges] format. *)
Definition create_user_templates : list string :=
  ["CREATE USER "; " WITH PASSWORD %s;"; "GRANT CONNECT ON DATABASE "; " TO "; ";";
   "GRANT "; " ON "].

(** [kw] is listed for some object in the privileges of the record. *)
Definition spec_privilege (spec : UserSpec) (kw : string) : Prop :=
  exists m object_type privileges_list,
    privileges spec = Some m /\ m !! object_type = Some privileges_list
    /\ In kw privileges_list.

Definition spec_identifier (spec : UserSpec) (x : string) : Prop :=
  x = username spec \/ x = database spec \/ In x (roles spec)
  \/ exists m privileges_list, privileges spec = Some m /\ m !! x = Some privileges_list.

(** A fragment of a statement is a quoted identifier of the record, a
    piece of a template, or a privilege keyword of the record as it
    stands. *)
Definition fragment_from (spec : UserSpec) (f : Composable) : Prop :=
  match f with
  | Identifier x => spec_identifier spec x
  | SQL t => In t create_user_templates \/ spec_privilege spec t
  end.

(** The keyword of a [GRANT <keyword> ON <object> TO <user>;] statement:
    the only template whose first field is filled with an [SQL]
    fragment. *)
Definition privilege_keyword (q : Composed) : option string :=
  match q with
  | [SQL _; SQL kw; SQL _; Identifier _; SQL _; Identifier _; SQL _] => Some kw
  | _ => None
  end.

Definition statement_from (spec : UserSpec) (e : event) : Prop :=
  forall q params, e = EvExecute q params ->
    Forall (fragment_from spec) q
    /\ forall kw, privilege_keyword q = Some kw -> spec_privilege spec kw.

(** C1 as stated: there is an allow-list that holds every privilege
    keyword [create_user] emits. *)
Definition keywords_within (allow : list string) : Prop :=
  forall env spec pw w q params kw,
    has_privileges spec = true ->
    In (EvExecute q params) (events_of (create_user env spec pw false) w) ->
    privilege_keyword q = Some kw ->
    In kw allow.

(** A keyword no given list holds. *)
Definition beyond (allow : list string) : string :=
  String "X" (fold_right String.append EmptyString allow).

Definition mallory (kw : string) : UserSpec :=
  {| username := "mallory"; database := "app"; roles := [];
     privileges := Some {[ "public" := [kw] ]} |}.

Definition empty_world : World := start_world [] [] None.

(** ** Worlds for the system roles and the group roles *)

(** A login role [alice] and a group role [read_only]. *)
Definition world_with_group : World :=
  start_world [login_role "postgres"; login_role "alice"; group_role "read_only"] [] None.

(** Nothing but built-in roles in the database, while the ConfigMap names
    [postgres] as a user and [pg_monitor] as one of its roles. *)
Definition world_system_only : World :=
  start_world [login_role "postgres"; group_role "pg_monitor"] [] None.

Definition env_system_names : Env :=
  quiet_env (YamlMapping (Some [entry "postgres" "postgres" ["pg_monitor"]]))
    {[ "user-postgres-secret" := "hunter2" ]}.

(** ** The encoder and the decoder side by side *)

Definition encode_elems (level : nat) (l : list value) : list ascii :=
  fold_right
    (fun y acc => ","%char :: newline_indent (S level) ++ encode (S level) y ++ acc)
    (newline_indent level ++ ["]"%char]) l.

Definition encode_members (level : nat) (l : list (string * value)) : list ascii :=
  fold_right
    (fun kv acc =>
       ","%char :: newline_indent (S level) ++ encode_string kv.1 ++ chars ": " ++
       encode (S level) kv.2 ++ acc)
    (newline_indent level ++ ["}"%char]) l.

Definition tokens_elems (l : list value) : list token :=
  fold_right (fun y acc => TComma :: tokens y ++ acc) [TRBracket] l.

Definition tokens_members (l : list (string * value)) : list token :=
  fold_right (fun kv acc => TComma :: TStr kv.1 :: TColon :: tokens kv.2 ++ acc) [TRBrace] l.

(** The values without a number: all that [save_state] writes. *)
Fixpoint plain (v : value) : Prop :=
  match v with
  | JNumber _ => False
  | JArray l =>
      (fix all (l : list value) : Prop :=
         match l with
         | [] => True
         | x :: l' => plain x /\ all l'
         end) l
  | JObject l =>
      (fix all (l : list (string * value)) : Prop :=
         match l with
         | [] => True
         | (_, x) :: l' => plain x /\ all l'
         end) l
  | _ => True
  end.

Definition lexes_to (v : value) : Prop :=
  forall level rest,
    lex (encode level v ++ rest) None = app (tokens v) <$> lex rest None.

Definition parses_to (v : value) : Prop :=
  forall fuel rest,
    length (tokens v) <= fuel -> parse_value fuel (tokens v ++ rest) = Some (v, rest).


(** The services answer, but writing or reading the state file fails as
    [faults] tells. *)
Definition env_io_fault (faults : nat -> io_outcome) : Env :=
  {| safe_load := fun _ => YamlInvalid;
     b64decode := fun s => Some s;
     read_namespaced_config_map := fun _ _ _ => ApiOk {[ "users.yaml" := "users: ..." ]};
     read_namespaced_secret := fun _ _ _ => ApiError 404;
     db_fault := fun _ => false;
     pg_execute := fun d _ _ => Some d;
     autocommit := fun _ => false;
     io_fault := faults |}.

(** ** What [drop_user] leaves when nothing fails *)

(** A database that can be reached and takes every statement and every
    commit. *)
Definition obliging (env : Env) : Prop :=
  (forall t, db_fault env t = false)
  /\ forall d q params, is_Some (pg_execute env d q params).

(** The statements of [drop_user], in the order of the source. *)
Definition drop_user_statements (cfg : Config) (name : string) : list Composed :=
  [format "REVOKE ALL PRIVILEGES ON DATABASE {} FROM {};"
     [Identifier (DB_NAME cfg); Identifier name];
   format "REASSIGN OWNED BY {} TO {};" [Identifier name; Identifier (DB_USER cfg)];
   format "DROP OWNED BY {};" [Identifier name];
   format "DROP USER IF EXISTS {};" [Identifier name]].

(** The events of a [drop_user] that goes through: the call, its four
    statements, the commit. *)
Definition drop_user_events (cfg : Config) (name : string) : list event :=
  EvCall (drop_user_call name false)
  :: map (fun q => EvExecute q []) (drop_user_statements cfg name) ++ [EvCommit].

(** [block] stands in [es] as one stretch. *)
Definition occurs (block es : list event) : Prop :=
  exists before after, es = before ++ block ++ after.

(** [m] returns in every world and leaves exactly the events [es]. *)
Definition clean (m : M unit) (es : list event) : Prop :=
  forall w, exists w', m w = (Ok tt, w') /\ trace w' = trace w ++ es.

Definition no_rollback (e : event) : Prop := e <> EvRollback.


(** * Further definitions *)

(** The record [parse_desired_users] builds from one entry of the
    document. *)
Definition spec_of_entry (cfg : Config) (name : string) (entry_ : user_data) : UserSpec :=
  {| username := name;
     database := default (DB_NAME cfg) (ud_database entry_);
     roles := default [] (ud_roles entry_);
     privileges := ud_privileges entry_ |}.

Definition named (name : string) (entry_ : user_data) : Prop :=
  ud_username entry_ = Some name.

#[global] Instance named_dec name entry_ : Decision (named name entry_).
Proof. unfold named. apply _. Defined.

(** [alice] is listed twice, with different roles. *)
Definition entries_alice_twice : list user_data :=
  [entry "alice" "app" ["ro"]; entry "bob" "app" []; entry "alice" "app" ["rw"]].

(** The API fails with [status] on the first [failures] calls and then
    hands out [data]. *)
Definition flaky_api (failures status : nat) (data : gmap string string)
    (t : nat) : api_response :=
  if t <? failures then ApiError status else ApiOk data.

Definition env_flaky_configmap (failures status : nat) : Env :=
  {| safe_load := fun _ => YamlInvalid;
     b64decode := fun s => Some s;
     read_namespaced_config_map := fun _ _ => flaky_api failures status {[ "users.yaml" := "users: ..." ]};
     read_namespaced_secret := fun _ _ => flaky_api failures status {[ "password" := "p1" ]};
     db_fault := fun _ => false;
     pg_execute := fun d _ _ => Some d;
     autocommit := fun _ => false;
     io_fault := fun _ => IoOk |}.

(** The API answers every call with the error [status]. *)
Definition env_api_down (status : nat) : Env :=
  {| safe_load := fun _ => YamlInvalid;
     b64decode := fun s => Some s;
     read_namespaced_config_map := fun _ _ _ => ApiError status;
     read_namespaced_secret := fun _ _ _ => ApiError status;
     db_fault := fun _ => false;
     pg_execute := fun d _ _ => Some d;
     autocommit := fun _ => false;
     io_fault := fun _ => IoOk |}.

(** What one may say of the gateway calls of a reconciliation with
    dry-run flag [dry] that has fetched the desired users [d], the
    previous state [p] and the database users [a]. *)
Definition call_guard (dry : bool) (d p : gmap string UserSpec) (a : gset string)
    (e : event) : Prop :=
  match e with
  | EvCall (create_role_call r dr) =>
      dr = dry /\ exists u spec, d !! u = Some spec /\ In r (roles spec)
  | EvCall (drop_role_call _ _) => False
  | EvCall (get_user_password_call u) => u ∈ dom d /\ u ∉ a
  | EvCall (create_user_call spec dr) =>
      dr = dry /\ exists u, d !! u = Some spec /\ u ∉ a
  | EvCall (update_user_roles_call u old_roles new_roles dr) =>
      dr = dry /\ u ∈ a /\ old_roles <> new_roles
      /\ exists spec prev,
           d !! u = Some spec /\ p !! u = Some prev
           /\ new_roles = list_to_set (roles spec)
           /\ (list_to_set (roles prev) : gset string) <> list_to_set (roles spec)
  | EvCall (save_state_call users) => dry = false /\ users = d
  | EvExecute _ params =>
      params = [] \/ exists pw, params = [pw] /\ pw <> EmptyString
  | _ => True
  end.

(** The secret of [name] has been read with a password field that is
    not empty and decodes to [pw]. *)
Definition secret_holds (env : Env) (cfg : Config) (name pw : string) : Prop :=
  exists t data encoded_pw,
    read_namespaced_secret env (secret_name name) (NAMESPACE cfg) t = ApiOk data
    /\ data !! "password" = Some encoded_pw
    /\ encoded_pw <> EmptyString
    /\ b64decode env encoded_pw = Some pw.

(** Where the creations of a cycle come from: [create_user] is called for
    a desired user that is not in the database and whose secret held a
    password; the one statement with a bound parameter is the CREATE USER
    of such a user, the parameter being that password. *)
Definition from_secret (env : Env) (cfg : Config) (d : gmap string UserSpec)
    (a : gset string) (e : event) : Prop :=
  match e with
  | EvCall (create_user_call spec _) =>
      exists u pw, d !! u = Some spec /\ (u ∉ a) /\ pw <> EmptyString
                   /\ secret_holds env cfg u pw
  | EvExecute q params =>
      params = []
      \/ exists u spec pw,
           d !! u = Some spec /\ (u ∉ a)
           /\ q = format "CREATE USER {} WITH PASSWORD %s;" [Identifier (username spec)]
           /\ params = [pw] /\ pw <> EmptyString /\ secret_holds env cfg u pw
  | _ => True
  end.

Definition not_drop_role (e : event) : Prop :=
  match e with
  | EvCall (drop_role_call _ _) => False
  | _ => True
  end.

Definition roles_deleted_of (w : World) : nat := roles_deleted (stats w).

(** [alice] is desired and missing; her secret is there. *)
Definition env_alice : Env :=
  quiet_env (YamlMapping (Some [entry "alice" "app" ["rw"]]))
    {[ "user-alice-secret" := "p1" ]}.

(** The database cannot be reached. *)
Definition env_db_down : Env :=
  {| safe_load := fun _ => YamlMapping (Some [entry "alice" "app" ["rw"]]);
     b64decode := fun s => Some s;
     read_namespaced_config_map := fun _ _ _ => ApiOk {[ "users.yaml" := "users: ..." ]};
     read_namespaced_secret := fun _ _ _ => ApiError 404;
     db_fault := fun _ => true;
     pg_execute := fun d _ _ => Some d;
     autocommit := fun _ => false;
     io_fault := fun _ => IoOk |}.

(** [alice] is desired with role [rw]; the state file and the database
    have her with role [ro]. *)
Definition world_alice_ro : World :=
  start_world [login_role "postgres"; login_role "alice"; group_role "ro"; group_role "rw"]
    [("ro", "alice")] (Some {[ "alice" := plain_user "alice" "app" ["ro"] ]}).

Definition env_alice_rw : Env :=
  quiet_env (YamlMapping (Some [entry "alice" "app" ["rw"]])) ∅.

(** The frame of the reads: database, files and statistics stay. *)
Definition reads_only : relation World :=
  both (keeps db) (both (keeps files) (keeps stats)).

(** A gateway call of [reconcile_roles] with flag [dry] on desired users
    [d], when the group roles of the database are [existing]. *)
Definition role_guard (dry : bool) (d : gmap string UserSpec) (existing : gset string)
    (e : event) : Prop :=
  match e with
  | EvCall (create_role_call r dr) =>
      dr = dry /\ (r ∉ existing) /\ exists u spec, d !! u = Some spec /\ In r (roles spec)
  | EvCall (drop_role_call _ _) => False
  | _ => True
  end.

(** The first [turns] turns of the [while True] of
    [run_reconciliation_loop]; the sleep between two turns changes
    nothing of the world. *)
Fixpoint run_reconciliation_loop (env : Env) (cfg : Config) (turns : nat) : M unit :=
  match turns with
  | 0 => ret tt
  | S turns' =>
      bind (reconciliation_cycle env cfg) (fun _ => run_reconciliation_loop env cfg turns')
  end.

(** The three counters of [Metrics]. *)
Definition counters (w : World) : nat * nat * nat :=
  (reconciliation_count (metrics w), drift_count (metrics w), error_count (metrics w)).

(** The desired state asks for role [rw], which the database has, and
    role [audit], which it has not. *)
Definition env_two_roles : Env :=
  quiet_env (YamlMapping (Some [entry "alice" "app" ["rw"; "audit"]])) ∅.

(** The statements among the events, with their parameters. *)
Definition executed (es : list event) : list (Composed * list string) :=
  omap (fun e => match e with EvExecute q params => Some (q, params) | _ => None end) es.

(** A statement of [update_user_roles]: a REVOKE of a role that is held
    and not wanted, or a GRANT of one that is wanted and not held. *)
Definition role_change (name : string) (old_roles new_roles : gset string) (e : event)
  : Prop :=
  match e with
  | EvExecute q params =>
      params = []
      /\ ((exists role, role ∈ old_roles /\ (role ∉ new_roles)
             /\ q = format "REVOKE {} FROM {};" [Identifier role; Identifier name])
          \/ (exists role, role ∈ new_roles /\ (role ∉ old_roles)
                /\ q = format "GRANT {} TO {};" [Identifier role; Identifier name]))
  | _ => True
  end.


(** An entry of a state file with a field [UserSpec] does not have. *)
Definition stale_entry : list (string * value) :=
  [("username", JString "bob"); ("database", JString "app"); ("roles", JArray []);
   ("privileges", JNull); ("version", JNumber "2")].

Definition world_stale_state : World :=
  {| db := {| pg_roles := [login_role "postgres"]; pg_auth_members := [] |};
     clock := 0;
     files := {[ "/tmp/users_state.json" := dumps (JObject [("bob", JObject stale_entry)]) ]};
     metrics := empty_metrics;
     stats := empty_stats;
     trace := [] |}.

(** The state file holds a number. *)
Definition world_number_state : World :=
  {| db := {| pg_roles := [login_role "postgres"]; pg_auth_members := [] |};
     clock := 0;
     files := {[ "/tmp/users_state.json" := "42" ]};
     metrics := empty_metrics;
     stats := empty_stats;
     trace := [] |}.


(** ** The order of the gateway calls of a cycle *)

(** An event that is no gateway call, or a call among [allowed]. *)
Definition only_calls (allowed : call -> bool) (e : event) : Prop :=
  match e with
  | EvCall c => allowed c = true
  | _ => True
  end.

(** The events split into consecutive stretches, one per predicate. *)
Fixpoint in_phases (phases : list (event -> Prop)) (es : list event) : Prop :=
  match phases with
  | [] => es = []
  | P :: phases' =>
      exists es1 es2, es = es1 ++ es2 /\ Forall P es1 /\ in_phases phases' es2
  end.

Definition phased {A} (phases : list (event -> Prop)) (m : M A) : Prop :=
  forall w, exists es, trace (m w).2 = trace w ++ es /\ in_phases phases es.

Definition reading_calls (c : call) : bool :=
  match c with load_state_call | fetch_existing_users_call => true | _ => false end.
Definition role_calls (c : call) : bool :=
  match c with fetch_existing_roles_call | create_role_call _ _ => true | _ => false end.
Definition deletion_calls (c : call) : bool :=
  match c with drop_user_call _ _ => true | _ => false end.
Definition creation_calls (c : call) : bool :=
  match c with get_user_password_call _ | create_user_call _ _ => true | _ => false end.
Definition update_calls (c : call) : bool :=
  match c with fetch_user_roles_call _ | update_user_roles_call _ _ _ _ => true | _ => false end.
Definition closing_calls (c : call) : bool :=
  match c with save_state_call _ | fetch_existing_roles_call => true | _ => false end.

(** The phases of [reconcile_users], in the order of the source. *)
Definition reconcile_users_phases : list (event -> Prop) :=
  [only_calls reading_calls; only_calls role_calls; only_calls deletion_calls;
   only_calls creation_calls; only_calls update_calls; only_calls closing_calls].

(** [alice] is desired and missing, with her secret; [bob] is in the
    database and in the previous state and no longer desired. *)
Definition env_alice_for_bob : Env :=
  quiet_env (YamlMapping (Some [entry "alice" "app" []]))
    {[ "user-alice-secret" := "p1" ]}.

(** ** The statements of [create_user], in order *)

(** The statements [create_user] sends before it turns to the
    privileges: CREATE USER with the password as its parameter, GRANT
    CONNECT, and one GRANT per role in the order of the record. *)
Definition create_user_plan (user_spec : UserSpec) (password : string)
  : list (Composed * list string) :=
  (format "CREATE USER {} WITH PASSWORD %s;" [Identifier (username user_spec)], [password])
  :: (format "GRANT CONNECT ON DATABASE {} TO {};"
        [Identifier (database user_spec); Identifier (username user_spec)], [])
  :: map (fun role =>
            (format "GRANT {} TO {};" [Identifier role; Identifier (username user_spec)], []))
       (roles user_spec).

(** The privilege statements of a record for the object types taken in
    the order of [items], the privileges of each in the order listed. *)
Definition privilege_plan (user_spec : UserSpec) (items : list (string * list string))
  : list (Composed * list string) :=
  flat_map
    (fun item : string * list string =>
       map (fun privilege =>
              (format "GRANT {} ON {} TO {};"
                 [SQL privilege; Identifier item.1; Identifier (username user_spec)], []))
         item.2)
    items.

Definition is_execute (e : event) : Prop :=
  match e with EvExecute _ _ => True | _ => False end.

(** [m] sends the statements of [plan] in order and stops at the first
    that fails. *)
Definition scripted (m : M unit) (plan : list (Composed * list string)) : Prop :=
  forall w, exists es,
    trace (m w).2 = trace w ++ es
    /\ Forall is_execute es
    /\ executed es `prefix_of` plan
    /\ ((m w).1 = Ok tt -> executed es = plan).

(** ** The statements of a cycle *)

(** The statements a cycle can send: each is one of the templates of
    [DatabaseClient] with quoted identifiers in its fields; only the
    privilege of GRANT ... ON is put in as it stands. *)
Definition statement_shape (q : Composed) : Prop :=
  (exists role, q = format "CREATE ROLE {} NOLOGIN;" [Identifier role])
  \/ (exists user, q = format "CREATE USER {} WITH PASSWORD %s;" [Identifier user])
  \/ (exists database_ user,
        q = format "GRANT CONNECT ON DATABASE {} TO {};"
              [Identifier database_; Identifier user])
  \/ (exists role user, q = format "GRANT {} TO {};" [Identifier role; Identifier user])
  \/ (exists privilege object_type user,
        q = format "GRANT {} ON {} TO {};"
              [SQL privilege; Identifier object_type; Identifier user])
  \/ (exists role user, q = format "REVOKE {} FROM {};" [Identifier role; Identifier user])
  \/ (exists database_ user,
        q = format "REVOKE ALL PRIVILEGES ON DATABASE {} FROM {};"
              [Identifier database_; Identifier user])
  \/ (exists user owner,
        q = format "REASSIGN OWNED BY {} TO {};" [Identifier user; Identifier owner])
  \/ (exists user, q = format "DROP OWNED BY {};" [Identifier user])
  \/ (exists user, q = format "DROP USER IF EXISTS {};" [Identifier user]).

Definition known_statement (e : event) : Prop :=
  match e with
  | EvExecute q _ => statement_shape q
  | _ => True
  end.

(** ** The connection pool *)

(** [_initialize_pool]: [for attempt in range(MAX_RETRIES)], leaving at
    the first attempt that connects; [connect t] tells whether the
    attempt made at time [t] does.  The result is the number of attempts
    made and whether the pool is there; [false] is the [RuntimeError]
    after the loop. *)
Fixpoint _initialize_pool_from (connect : nat -> bool) (attempts_left : nat) (t : nat)
  : bool * nat :=
  match attempts_left with
  | 0 => (false, 0)
  | S attempts_left' =>
      if connect t then (true, 1)
      else
        let '(ready, made) := _initialize_pool_from connect attempts_left' (S t) in
        (ready, S made)
  end.

Definition _initialize_pool (connect : nat -> bool) (cfg : Config) (t : nat) : bool * nat :=
  _initialize_pool_from connect (MAX_RETRIES cfg) t.
#[local] Instance trace_ext_preorder P : PreOrder (trace_ext P).
Proof.
  split.
  - intros w. exists []. split; [by rewrite app_nil_r | constructor].
  - intros w1 w2 w3 (es1 & E1 & F1) (es2 & E2 & F2).
    exists (es1 ++ es2). split.
    + by rewrite E2, E1, app_assoc.
    + by apply Forall_app.
Qed.

#[local] Instance keeps_preorder {X} (f : World -> X) : PreOrder (keeps f).
Proof.
  split.
  - by intros w.
  - intros w1 w2 w3 E1 E2. unfold keeps in *. congruence.
Qed.

#[local] Instance both_preorder R1 R2 :
  PreOrder R1 -> PreOrder R2 -> PreOrder (both R1 R2).
Proof.
  intros H1 H2. split.
  - intros w. split; reflexivity.
  - intros w1 w2 w3 [A1 A2] [B1 B2]. split; etransitivity; eauto.
Qed.

Section Steps.

Context (R : relation World) `{!PreOrder R}.

Lemma steps_ret {A} (a : A) : steps R (ret a).
Proof. intros w. reflexivity. Qed.

Lemma steps_raise {A} (e : exn) : steps R (@raise A e).
Proof. intros w. reflexivity. Qed.

Lemma steps_get : steps R get.
Proof. intros w. reflexivity. Qed.

Lemma steps_modify (f : World -> World) :
  (forall w, R w (f w)) -> steps R (modify f).
Proof. intros H w. apply H. Qed.

Lemma steps_tick :
  (forall t w, R w (set_clock t w)) -> steps R tick.
Proof. intros H w. apply H. Qed.

Lemma steps_bind {A B} (m : M A) (k : A -> M B) :
  steps R m -> (forall a, steps R (k a)) -> steps R (bind m k).
Proof.
  intros Hm Hk w. unfold bind. specialize (Hm w).
  destruct (m w) as [[a|e] w1]; simpl in *; [|done].
  etransitivity; [exact Hm | apply Hk].
Qed.

Lemma steps_catch {A} handles (m : M A) (h : exn -> M A) :
  steps R m -> (forall e, steps R (h e)) -> steps R (catch handles m h).
Proof.
  intros Hm Hh w. unfold catch. specialize (Hm w).
  destruct (m w) as [[a|e] w1]; simpl in *; [done|].
  destruct (handles e); [|done].
  etransitivity; [exact Hm | apply Hh].
Qed.

Lemma steps_for_each {A} (l : list A) (body : A -> M unit) :
  (forall x, x ∈ l -> steps R (body x)) -> steps R (for_each l body).
Proof.
  induction l as [|x l IH]; intros H; simpl.
  - apply steps_ret.
  - apply steps_bind.
    + apply H. by left.
    + intros _. apply IH. intros y Hy. apply H. by right.
Qed.

Lemma steps_lift {A} (r : result A) : steps R (lift r).
Proof. destruct r; [apply steps_ret | apply steps_raise]. Qed.

End Steps.

Lemma trace_ext_events {A} P (m : M A) w :
  steps (trace_ext P) m -> Forall P (events_of m w).
Proof.
  intros H. destruct (H w) as (es & E & F).
  unfold events_of. rewrite E, drop_app_length. exact F.
Qed.

Lemma trace_ext_add P e w : P e -> trace_ext P w (add_event e w).
Proof. intros H. exists [e]. split; [done | by constructor]. Qed.

Lemma trace_ext_same P w w' : trace w' = trace w -> trace_ext P w w'.
Proof. intros E. exists []. split; [by rewrite app_nil_r | constructor]. Qed.

(** Cutting a computation of the controller into its primitive steps. *)
Ltac steps_step :=
  lazymatch goal with
  | |- steps ?R (bind ?m ?k) => apply (steps_bind R m k); [ | intros ? ]
  | |- steps ?R (ret ?a) => apply (steps_ret R a)
  | |- steps ?R (raise ?e) => apply (steps_raise R e)
  | |- steps ?R get => apply (steps_get R)
  | |- steps ?R (lift ?r) => apply (steps_lift R r)
  | |- steps ?R (catch ?c ?m ?h) => apply (steps_catch R c m h); [ | intros ? ]
  | |- steps ?R (for_each ?l ?b) => apply (steps_for_each R l b); intros ? ?
  | |- steps ?R (emit ?e) => apply (steps_modify R (add_event e)); intros ?
  | |- steps ?R (update_stats ?f) =>
      apply (steps_modify R (fun w => set_stats (f (stats w)) w)); intros ?
  | |- steps ?R (modify ?f) => apply (steps_modify R f); intros ?
  | |- steps ?R tick => apply (steps_tick R); intros ? ?
  | |- steps _ (if ?b then _ else _) => destruct b eqn:?
  | |- steps _ (match ?x with _ => _ end) => destruct x eqn:?
  end.

Ltac unfold_controller :=
  unfold reconcile_users, fetch_states, reconcile_from, reconcile_roles, handle_deletions,
    handle_creations, handle_updates, load_state, save_state, fetch_existing_users,
    fetch_existing_roles, fetch_user_roles, create_role, create_user, update_user_roles,
    drop_user, _grant_privileges, transaction, commit, cursor_execute, cursor_select,
    get_connection, get_user_password, fetch_configmap, detect_drift.

Section Retries.

Context (R : relation World) `{!PreOrder R}.
Hypothesis R_clock : forall t w, R w (set_clock t w).
Variables (env : Env) (cfg : Config).

Lemma steps_fetch_configmap_from fuel name namespace retry_count :
  steps R (fetch_configmap_from env cfg fuel name namespace retry_count).
Proof.
  revert retry_count.
  induction fuel as [|fuel IH]; intros retry_count; simpl;
    repeat steps_step; auto.
Qed.

Lemma steps_get_user_password_from fuel name namespace retry_count :
  steps R (get_user_password_from env cfg fuel name namespace retry_count).
Proof.
  revert retry_count.
  induction fuel as [|fuel IH]; intros retry_count; simpl;
    repeat steps_step; auto.
Qed.

End Retries.

Ltac trace_leaf :=
  first [ apply trace_ext_same; reflexivity
        | apply trace_ext_add ].

Lemma fetch_states_events env cfg :
  steps (trace_ext fetch_event) (fetch_states env cfg).
Proof.
  unfold_controller.
  repeat first [ steps_step | apply steps_fetch_configmap_from; [apply _ | intros ? ?] ];
    trace_leaf; exact I.
Qed.

(** * The reconciliation cycle *)

Ltac steps_all :=
  repeat first
    [ steps_step
    | apply steps_fetch_configmap_from; [apply _ | intros ? ?]
    | apply steps_get_user_password_from; [apply _ | intros ? ?] ].

Lemma reconcile_users_events (P : gmap string UserSpec -> gmap string UserSpec ->
                                  gset string -> event -> Prop) env cfg dry w e :
  (forall d p a, steps (trace_ext (P d p a)) (reconcile_from env cfg d p a dry)) ->
  In e (events_of (reconcile_users env cfg dry) w) ->
  fetch_event e \/
  exists d p a w1, fetch_states env cfg w = (Ok (Some (d, p, a)), w1) /\ P d p a e.
Proof.
  intros HP. unfold events_of, reconcile_users, bind.
  destruct (fetch_states_events env cfg w) as (es1 & E1 & F1).
  destruct (fetch_states env cfg w) as [[[[[d p] a]|]|x] w1] eqn:E; simpl in *.
  - destruct (HP d p a w1) as (es2 & E2 & F2).
    rewrite E2, E1, <- app_assoc, drop_app_length.
    intros Hin. apply in_app_or in Hin as [Hin|Hin].
    + left. rewrite Forall_forall in F1. apply F1. by apply list_elem_of_In.
    + right. exists d, p, a, w1. split; [done|].
      rewrite Forall_forall in F2. apply F2. by apply list_elem_of_In.
  - rewrite E1, drop_app_length. intros Hin. left.
    rewrite Forall_forall in F1. apply F1. by apply list_elem_of_In.
  - rewrite E1, drop_app_length. intros Hin. left.
    rewrite Forall_forall in F1. apply F1. by apply list_elem_of_In.
Qed.

Lemma reconcile_from_drop_guard env cfg d p a dry :
  steps (trace_ext (drop_guard d p a)) (reconcile_from env cfg d p a dry).
Proof.
  unfold_controller. steps_all; trace_leaf;
    try (intros u dr [=]; fail).
  intros u dr [= <- <-].
  match goal with H : _ ∈ elements _ |- _ => apply elem_of_elements in H end.
  match goal with H : bool_decide _ = true |- _ => apply bool_decide_eq_true in H end.
  match goal with H : _ ∈ _ ∖ _ |- _ => apply elem_of_difference in H as [? ?] end.
  auto.
Qed.

Lemma reconcile_from_update_guard env cfg d p a dry :
  steps (trace_ext (update_guard d p a)) (reconcile_from env cfg d p a dry).
Proof.
  unfold_controller. steps_all; trace_leaf;
    try (intros u []; fail).
  all: intros u Hu; simpl in Hu; subst.
  all: match goal with H : _ ∈ elements _ |- _ => apply elem_of_elements in H end.
  all: match goal with H : roles_changed ?o _ = true |- _ =>
         unfold roles_changed in H; destruct o eqn:Hprev; [|done] end.
  all: match goal with H : _ ∈ _ ∩ _ |- _ => apply elem_of_intersection in H as [? ?] end.
  all: split; [apply elem_of_dom; eauto | auto].
Qed.

(** C3 (orphan protection).  In a cycle that has fetched the desired users
    [d], the previous state [p] and the database users [a], a user that is
    in the database, not desired and not a key of the previous state is
    never handed to [drop_user]; and whenever [drop_user] is called for a
    user, in any cycle, that user is a key of the previous state the cycle
    loaded. *)
Theorem C3_orphan_protection env cfg dry w u dr :
  (forall d p a w1,
     fetch_states env cfg w = (Ok (Some (d, p, a)), w1) ->
     u ∈ a -> u ∉ dom d -> u ∉ dom p ->
     ~ In (EvCall (drop_user_call u dr)) (events_of (reconcile_users env cfg dry) w))
  /\ (In (EvCall (drop_user_call u dr)) (events_of (reconcile_users env cfg dry) w) ->
      exists d p a w1,
        fetch_states env cfg w = (Ok (Some (d, p, a)), w1) /\ u ∈ dom p).
Proof.
  assert (G : In (EvCall (drop_user_call u dr)) (events_of (reconcile_users env cfg dry) w) ->
              exists d p a w1,
                fetch_states env cfg w = (Ok (Some (d, p, a)), w1) /\ u ∈ dom p).
  { intros Hin.
    apply (reconcile_users_events drop_guard) in Hin as [[]|(d & p & a & w1 & E & Hg)].
    - exists d, p, a, w1. split; [done|]. by destruct (Hg u dr eq_refl).
    - intros d p a. apply reconcile_from_drop_guard. }
  split; [|exact G].
  intros d p a w1 E Ha Hd Hp Hin.
  destruct (G Hin) as (d' & p' & a' & w1' & E' & Hp').
  rewrite E in E'. by simplify_eq.
Qed.

Lemma C3_orphan_protection_witness :
  ~ In (EvCall (drop_user_call "charlie" false))
       (events_of (reconcile_users (quiet_env (YamlMapping (Some [])) ∅)
                     (default_config false) false) world_bob_charlie)
  /\ exists d p a w1,
       fetch_states (quiet_env (YamlMapping (Some [])) ∅) (default_config false)
         world_bob_charlie = (Ok (Some (d, p, a)), w1) /\ "bob" ∈ dom p.
Proof.
  split.
  - eapply (proj1 (C3_orphan_protection _ _ false world_bob_charlie "charlie" false)).
    + vm_compute. reflexivity.
    + compute_done.
    + compute_done.
    + compute_done.
  - apply (proj2 (C3_orphan_protection _ _ false world_bob_charlie "bob" false)).
    vm_compute. repeat first [left; reflexivity | right].
Defined.

(** C10.  In a cycle that has fetched the desired users [d], the previous
    state [p] and the database users [a], a user that is desired and in the
    database but is no key of the previous state sees neither a
    role-membership query nor an [update_user_roles] call, whatever the
    memberships in the database are. *)
Theorem C10_unknown_user_not_updated env cfg dry w d p a w1 u :
  fetch_states env cfg w = (Ok (Some (d, p, a)), w1) ->
  u ∈ dom d -> u ∈ a -> u ∉ dom p ->
  forall e, In e (events_of (reconcile_users env cfg dry) w) -> ~ membership_event u e.
Proof.
  intros E Hd Ha Hp e Hin Hm.
  apply (reconcile_users_events update_guard) in Hin
    as [Hf|(d' & p' & a' & w1' & E' & Hg)].
  - destruct e as [[]|[]| | | |]; simpl in *; done.
  - rewrite E in E'. simplify_eq. by destruct (Hg u Hm).
  - intros; apply reconcile_from_update_guard.
Qed.

Lemma C10_unknown_user_not_updated_witness :
  Forall (fun e => ~ membership_event "alice" e)
    (events_of (reconcile_users
                  (quiet_env (YamlMapping (Some [entry "alice" "app" ["rw"]])) ∅)
                  (default_config false) false) world_alice_unknown).
Proof.
  apply Forall_forall. intros e He. apply list_elem_of_In in He. revert e He.
  eapply (C10_unknown_user_not_updated _ _ false world_alice_unknown).
  - vm_compute. reflexivity.
  - compute_done.
  - compute_done.
  - compute_done.
Defined.

(** * Dry run *)

Lemma count_events_app sel es1 es2 :
  count_events sel (es1 ++ es2) = count_events sel es1 + count_events sel es2.
Proof. induction es1 as [|e es1 IH]; simpl; [done | rewrite IH; lia]. Qed.

#[local] Instance dry_run_step_preorder : PreOrder dry_run_step.
Proof.
  split.
  - intros w. exists []. rewrite app_nil_r. unfold counters_follow. simpl.
    repeat split; auto; lia.
  - intros w1 w2 w3 (es1 & T1 & F1 & D1 & L1 & C1) (es2 & T2 & F2 & D2 & L2 & C2).
    exists (es1 ++ es2). unfold counters_follow in *.
    rewrite !count_events_app, T2, T1, app_assoc.
    repeat split; try congruence; try lia.
    by apply Forall_app.
Qed.

Lemma dry_run_step_quiet w w' :
  trace w' = trace w -> db w' = db w -> files w' = files w ->
  roles_created (stats w') = roles_created (stats w) ->
  users_created (stats w') = users_created (stats w) ->
  users_updated (stats w') = users_updated (stats w) ->
  users_deleted (stats w') = users_deleted (stats w) ->
  dry_run_step w w'.
Proof.
  intros T D L C1 C2 C3 C4. exists []. rewrite app_nil_r. unfold counters_follow. simpl.
  repeat split; auto; lia.
Qed.

Lemma dry_run_step_event e w :
  dry_run_event e ->
  is_create_role_call e = false -> is_create_user_call e = false ->
  is_update_user_roles_call e = false -> is_drop_user_call e = false ->
  dry_run_step w (add_event e w).
Proof.
  intros He H1 H2 H3 H4. exists [e]. unfold counters_follow. simpl.
  rewrite H1, H2, H3, H4. repeat split; auto; lia.
Qed.

(** A gated call followed by its counter. *)
Lemma dry_create_role env role :
  steps dry_run_step (bind (create_role env role true) (fun _ => update_stats incr_roles_created)).
Proof.
  intros w. exists [EvCall (create_role_call role true)].
  unfold counters_follow. cbn. repeat split; auto; try lia; by repeat constructor.
Qed.

Lemma dry_drop_user env cfg name :
  steps dry_run_step (bind (drop_user env cfg name true)
                        (fun _ => update_stats incr_users_deleted)).
Proof.
  intros w. exists [EvCall (drop_user_call name true)].
  unfold counters_follow. cbn. repeat split; auto; try lia; by repeat constructor.
Qed.

Lemma dry_create_user env spec pw :
  steps dry_run_step (bind (create_user env spec pw true)
                        (fun _ => update_stats incr_users_created)).
Proof.
  intros w. exists [EvCall (create_user_call spec true)].
  unfold counters_follow. cbn. repeat split; auto; try lia; by repeat constructor.
Qed.

Lemma dry_update_user_roles env name old_roles new_roles :
  steps dry_run_step (bind (update_user_roles env name old_roles new_roles true)
                        (fun _ => update_stats incr_users_updated)).
Proof.
  intros w. exists [EvCall (update_user_roles_call name old_roles new_roles true)].
  unfold update_user_roles, bind, counters_follow. cbn.
  destruct (bool_decide _ && bool_decide _); cbn; repeat split; auto; try lia;
    by repeat constructor.
Qed.

Ltac dry_leaf :=
  first [ apply dry_run_step_quiet; reflexivity
        | apply dry_run_step_event; [exact I | reflexivity ..] ].

Lemma reconcile_users_dry_run env cfg :
  steps dry_run_step (reconcile_users env cfg true).
Proof.
  unfold reconcile_users, fetch_states, reconcile_from, reconcile_roles, handle_deletions,
    handle_creations, handle_updates, load_state, fetch_existing_users,
    fetch_existing_roles, fetch_user_roles, cursor_select, get_connection,
    get_user_password, fetch_configmap, detect_drift.
  cbn [negb].
  repeat first
    [ apply dry_create_role | apply dry_drop_user | apply dry_create_user
    | apply dry_update_user_roles
    | steps_step
    | apply steps_fetch_configmap_from; [apply _ | intros ? ?]
    | apply steps_get_user_password_from; [apply _ | intros ? ?] ];
    dry_leaf.
Qed.

Lemma steps_weaken {A} (R R' : relation World) (m : M A) :
  (forall w w', R w w' -> R' w w') -> steps R m -> steps R' m.
Proof. intros H Hm w. apply H, Hm. Qed.

Lemma reconciliation_cycle_dry_run env cfg :
  DRY_RUN cfg = true ->
  steps (both (trace_ext dry_run_event) (both (keeps db) (keeps files)))
    (reconciliation_cycle env cfg).
Proof.
  intros Hdry. unfold reconciliation_cycle, record_reconciliation. rewrite Hdry.
  repeat first
    [ apply (steps_weaken dry_run_step);
      [ intros w w' (es & T & F & D & L & _); repeat split; [by exists es | done | done]
      | apply reconcile_users_dry_run ]
    | steps_step ];
    (split; [apply trace_ext_same; reflexivity | split; reflexivity]).
Qed.

(** C8 (dry-run purity).  Whatever the world and the environment, a
    reconciliation in dry-run mode leaves in the trace only reads and
    gateway calls carrying the dry-run flag: no statement is executed,
    nothing is committed or rolled back, [save_state] is not called and no
    file is written; the database and the files are unchanged.  Every
    mutating gateway operation with the flag set returns normally after
    announcing itself, and each of the four mutation counters grows by the
    number of the corresponding gateway calls.  The same trace and frame
    hold of a whole turn of the loop when the configuration has dry-run
    on. *)
Theorem C8_dry_run_purity env cfg w :
  let w' := (reconcile_users env cfg true w).2 in
  let es := events_of (reconcile_users env cfg true) w in
  Forall dry_run_event es
  /\ db w' = db w /\ files w' = files w
  /\ counters_follow es (stats w) (stats w')
  /\ (forall role, gated (create_role env role true) (create_role_call role true))
  /\ (forall role, gated (drop_role env role true) (drop_role_call role true))
  /\ (forall spec pw, gated (create_user env spec pw true) (create_user_call spec true))
  /\ (forall name, gated (drop_user env cfg name true) (drop_user_call name true))
  /\ (forall name old_roles new_roles,
        gated (update_user_roles env name old_roles new_roles true)
          (update_user_roles_call name old_roles new_roles true))
  /\ (DRY_RUN cfg = true ->
      Forall dry_run_event (events_of (reconciliation_cycle env cfg) w)
      /\ db (reconciliation_cycle env cfg w).2 = db w
      /\ files (reconciliation_cycle env cfg w).2 = files w).
Proof.
  destruct (reconcile_users_dry_run env cfg w) as (es & T & F & D & L & C).
  cbv zeta. unfold events_of. rewrite T, drop_app_length.
  do 4 (split; [done|]).
  split; [by intros role w0|]. split; [by intros role w0|].
  split; [by intros spec pw w0|]. split; [by intros name w0|].
  split.
  - intros name old_roles new_roles w0. unfold update_user_roles, bind. cbn.
    by destruct (bool_decide _ && bool_decide _).
  - intros Hdry.
    destruct (reconciliation_cycle_dry_run env cfg Hdry w) as ((es' & T' & F') & D' & L').
    rewrite T', drop_app_length. done.
Qed.

Lemma C8_dry_run_purity_witness :
  Forall dry_run_event
    (events_of (reconciliation_cycle
                  (quiet_env (YamlMapping (Some [entry "alice" "app" ["rw"]]))
                     {[ "user-alice-secret" := "p1" ]})
                  (default_config true)) world_alice_missing)
  /\ db (reconciliation_cycle
           (quiet_env (YamlMapping (Some [entry "alice" "app" ["rw"]]))
              {[ "user-alice-secret" := "p1" ]})
           (default_config true) world_alice_missing).2 = db world_alice_missing
  /\ files (reconciliation_cycle
              (quiet_env (YamlMapping (Some [entry "alice" "app" ["rw"]]))
                 {[ "user-alice-secret" := "p1" ]})
              (default_config true) world_alice_missing).2 = files world_alice_missing.
Proof.
  pose proof (C8_dry_run_purity
                (quiet_env (YamlMapping (Some [entry "alice" "app" ["rw"]]))
                   {[ "user-alice-secret" := "p1" ]})
                (default_config true) world_alice_missing) as H.
  cbv zeta in H.
  destruct H as (_ & _ & _ & _ & _ & _ & _ & _ & _ & H).
  exact (H eq_refl).
Defined.

(** A dry run that has something to do: one role and one user to create,
    one user to drop. *)
Example dry_run_counts :
  let env := quiet_env (YamlMapping (Some [entry "alice" "app" ["rw"]]))
               {[ "user-alice-secret" := "p1" ]} in
  let w' := (reconcile_users env (default_config true) true world_alice_missing).2 in
  (roles_created (stats w'), users_created (stats w'), users_deleted (stats w')) = (1, 1, 1)
  /\ files w' = files world_alice_missing.
Proof. split; vm_compute; reflexivity. Qed.

(** * Drift *)

Lemma bind_ok {A B} (m : M A) (k : A -> M B) w a w' :
  m w = (Ok a, w') -> bind m k w = k a w'.
Proof. intros E. unfold bind. by rewrite E. Qed.

Lemma never_raises_catch_all {A} (m : M A) h :
  (forall e, never_raises (h e)) -> never_raises (catch Exception m h).
Proof.
  intros H w. unfold catch. destruct (m w) as [[a|e] w1]; simpl; [eauto|].
  apply H.
Qed.

Lemma never_raises_update_stats f : never_raises (update_stats f).
Proof. intros w. by exists tt. Qed.

Lemma never_raises_ret {A} (a : A) : never_raises (ret a).
Proof. intros w. by exists a. Qed.

Lemma never_raises_for_each {A} (l : list A) body :
  (forall x, never_raises (body x)) -> never_raises (for_each l body).
Proof.
  intros H. induction l as [|x l IH]; intros w; simpl.
  - by exists tt.
  - unfold bind. destruct (H x w) as [[] E].
    destruct (body x w) as [r w1]; simpl in *; subst. apply IH.
Qed.

Lemma never_raises_run (m : M unit) w : never_raises m -> m w = (Ok tt, (m w).2).
Proof. intros H. destruct (H w) as [[] E]. destruct (m w); simpl in *. by subst. Qed.

Ltac keeps_leaf := unfold keeps; reflexivity.

Lemma fetch_states_keeps_drift env cfg : steps (keeps drift_of) (fetch_states env cfg).
Proof. unfold_controller. steps_all; keeps_leaf. Qed.

Lemma reconcile_roles_run env d dry w ex w2 :
  fetch_existing_roles env w = (Ok ex, w2) ->
  exists w3, reconcile_roles env d dry w = (Ok tt, w3) /\ drift_of w3 = drift_of w.
Proof.
  intros E. unfold reconcile_roles. rewrite (bind_ok _ _ _ _ _ E).
  eexists. split.
  - apply never_raises_run, never_raises_for_each. intros role.
    apply never_raises_catch_all. intros _. apply never_raises_update_stats.
  - assert (K : steps (keeps drift_of) (reconcile_roles env d dry)).
    { unfold_controller. steps_all; keeps_leaf. }
    specialize (K w). unfold reconcile_roles in K.
    rewrite (bind_ok _ _ _ _ _ E) in K. exact K.
Qed.

Lemma reconcile_from_drift env cfg d p a dry w ex w2 :
  drift_of w = 0 ->
  fetch_existing_roles env w = (Ok ex, w2) ->
  drift_of (reconcile_from env cfg d p a dry w).2 = size (dom d ∖ a) + size (a ∖ dom d).
Proof.
  intros Hz E.
  destruct (reconcile_roles_run env d dry w ex w2 E) as (w3 & E3 & D3).
  unfold reconcile_from, detect_drift. rewrite (bind_ok _ _ _ _ _ E3).
  set (n := size (dom d ∖ a) + size (a ∖ dom d)).
  match goal with
  | |- drift_of (bind _ ?k _).2 = _ =>
      assert (K : steps (keeps drift_of) (k tt))
  end.
  { unfold_controller. steps_all; keeps_leaf. }
  destruct (0 <? n) eqn:Hn.
  - rewrite (bind_ok _ _ w3 tt (set_stats (set_drift_detected n (stats w3)) w3) eq_refl).
    rewrite K. reflexivity.
  - rewrite (bind_ok _ _ w3 tt w3 eq_refl). rewrite K.
    apply Nat.ltb_ge in Hn. rewrite D3, Hz. lia.
Qed.

Lemma reconcile_users_drift env cfg dry w d p a w1 ex w2 :
  drift_of w = 0 ->
  fetch_states env cfg w = (Ok (Some (d, p, a)), w1) ->
  fetch_existing_roles env w1 = (Ok ex, w2) ->
  drift_of (reconcile_users env cfg dry w).2 = size (dom d ∖ a) + size (a ∖ dom d).
Proof.
  intros Hz E1 E2. unfold reconcile_users. rewrite (bind_ok _ _ _ _ _ E1).
  eapply reconcile_from_drift; [|exact E2].
  pose proof (fetch_states_keeps_drift env cfg w) as K. rewrite E1 in K.
  simpl in K. unfold keeps in K. congruence.
Qed.

Lemma reconciliation_cycle_drift env cfg w :
  drift_of (reconciliation_cycle env cfg w).2
  = drift_of (reconcile_users env cfg (DRY_RUN cfg) (set_stats empty_stats w)).2.
Proof.
  unfold reconciliation_cycle.
  rewrite (bind_ok _ _ w tt (set_stats empty_stats w) eq_refl).
  unfold catch, bind.
  destruct (reconcile_users env cfg (DRY_RUN cfg) (set_stats empty_stats w)) as [[[]|e] w1];
    reflexivity.
Qed.

(** C7, as the code has it.  In a cycle that has fetched the desired users
    [d] and the database users [a] and has then read the group roles, the
    drift count reported in the statistics is the number of users to
    create plus the number of all database users that are not desired;
    the previous state plays no part in it. *)
Theorem C7_drift_counts_all_undesired env cfg w d p a w1 ex w2 :
  fetch_states env cfg (set_stats empty_stats w) = (Ok (Some (d, p, a)), w1) ->
  fetch_existing_roles env w1 = (Ok ex, w2) ->
  drift_detected (stats (reconciliation_cycle env cfg w).2)
  = size (dom d ∖ a) + size (a ∖ dom d).
Proof.
  intros E1 E2. fold (drift_of (reconciliation_cycle env cfg w).2).
  rewrite reconciliation_cycle_drift.
  by eapply reconcile_users_drift.
Qed.

Lemma C7_drift_counts_all_undesired_witness :
  drift_detected
    (stats (reconciliation_cycle (quiet_env (YamlMapping (Some [])) ∅)
              (default_config false) world_bob_charlie).2)
  = size ((∅ : gset string) ∖ {[ "bob"; "charlie" ]})
    + size (({[ "bob"; "charlie" ]} : gset string) ∖ ∅).
Proof.
  pose proof (C7_drift_counts_all_undesired (quiet_env (YamlMapping (Some [])) ∅)
                (default_config false) world_bob_charlie) as H.
  etransitivity.
  - eapply H; vm_compute; reflexivity.
  - vm_compute. reflexivity.
Defined.

(** C7 as stated fails: with nothing desired, an empty previous state and
    the unmanaged user [charlie] in the database, the cycle reports a drift
    of 1, while creations plus deletions restricted to the previous state
    are 0. *)
Lemma C7_counterexample :
  exists d p a w1,
    fetch_states (quiet_env (YamlMapping (Some [])) ∅) (default_config false)
      (set_stats empty_stats world_charlie) = (Ok (Some (d, p, a)), w1)
    /\ drift_detected
         (stats (reconciliation_cycle (quiet_env (YamlMapping (Some [])) ∅)
                   (default_config false) world_charlie).2) = 1
    /\ size (dom d ∖ a) + size ((a ∖ dom d) ∩ dom p) = 0.
Proof.
  eexists _, _, _, _. split; [vm_compute; reflexivity|].
  split; vm_compute; reflexivity.
Qed.

(** * A malformed desired state *)

Lemma collect_users_missing cfg l :
  Exists (fun user_data => ud_username user_data = None) l ->
  forall acc, collect_users cfg l acc = None.
Proof.
  induction 1 as [ud l H|ud l H IH]; intros acc; simpl.
  - by rewrite H.
  - destruct (ud_username ud); [apply IH | done].
Qed.

Lemma parse_malformed env cfg y :
  malformed env y -> parse_desired_users env cfg y = Ok ∅.
Proof.
  intros H. unfold parse_desired_users.
  destruct (is_empty_string y); [done|].
  destruct H as [-> | (users & -> & Hex)]; [done|].
  simpl. by rewrite (collect_users_missing cfg users Hex).
Qed.

Ltac mono_steps := unfold mono; unfold_controller; steps_all; trace_leaf; exact I.

Lemma events_of_bind_r {A B} (m : M A) (k : A -> M B) w a w1 e :
  steps mono m -> steps mono (k a) -> m w = (Ok a, w1) ->
  In e (events_of (k a) w1) -> In e (events_of (bind m k) w).
Proof.
  intros Hm Hk E. unfold events_of. rewrite (bind_ok _ _ _ _ _ E).
  destruct (Hm w) as (es1 & E1 & _). rewrite E in E1. simpl in E1.
  destruct (Hk w1) as (es2 & E2 & _).
  rewrite E2, drop_app_length, E1, <- app_assoc, drop_app_length.
  intros Hin. apply in_or_app. by right.
Qed.

Lemma events_of_bind_l {A B} (m : M A) (k : A -> M B) w e :
  steps mono m -> (forall a, steps mono (k a)) ->
  In e (events_of m w) -> In e (events_of (bind m k) w).
Proof.
  intros Hm Hk. unfold events_of, bind.
  destruct (Hm w) as (es1 & E1 & _).
  destruct (m w) as [[a|x] w1]; simpl in *; [|done].
  destruct (Hk a w1) as (es2 & E2 & _).
  rewrite E2, E1, <- app_assoc, !drop_app_length.
  intros Hin. apply in_or_app. by left.
Qed.

Lemma events_of_catch {A} c (m : M A) h w e :
  steps mono m -> (forall x, steps mono (h x)) ->
  In e (events_of m w) -> In e (events_of (catch c m h) w).
Proof.
  intros Hm Hh. unfold events_of, catch.
  destruct (Hm w) as (es1 & E1 & _).
  destruct (m w) as [[a|x] w1]; simpl in *; [done|].
  destruct (c x); [|done].
  destruct (Hh x w1) as (es2 & E2 & _).
  rewrite E2, E1, <- app_assoc, !drop_app_length.
  intros Hin. apply in_or_app. by left.
Qed.

Lemma events_of_emit e w : In e (events_of (emit e) w).
Proof. unfold events_of. cbn. rewrite drop_app_length. by left. Qed.

(** A loop whose bodies never raise reaches every element. *)
Lemma for_each_reaches {A} (l : list A) (body : A -> M unit) x e :
  (forall y, never_raises (body y)) ->
  (forall y, steps mono (body y)) ->
  x ∈ l ->
  (forall w, In e (events_of (body x) w)) ->
  forall w, In e (events_of (for_each l body) w).
Proof.
  intros Hn Hm Hx He. induction Hx as [x l|x y l Hx IH]; intros w; simpl.
  - apply events_of_bind_l; auto.
    intros _. apply steps_for_each; [apply _ | auto].
  - eapply events_of_bind_r; auto.
    + apply steps_for_each; [apply _ | auto].
    + apply never_raises_run, Hn.
Qed.

Lemma handle_deletions_never_raises env cfg prev del dry :
  never_raises (handle_deletions env cfg prev del dry).
Proof.
  apply never_raises_for_each. intros name.
  destruct (bool_decide _); [|apply never_raises_ret].
  apply never_raises_catch_all. intros _. apply never_raises_update_stats.
Qed.

Lemma handle_deletions_reaches env cfg prev del dry u w :
  u ∈ del -> u ∈ dom prev ->
  In (EvCall (drop_user_call u dry)) (events_of (handle_deletions env cfg prev del dry) w).
Proof.
  intros Hd Hp. unfold handle_deletions.
  apply for_each_reaches with (x := u).
  - intros name. destruct (bool_decide _); [|apply never_raises_ret].
    apply never_raises_catch_all. intros _. apply never_raises_update_stats.
  - intros name. mono_steps.
  - by apply elem_of_elements.
  - intros w0. rewrite bool_decide_eq_true_2 by done.
    apply events_of_catch; [mono_steps | intros; mono_steps |].
    apply events_of_bind_l; [mono_steps | intros; mono_steps |].
    unfold drop_user.
    apply events_of_bind_l; [mono_steps | intros; mono_steps |].
    apply events_of_emit.
Qed.

Lemma fetch_states_malformed env cfg w y w1 prev w2 live w3 :
  fetch_configmap env cfg (CONFIGMAP_NAME cfg) (NAMESPACE cfg) w = (Ok (Some y), w1) ->
  malformed env y ->
  load_state env cfg w1 = (Ok prev, w2) ->
  fetch_existing_users env w2 = (Ok live, w3) ->
  fetch_states env cfg w = (Ok (Some (∅, prev, live)), w3).
Proof.
  intros E1 Hy E2 E3. unfold fetch_states.
  rewrite (bind_ok _ _ _ _ _ E1), (parse_malformed env cfg y Hy).
  rewrite (bind_ok (lift (Ok ∅)) _ w1 ∅ w1 eq_refl), (bind_ok _ _ _ _ _ E2).
  unfold catch. by rewrite (bind_ok _ _ _ _ _ E3).
Qed.

Lemma reconcile_roles_nothing_desired env dry w existing w' :
  fetch_existing_roles env w = (Ok existing, w') ->
  reconcile_roles env ∅ dry w = (Ok tt, w').
Proof.
  intros E. unfold reconcile_roles. rewrite (bind_ok _ _ _ _ _ E).
  unfold all_desired_roles. rewrite map_to_list_empty. simpl.
  by rewrite empty_difference_L, elements_empty.
Qed.

Lemma save_state_ok env cfg users w :
  io_fault env (clock w) = IoOk ->
  exists w', save_state env cfg users w = (Ok tt, w')
             /\ files w' !! STATE_FILE cfg = Some (dumps (state_to_json users))
             /\ clock w' = S (clock w).
Proof.
  intros Hio. unfold save_state, bind, emit, modify, tick. cbn. rewrite Hio. cbn.
  eexists. split; [done|]. cbn. split; [apply lookup_insert_eq | done].
Qed.

Lemma drift_update_never_raises n :
  never_raises (if 0 <? n then update_stats (set_drift_detected n) else ret tt).
Proof. destruct (0 <? n); [apply never_raises_update_stats | apply never_raises_ret]. Qed.

(** ** Runs in which nothing fails *)

Lemma events_of_trace {A} (m : M A) w es :
  trace (m w).2 = trace w ++ es -> events_of m w = es.
Proof. intros E. unfold events_of. by rewrite E, drop_app_length. Qed.

Lemma clean_events m es w : clean m es -> events_of m w = es.
Proof. intros H. destruct (H w) as (w' & E & T). apply events_of_trace. by rewrite E. Qed.

Lemma clean_emit e : clean (emit e) [e].
Proof. intros w. by eexists. Qed.

Lemma clean_update_stats f : clean (update_stats f) [].
Proof. intros w. eexists. split; [done|]. cbn. by rewrite app_nil_r. Qed.

Lemma clean_bind (m : M unit) (k : unit -> M unit) es1 es2 :
  clean m es1 -> clean (k tt) es2 -> clean (bind m k) (es1 ++ es2).
Proof.
  intros Hm Hk w. destruct (Hm w) as (w1 & E1 & T1). destruct (Hk w1) as (w2 & E2 & T2).
  exists w2. unfold bind. rewrite E1, E2. split; [done|]. by rewrite T2, T1, app_assoc.
Qed.

Lemma clean_cursor_execute env q params :
  obliging env -> clean (cursor_execute env q params) [EvExecute q params].
Proof.
  intros [Hf Hx] w. unfold cursor_execute, bind, emit, modify, tick, get, raise. cbn.
  rewrite Hf. cbn. destruct (Hx (db w) q params) as [d ->]. by eexists.
Qed.

Lemma clean_transaction env body es :
  obliging env -> clean body es -> clean (transaction env body) (es ++ [EvCommit]).
Proof.
  intros [Hf Hx] Hb w.
  unfold transaction, get_connection, commit, bind, catch, get, tick, emit, modify, raise,
    ret. cbn. rewrite Hf. cbn.
  destruct (Hb (set_clock (S (clock w)) w)) as (w1 & E & T). rewrite E. cbn.
  rewrite Hf. eexists. split; [done|]. cbn. by rewrite T, app_assoc.
Qed.

Lemma clean_drop_user env cfg name :
  obliging env -> clean (drop_user env cfg name false) (drop_user_events cfg name).
Proof.
  intros Hob. unfold drop_user, drop_user_events, drop_user_statements.
  apply (clean_bind _ _ [_]); [apply clean_emit|].
  apply clean_transaction; [done|].
  apply (clean_bind _ _ [_]); [by apply clean_cursor_execute|].
  apply (clean_bind _ _ [_]); [by apply clean_cursor_execute|].
  apply (clean_bind _ _ [_]); [by apply clean_cursor_execute|].
  by apply clean_cursor_execute.
Qed.

Lemma clean_steps P (m : M unit) es : clean m es -> Forall P es -> steps (trace_ext P) m.
Proof. intros H F w. destruct (H w) as (w' & E & T). rewrite E. by exists es. Qed.

(** ** A stretch of events within a longer run *)

Lemma occurs_refl block : occurs block block.
Proof. exists [], []. by rewrite app_nil_r. Qed.

Lemma occurs_app block l1 es l2 : occurs block es -> occurs block (l1 ++ es ++ l2).
Proof.
  intros (b & a & ->). exists (l1 ++ b), (a ++ l2). by rewrite <- !app_assoc.
Qed.

Lemma occurs_bind_r {A B} (m : M A) (k : A -> M B) w a w1 block :
  steps mono m -> steps mono (k a) -> m w = (Ok a, w1) ->
  occurs block (events_of (k a) w1) -> occurs block (events_of (bind m k) w).
Proof.
  intros Hm Hk E. unfold events_of. rewrite (bind_ok _ _ _ _ _ E).
  destruct (Hm w) as (es1 & E1 & _). rewrite E in E1. simpl in E1.
  destruct (Hk w1) as (es2 & E2 & _).
  rewrite E2, drop_app_length, E1, <- app_assoc, drop_app_length.
  intros H. apply (occurs_app block es1 es2 []) in H. by rewrite app_nil_r in H.
Qed.

Lemma occurs_bind_l {A B} (m : M A) (k : A -> M B) w block :
  steps mono m -> (forall a, steps mono (k a)) ->
  occurs block (events_of m w) -> occurs block (events_of (bind m k) w).
Proof.
  intros Hm Hk. unfold events_of, bind.
  destruct (Hm w) as (es1 & E1 & _).
  destruct (m w) as [[a|x] w1]; simpl in *; [|done].
  destruct (Hk a w1) as (es2 & E2 & _).
  rewrite E2, E1, <- app_assoc, !drop_app_length.
  intros H. by apply (occurs_app block [] es1 es2) in H.
Qed.

Lemma for_each_occurs {A} (l : list A) (body : A -> M unit) x block :
  (forall y, never_raises (body y)) ->
  (forall y, steps mono (body y)) ->
  x ∈ l ->
  (forall w, occurs block (events_of (body x) w)) ->
  forall w, occurs block (events_of (for_each l body) w).
Proof.
  intros Hn Hm Hx He. induction Hx as [x l|x y l Hx IH]; intros w; simpl.
  - apply occurs_bind_l; [apply Hm | | apply He].
    intros _. apply steps_for_each; [apply _ | auto].
  - apply (occurs_bind_r _ _ w tt (body y w).2); [apply Hm | | | apply IH; exact He].
    + apply steps_for_each; [apply _ | auto].
    + apply never_raises_run, Hn.
Qed.

Lemma deletion_clean env cfg name :
  obliging env ->
  clean (catch Exception
           (bind (drop_user env cfg name false) (fun _ => update_stats incr_users_deleted))
           (fun _ => update_stats incr_errors))
    (drop_user_events cfg name).
Proof.
  intros Hob w.
  destruct (clean_bind _ (fun _ => update_stats incr_users_deleted) _ _
              (clean_drop_user env cfg name Hob) (clean_update_stats _) w)
    as (w' & E & T).
  exists w'. unfold catch. rewrite E. split; [done|]. by rewrite app_nil_r in T.
Qed.

Lemma handle_deletions_occurs env cfg prev del u w :
  obliging env -> u ∈ del -> u ∈ dom prev ->
  occurs (drop_user_events cfg u) (events_of (handle_deletions env cfg prev del false) w).
Proof.
  intros Hob Hd Hp. unfold handle_deletions.
  apply for_each_occurs with (x := u).
  - intros name. destruct (bool_decide _); [|apply never_raises_ret].
    apply never_raises_catch_all. intros _. apply never_raises_update_stats.
  - intros name. mono_steps.
  - by apply elem_of_elements.
  - intros w0. rewrite bool_decide_eq_true_2 by done.
    rewrite (clean_events _ _ w0 (deletion_clean env cfg u Hob)). apply occurs_refl.
Qed.

Lemma handle_deletions_no_rollback env cfg prev del :
  obliging env ->
  steps (trace_ext no_rollback) (handle_deletions env cfg prev del false).
Proof.
  intros Hob. unfold handle_deletions. apply steps_for_each; [apply _|].
  intros name _. destruct (bool_decide _); [|apply steps_ret; apply _].
  apply (clean_steps _ _ _ (deletion_clean env cfg name Hob)).
  unfold drop_user_events, drop_user_statements.
  repeat constructor; discriminate.
Qed.

Lemma forall_bind_r {A B} P (m : M A) (k : A -> M B) w a w1 :
  steps (trace_ext P) m -> steps (trace_ext P) (k a) -> m w = (Ok a, w1) ->
  Forall P (events_of (bind m k) w).
Proof.
  intros Hm Hk E. unfold events_of. rewrite (bind_ok _ _ _ _ _ E).
  destruct (Hm w) as (es1 & E1 & F1). rewrite E in E1. simpl in E1.
  destruct (Hk w1) as (es2 & E2 & F2).
  rewrite E2, E1, <- app_assoc, drop_app_length. by apply Forall_app.
Qed.

Lemma reconcile_from_nothing_desired_no_rollback env cfg prev live :
  obliging env ->
  steps (trace_ext no_rollback) (reconcile_from env cfg ∅ prev live false).
Proof.
  intros Hob. unfold reconcile_from, detect_drift.
  rewrite dom_empty_L, empty_difference_L, intersection_empty_l_L, difference_empty_L.
  apply steps_bind; [apply _ | |intros _].
  { unfold_controller. steps_all; trace_leaf; discriminate. }
  apply steps_bind; [apply _ | |intros _].
  { steps_all; trace_leaf; discriminate. }
  apply steps_bind; [apply _ | by apply handle_deletions_no_rollback |intros _].
  unfold handle_creations, handle_updates. rewrite elements_empty. simpl for_each.
  unfold_controller. steps_all; trace_leaf; discriminate.
Qed.

(** C6.  When the ConfigMap is fetched but its text does not decode, or a
    user entry lacks [username], the desired state of the cycle is empty.
    Once the previous state is loaded and the database has answered the
    two catalog queries, every user of the database that is a key of the
    loaded previous state is handed to [drop_user] in that cycle.  Outside
    dry-run, on a database that takes every statement, each of these
    calls is followed at once by its four statements, DROP USER last, and
    by the commit, and nothing is rolled back in the cycle; and when the
    file can be written, the state file then holds the empty object. *)
Theorem C6_malformed_spec_drops_owned env cfg dry w y w1 prev w2 live w3 existing w4 :
  fetch_configmap env cfg (CONFIGMAP_NAME cfg) (NAMESPACE cfg) w = (Ok (Some y), w1) ->
  malformed env y ->
  load_state env cfg w1 = (Ok prev, w2) ->
  fetch_existing_users env w2 = (Ok live, w3) ->
  fetch_existing_roles env w3 = (Ok existing, w4) ->
  parse_desired_users env cfg y = Ok ∅
  /\ (forall u, u ∈ live -> u ∈ dom prev ->
        In (EvCall (drop_user_call u dry)) (events_of (reconcile_users env cfg dry) w))
  /\ (dry = false -> obliging env ->
      (forall u, u ∈ live -> u ∈ dom prev ->
         occurs (drop_user_events cfg u) (events_of (reconcile_users env cfg dry) w))
      /\ Forall no_rollback (events_of (reconcile_users env cfg dry) w))
  /\ (dry = false -> (forall t, io_fault env t = IoOk) ->
      files (reconcile_users env cfg dry w).2 !! STATE_FILE cfg = Some (dumps (JObject []))).
Proof.
  intros E1 Hy E2 Eu Er.
  pose proof (fetch_states_malformed env cfg w y w1 prev w2 live w3 E1 Hy E2 Eu) as E3.
  pose proof (reconcile_roles_nothing_desired env dry w3 existing w4 Er) as E4.
  split; [by apply parse_malformed|]. split; [|split].
  - intros u Hu Hp. unfold reconcile_users.
    apply (events_of_bind_r _ _ w (Some (∅, prev, live)) w3);
      [mono_steps | mono_steps | exact E3 |].
    unfold reconcile_from, detect_drift.
    apply (events_of_bind_r _ _ w3 tt w4); [mono_steps | mono_steps | exact E4 |].
    eapply events_of_bind_r;
      [mono_steps | mono_steps | apply never_raises_run, drift_update_never_raises |].
    apply events_of_bind_l; [mono_steps | intros; mono_steps |].
    apply handle_deletions_reaches; [|done].
    rewrite dom_empty_L. by rewrite difference_empty_L.
  - intros -> Hob. split.
    + intros u Hu Hp. unfold reconcile_users.
      apply (occurs_bind_r _ _ w (Some (∅, prev, live)) w3);
        [mono_steps | mono_steps | exact E3 |].
      unfold reconcile_from, detect_drift.
      apply (occurs_bind_r _ _ w3 tt w4); [mono_steps | mono_steps | exact E4 |].
      eapply occurs_bind_r;
        [mono_steps | mono_steps | apply never_raises_run, drift_update_never_raises |].
      apply occurs_bind_l; [mono_steps | intros; mono_steps |].
      apply handle_deletions_occurs; [done | | done].
      rewrite dom_empty_L. by rewrite difference_empty_L.
    + unfold reconcile_users.
      apply (forall_bind_r _ _ _ w (Some (∅, prev, live)) w3); [| | exact E3].
      * unfold_controller.
        repeat first [ steps_step | apply steps_fetch_configmap_from; [apply _ | intros ? ?] ];
          trace_leaf; discriminate.
      * by apply reconcile_from_nothing_desired_no_rollback.
  - intros -> Hio. unfold reconcile_users. rewrite (bind_ok _ _ _ _ _ E3).
    unfold reconcile_from, detect_drift. rewrite (bind_ok _ _ _ _ _ E4).
    rewrite (bind_ok _ _ _ _ _ (never_raises_run _ w4 (drift_update_never_raises _))).
    match goal with |- context [bind (handle_deletions ?e ?c ?p ?d ?r) _ ?w0] =>
      rewrite (bind_ok _ _ _ _ _
                 (never_raises_run _ w0 (handle_deletions_never_raises e c p d r)));
      set (w5 := (handle_deletions e c p d r w0).2)
    end.
    rewrite dom_empty_L, empty_difference_L, intersection_empty_l_L.
    unfold handle_creations, handle_updates. rewrite elements_empty. simpl for_each.
    rewrite (bind_ok (ret tt) _ w5 tt w5 eq_refl).
    rewrite (bind_ok (ret tt) _ w5 tt w5 eq_refl).
    destruct (save_state_ok env cfg ∅ w5 (Hio _)) as (w6 & E6 & F6 & _).
    cbn [negb]. rewrite (bind_ok _ _ _ _ _ E6).
    match goal with |- files (?m ?w0).2 !! _ = _ =>
      assert (K : steps (keeps files) m) end.
    { unfold_controller. steps_all; keeps_leaf. }
    rewrite K, F6. unfold state_to_json. by rewrite map_to_list_empty.
Qed.

Lemma C6_malformed_spec_drops_owned_witness :
  In (EvCall (drop_user_call "bob" false))
     (events_of (reconcile_users (quiet_env YamlInvalid ∅) (default_config false) false)
        world_bob_charlie)
  /\ occurs (drop_user_events (default_config false) "bob")
       (events_of (reconcile_users (quiet_env YamlInvalid ∅) (default_config false) false)
          world_bob_charlie)
  /\ Forall no_rollback
       (events_of (reconcile_users (quiet_env YamlInvalid ∅) (default_config false) false)
          world_bob_charlie)
  /\ files (reconcile_users (quiet_env YamlInvalid ∅) (default_config false) false
              world_bob_charlie).2 !! "/tmp/users_state.json"
     = Some (dumps (JObject [])).
Proof.
  pose (env := quiet_env YamlInvalid ∅).
  pose (cfg := default_config false).
  pose (w1 := (fetch_configmap env cfg (CONFIGMAP_NAME cfg) (NAMESPACE cfg)
                 world_bob_charlie).2).
  pose (w2 := (load_state env cfg w1).2).
  pose (w3 := (fetch_existing_users env w2).2).
  pose (w4 := (fetch_existing_roles env w3).2).
  destruct (C6_malformed_spec_drops_owned env cfg false world_bob_charlie "users: ..."
              w1 {[ "bob" := plain_user "bob" "app" [] ]} w2 {[ "bob"; "charlie" ]} w3
              ∅ w4) as (_ & Hd & Hs & Hf).
  - vm_compute. reflexivity.
  - left. reflexivity.
  - vm_compute. reflexivity.
  - vm_compute. reflexivity.
  - vm_compute. reflexivity.
  - assert (Hob : obliging env) by (split; [reflexivity | intros; eexists; reflexivity]).
    destruct (Hs eq_refl Hob) as [Ho Hr].
    split; [apply Hd; compute_done|].
    split; [apply Ho; compute_done|].
    split; [exact Hr|].
    apply Hf; [reflexivity | intros t; reflexivity].
Defined.

(** * Identifier quoting and the statements of [create_user] *)

Lemma append_cons c (a b : string) : String c a +:+ b = String c (a +:+ b).
Proof. reflexivity. Qed.

Lemma append_nil (b : string) : EmptyString +:+ b = b.
Proof. reflexivity. Qed.

Lemma append_assoc (a b c : string) : (a +:+ b) +:+ c = a +:+ (b +:+ c).
Proof.
  induction a as [|x a IH]; [done|].
  rewrite !append_cons. f_equal. exact IH.
Qed.

Lemma read_quoted_double_quotes x rest :
  starts_with_dquote rest = false ->
  read_quoted (double_quotes x +:+ String dquote rest) = Some (x, rest).
Proof.
  intros Hr. induction x as [|c x IH]; simpl.
  - destruct rest as [|c' rest']; [done|]. simpl in Hr. by rewrite Hr.
  - destruct (Ascii.eqb c dquote) eqn:Ec; simpl.
    + apply Ascii.eqb_eq in Ec. subst c. by rewrite IH.
    + by rewrite Ec, IH.
Qed.

(** What the quoter emits reads back as the very name it was given, and
    the text after it is untouched. *)
Lemma quote_ident_read x rest :
  starts_with_dquote rest = false ->
  read_ident (quote_ident x +:+ rest) = Some (x, rest).
Proof.
  intros Hr. unfold quote_ident, read_ident.
  rewrite append_cons, Ascii.eqb_refl, append_assoc, append_cons, append_nil.
  by apply read_quoted_double_quotes.
Qed.

Ltac eval_format :=
  repeat match goal with
    | |- context [format ?t ?args] =>
        let r := eval cbv [format format_from flush String.append app] in (format t args) in
        change (format t args) with r
    end.

Ltac fragments :=
  repeat match goal with |- Forall _ _ => constructor end;
  match goal with
  | |- fragment_from _ (SQL _) => first [ left; simpl; tauto | right ]
  | |- fragment_from _ (Identifier _) => unfold fragment_from, spec_identifier
  end.

Lemma create_user_statements env spec pw :
  steps (trace_ext (statement_from spec)) (create_user env spec pw false).
Proof.
  unfold_controller. unfold has_privileges.
  destruct (privileges spec) as [m|] eqn:Hm; cbn [negb default].
  2: { steps_all; trace_leaf; try (intros q params [=]; fail).
       all: intros q params [= <- <-]; eval_format.
       all: (split; [|intros kw [=]]).
       all: fragments; auto.
       right. right. left. by apply list_elem_of_In. }
  steps_all; trace_leaf; try (intros q params [=]; fail).
  all: intros q params [= <- <-]; eval_format.
  all: repeat match goal with
         | H : _ ∈ map_to_list _ |- _ => apply elem_of_map_to_list' in H
         | H : _ ∈ _ |- _ => apply list_elem_of_In in H
         end.
  all: split; [|try (intros kw [=]; fail)].
  all: try (fragments; auto; fail).
  - assert (Hp : spec_privilege spec x0) by (exists m, x.1, x.2; auto).
    assert (Hi : spec_identifier spec x.1) by (do 3 right; exists m, x.2; auto).
    repeat match goal with |- Forall _ _ => constructor end;
      try (left; simpl; tauto); simpl; unfold spec_identifier; auto.
  - intros kw [= <-]. exists m, x.1, x.2. auto.
Qed.

Lemma length_append (a b : string) :
  String.length (a +:+ b) = String.length a + String.length b.
Proof.
  induction a as [|c a IH]; [done|].
  rewrite append_cons. simpl. by rewrite IH.
Qed.

Lemma length_within allow s :
  In s allow -> String.length s <= String.length (fold_right String.append EmptyString allow).
Proof.
  induction allow as [|s' allow IH]; simpl; [done|].
  rewrite length_append. intros [->|H]; [lia|]. specialize (IH H). lia.
Qed.

Lemma beyond_fresh allow : ~ In (beyond allow) allow.
Proof.
  intros H. apply length_within in H. unfold beyond in H. simpl in H. lia.
Qed.

(** C1, as the code has it.  For a record with a non-empty privileges
    mapping, every statement [create_user] executes is made of pieces of
    the fixed templates, of identifiers of the record (user, database,
    roles, privilege objects), each passed through the quoter, and of the
    privilege keywords, which are the strings listed in the record, taken
    as they stand.  A quoted identifier reads back as the name it was
    given, whatever characters the name holds. *)
Theorem C1_create_user_statements env spec pw w q params :
  has_privileges spec = true ->
  In (EvExecute q params) (events_of (create_user env spec pw false) w) ->
  Forall (fragment_from spec) q
  /\ (forall kw, privilege_keyword q = Some kw -> spec_privilege spec kw)
  /\ (forall x rest,
        In (Identifier x) q -> starts_with_dquote rest = false ->
        read_ident (as_string1 (Identifier x) +:+ rest) = Some (x, rest)).
Proof.
  intros _ Hin.
  pose proof (trace_ext_events _ _ w (create_user_statements env spec pw)) as F.
  rewrite Forall_forall in F. apply list_elem_of_In, F in Hin.
  destruct (Hin q params eq_refl) as [H1 H2].
  split; [done|]. split; [done|].
  intros x rest _ Hr. by apply quote_ident_read.
Qed.

Lemma C1_create_user_statements_witness :
  Forall (fragment_from (mallory "USAGE"))
    [SQL "GRANT "; SQL "USAGE"; SQL " ON "; Identifier "public"; SQL " TO ";
     Identifier "mallory"; SQL ";"]
  /\ spec_privilege (mallory "USAGE") "USAGE".
Proof.
  destruct (C1_create_user_statements (quiet_env YamlInvalid ∅) (mallory "USAGE") "pw"
              empty_world
              [SQL "GRANT "; SQL "USAGE"; SQL " ON "; Identifier "public"; SQL " TO ";
               Identifier "mallory"; SQL ";"] []) as (H1 & H2 & _).
  - vm_compute. reflexivity.
  - vm_compute. repeat first [left; reflexivity | right].
  - split; [exact H1 | by apply H2].
Defined.

(** C1 as stated fails: no allow-list bounds the privilege keywords.
    Whatever the list, a record naming a keyword outside it has that
    keyword put into its GRANT statement. *)
Lemma C1_counterexample : ~ exists allow, keywords_within allow.
Proof.
  intros [allow H].
  apply (beyond_fresh allow).
  apply (H (quiet_env YamlInvalid ∅) (mallory (beyond allow)) "pw" empty_world
           [SQL "GRANT "; SQL (beyond allow); SQL " ON "; Identifier "public"; SQL " TO ";
            Identifier "mallory"; SQL ";"] []).
  - reflexivity.
  - vm_compute. repeat first [left; reflexivity | right].
  - reflexivity.
Qed.

(** The text sent for a record whose keyword carries a statement of its
    own. *)
Example injected_statement :
  as_string (format "GRANT {} ON {} TO {};"
               [SQL "ALL ON SCHEMA secret TO PUBLIC; --"; Identifier "public";
                Identifier "mallory"])
  = "GRANT ALL ON SCHEMA secret TO PUBLIC; -- ON " +:+ quote_ident "public" +:+ " TO "
    +:+ quote_ident "mallory" +:+ ";".
Proof. reflexivity. Qed.

(** * System roles and group roles *)

(** What [fetch_existing_users] selects: every role whose name is not a
    system role, whether it can log in or not. *)
Lemma live_users_spec d name :
  name ∈ live_users d <->
  exists r, r ∈ pg_roles d /\ rolname r = name /\ name ∉ SYSTEM_ROLES.
Proof.
  unfold live_users, run_query, system_roles_list.
  rewrite elem_of_list_to_set, list_elem_of_fmap. split.
  - intros (r & -> & Hr). apply list_elem_of_filter in Hr as [Hc Hr].
    exists r. split; [done|]. split; [done|].
    simpl in Hc. apply negb_true_iff, bool_decide_eq_false in Hc.
    by rewrite elem_of_elements in Hc.
  - intros (r & Hr & <- & Hn). exists r. split; [done|].
    apply list_elem_of_filter. split; [|done].
    simpl. apply negb_true_iff, bool_decide_eq_false.
    by rewrite elem_of_elements.
Qed.

Lemma live_groups_spec d name :
  name ∈ live_groups d <->
  exists r, r ∈ pg_roles d /\ rolname r = name /\ (name ∉ SYSTEM_ROLES)
            /\ rolcanlogin r = false.
Proof.
  unfold live_groups, run_query, system_roles_list.
  rewrite elem_of_list_to_set, list_elem_of_fmap. split.
  - intros (r & -> & Hr). apply list_elem_of_filter in Hr as [Hc Hr].
    exists r. split; [done|]. split; [done|].
    simpl in Hc. apply andb_true_iff in Hc as [Hc1 Hc2].
    apply negb_true_iff, bool_decide_eq_false in Hc1.
    apply negb_true_iff in Hc2.
    by rewrite elem_of_elements in Hc1.
  - intros (r & Hr & <- & Hn & Hl). exists r. split; [done|].
    apply list_elem_of_filter. split; [|done].
    simpl. apply andb_true_iff. split.
    + apply negb_true_iff, bool_decide_eq_false. by rewrite elem_of_elements.
    + by apply negb_true_iff.
Qed.

(** On a database that answers, the two catalog reads return these sets. *)
Lemma fetch_existing_users_run env w :
  (forall t, db_fault env t = false) ->
  exists w', fetch_existing_users env w = (Ok (live_users (db w)), w')
             /\ db w' = db w /\ files w' = files w.
Proof.
  intros H. unfold fetch_existing_users, get_connection, cursor_select, bind, emit,
    modify, tick, get, ret. cbn. rewrite !H. cbn. eexists. by repeat split.
Qed.

Lemma fetch_existing_roles_run env w :
  (forall t, db_fault env t = false) ->
  exists w', fetch_existing_roles env w = (Ok (live_groups (db w)), w')
             /\ db w' = db w /\ files w' = files w.
Proof.
  intros H. unfold fetch_existing_roles, get_connection, cursor_select, bind, emit,
    modify, tick, get, ret. cbn. rewrite !H. cbn. eexists. by repeat split.
Qed.

(** C4, the code at a database with a group role: [fetch_existing_users]
    returns the group role [read_only], which cannot log in, next to the
    user [alice]. *)
Theorem C4_group_role_listed_as_user :
  (fetch_existing_users (quiet_env YamlInvalid ∅) world_with_group).1
  = Ok ({[ "alice"; "read_only" ]} : gset string)
  /\ In (group_role "read_only") (pg_roles (db world_with_group)).
Proof. split; [vm_compute; reflexivity | simpl; tauto]. Qed.

(** C2, the code at a desired state that names system roles: the cycle
    executes CREATE ROLE for [pg_monitor], CREATE USER for [postgres] and
    the GRANT between the two. *)
Theorem C2_system_roles_get_ddl :
  let es := events_of (reconciliation_cycle env_system_names (default_config false))
              world_system_only in
  "postgres" ∈ SYSTEM_ROLES /\ "pg_monitor" ∈ SYSTEM_ROLES
  /\ In (EvExecute [SQL "CREATE ROLE "; Identifier "pg_monitor"; SQL " NOLOGIN;"] []) es
  /\ In (EvExecute [SQL "CREATE USER "; Identifier "postgres"; SQL " WITH PASSWORD %s;"]
           ["hunter2"]) es
  /\ In (EvExecute [SQL "GRANT "; Identifier "pg_monitor"; SQL " TO ";
                    Identifier "postgres"; SQL ";"] []) es.
Proof.
  cbv zeta. split; [compute_done|]. split; [compute_done|].
  vm_compute. split; [|split]; repeat first [left; reflexivity | right].
Qed.

(** * The state file: encoding and decoding *)

Lemma lex_escape c acc rest :
  lex (escape c ++ rest) (Some acc) = lex rest (Some (c :: acc)).
Proof.
  destruct c as [[] [] [] [] [] [] [] []]; reflexivity.
Qed.

Lemma lex_string_body l acc rest :
  lex (flat_map escape l ++ dquote :: rest) (Some acc)
  = cons (str_token (rev l ++ acc)) <$> lex rest None.
Proof.
  revert acc. induction l as [|c l IH]; intros acc.
  - reflexivity.
  - simpl flat_map. rewrite <- app_assoc, lex_escape, IH.
    simpl rev. by rewrite <- app_assoc.
Qed.

Lemma lex_encode_string s rest :
  lex (encode_string s ++ rest) None = cons (TStr s) <$> lex rest None.
Proof.
  unfold encode_string.
  change (lex ((dquote :: flat_map escape (list_ascii_of_string s) ++ [dquote]) ++ rest) None)
    with (lex ((flat_map escape (list_ascii_of_string s) ++ [dquote]) ++ rest) (Some [])).
  rewrite <- app_assoc. simpl app. rewrite lex_string_body.
  unfold str_token. rewrite app_nil_r, rev_involutive.
  by rewrite string_of_list_ascii_of_string.
Qed.

Lemma lex_spaces n rest : lex (repeat space n ++ rest) None = lex rest None.
Proof. induction n as [|n IH]; [done | exact IH]. Qed.

Lemma lex_newline_indent n rest : lex (newline_indent n ++ rest) None = lex rest None.
Proof. unfold newline_indent. simpl app. apply (lex_spaces (2 * n)). Qed.

Lemma encode_array_cons level x xs :
  encode level (JArray (x :: xs))
  = "["%char :: newline_indent (S level) ++ encode (S level) x ++ encode_elems level xs.
Proof.
  reflexivity.
Qed.

Lemma encode_object_cons level k x xs :
  encode level (JObject ((k, x) :: xs))
  = "{"%char :: newline_indent (S level) ++ encode_string k ++ chars ": " ++
    encode (S level) x ++ encode_members level xs.
Proof.
  cbn [encode]. do 5 f_equal. unfold encode_members.
  induction xs as [|[k' y] xs IH]; [done|].
  cbn [fold_right fst snd]. by rewrite <- IH.
Qed.

Lemma tokens_array_cons x xs :
  tokens (JArray (x :: xs)) = TLBracket :: tokens x ++ tokens_elems xs.
Proof.
  reflexivity.
Qed.

Lemma tokens_object_cons k x xs :
  tokens (JObject ((k, x) :: xs))
  = TLBrace :: TStr k :: TColon :: tokens x ++ tokens_members xs.
Proof.
  cbn [tokens]. do 4 f_equal. unfold tokens_members.
  induction xs as [|[k' y] xs IH]; [done|].
  cbn [fold_right fst snd]. by rewrite <- IH.
Qed.

Lemma value_ind' (P : value -> Prop) :
  P JNull -> (forall b, P (JBool b)) -> (forall s, P (JString s)) ->
  (forall l, Forall P l -> P (JArray l)) ->
  (forall l, Forall (fun kv => P kv.2) l -> P (JObject l)) ->
  (forall literal, P (JNumber literal)) ->
  forall v, P v.
Proof.
  intros Hn Hb Hs Ha Ho Hl.
  fix IH 1. intros [| b | s | l | l | literal].
  - exact Hn.
  - apply Hb.
  - apply Hs.
  - apply Ha. induction l as [|x l IHl]; constructor; [apply IH | exact IHl].
  - apply Ho. induction l as [|[k x] l IHl]; constructor; [apply IH | exact IHl].
  - apply Hl.
Qed.

Lemma plain_array l : plain (JArray l) <-> Forall plain l.
Proof.
  induction l as [|x l IH]; [by split|].
  rewrite Forall_cons, <- IH. reflexivity.
Qed.

Lemma plain_object l : plain (JObject l) <-> Forall (fun kv => plain kv.2) l.
Proof.
  induction l as [|[k x] l IH]; [by split|].
  rewrite Forall_cons, <- IH. reflexivity.
Qed.

Lemma Forall_plain {A} (f : A -> value) (Q : value -> Prop) l :
  Forall (fun a => plain (f a) -> Q (f a)) l -> Forall (fun a => plain (f a)) l ->
  Forall (fun a => Q (f a)) l.
Proof.
  induction 1 as [|a l Ha _ IH]; intros Hp; [constructor|].
  apply Forall_cons in Hp as [Hp1 Hp2]. constructor; auto.
Qed.

Lemma lex_lbracket rest : lex ("["%char :: rest) None = cons TLBracket <$> lex rest None.
Proof. reflexivity. Qed.
Lemma lex_rbracket rest : lex ("]"%char :: rest) None = cons TRBracket <$> lex rest None.
Proof. reflexivity. Qed.
Lemma lex_lbrace rest : lex ("{"%char :: rest) None = cons TLBrace <$> lex rest None.
Proof. reflexivity. Qed.
Lemma lex_rbrace rest : lex ("}"%char :: rest) None = cons TRBrace <$> lex rest None.
Proof. reflexivity. Qed.
Lemma lex_comma rest : lex (","%char :: rest) None = cons TComma <$> lex rest None.
Proof. reflexivity. Qed.
Lemma lex_colon rest : lex (chars ": " ++ rest) None = cons TColon <$> lex rest None.
Proof. reflexivity. Qed.

Lemma lex_encode_elems level xs rest :
  Forall lexes_to xs ->
  lex (encode_elems level xs ++ rest) None = app (tokens_elems xs) <$> lex rest None.
Proof.
  induction 1 as [|y xs Hy _ IH]; unfold encode_elems, tokens_elems; cbn [fold_right].
  - rewrite <- app_assoc, lex_newline_indent. cbn [app]. rewrite lex_rbracket.
    by destruct (lex rest None).
  - fold (encode_elems level xs) (tokens_elems xs).
    rewrite <- app_comm_cons, lex_comma, <- !app_assoc, lex_newline_indent, Hy, IH.
    destruct (lex rest None); [|done]. cbn. by rewrite <- app_assoc.
Qed.

Lemma lex_encode_members level xs rest :
  Forall (fun kv => lexes_to kv.2) xs ->
  lex (encode_members level xs ++ rest) None = app (tokens_members xs) <$> lex rest None.
Proof.
  induction 1 as [|[k y] xs Hy _ IH]; unfold encode_members, tokens_members;
    cbn [fold_right fst snd].
  - rewrite <- app_assoc, lex_newline_indent. cbn [app]. rewrite lex_rbrace.
    by destruct (lex rest None).
  - fold (encode_members level xs) (tokens_members xs).
    rewrite <- app_comm_cons, lex_comma, <- !app_assoc, lex_newline_indent,
      lex_encode_string, lex_colon, Hy, IH.
    destruct (lex rest None); [|done]. cbn. by rewrite <- app_assoc.
Qed.

Lemma lex_encode v : plain v -> lexes_to v.
Proof.
  induction v as [| b | s | l IH | l IH | literal] using value_ind';
    intros Hp level rest; [| | | | |destruct Hp].
  - cbn. by destruct (lex rest None).
  - destruct b; cbn; by destruct (lex rest None).
  - cbn [encode tokens]. rewrite lex_encode_string. by destruct (lex rest None).
  - apply plain_array in Hp.
    apply (Forall_plain (fun x => x) lexes_to) in IH; [|exact Hp].
    destruct l as [|x xs].
    + cbn. by destruct (lex rest None).
    + rewrite encode_array_cons, tokens_array_cons.
      apply Forall_cons in IH as [Hx Hxs].
      rewrite <- !app_comm_cons, lex_lbracket, <- !app_assoc, lex_newline_indent, Hx,
        (lex_encode_elems _ _ _ Hxs).
      destruct (lex rest None); [|done]. cbn. by rewrite <- app_assoc.
  - apply plain_object in Hp.
    apply (Forall_plain snd lexes_to) in IH; [|exact Hp].
    destruct l as [|[k x] xs].
    + cbn. by destruct (lex rest None).
    + rewrite encode_object_cons, tokens_object_cons.
      apply Forall_cons in IH as [Hx Hxs]. cbn [snd] in Hx.
      rewrite <- !app_comm_cons, lex_lbrace, <- !app_assoc, lex_newline_indent,
        lex_encode_string, lex_colon, Hx, (lex_encode_members _ _ _ Hxs).
      destruct (lex rest None); [|done]. cbn. by rewrite <- app_assoc.
Qed.

Lemma tokens_head v :
  exists t ts, tokens v = t :: ts /\ t <> TRBracket /\ t <> TRBrace.
Proof.
  destruct v as [| [] | s | [|x xs] | [|[k x] xs] | literal]; cbn [tokens]; eauto.
Qed.

Lemma tokens_length v : 1 <= length (tokens v).
Proof. destruct (tokens_head v) as (t & ts & -> & _). simpl. lia. Qed.

Lemma tokens_elems_length xs : 1 <= length (tokens_elems xs).
Proof. destruct xs; simpl; lia. Qed.

Lemma tokens_members_length xs : 1 <= length (tokens_members xs).
Proof. destruct xs; simpl; lia. Qed.

Lemma parse_value_lbracket fuel t r :
  t <> TRBracket ->
  parse_value (S fuel) (TLBracket :: t :: r)
  = match parse_elems fuel (t :: r) with
    | Some (l, r') => Some (JArray l, r')
    | None => None
    end.
Proof. intros H. by destruct t. Qed.

Lemma parse_value_lbrace fuel k r :
  parse_value (S fuel) (TLBrace :: TStr k :: r)
  = match parse_members fuel (TStr k :: r) with
    | Some (l, r') => Some (JObject l, r')
    | None => None
    end.
Proof. reflexivity. Qed.

Lemma parse_elems_step fuel ts :
  parse_elems (S fuel) ts
  = match parse_value fuel ts with
    | Some (v, TComma :: r) =>
        match parse_elems fuel r with
        | Some (l, r') => Some (v :: l, r')
        | None => None
        end
    | Some (v, TRBracket :: r) => Some ([v], r)
    | _ => None
    end.
Proof. reflexivity. Qed.

Lemma parse_members_step fuel k r :
  parse_members (S fuel) (TStr k :: TColon :: r)
  = match parse_value fuel r with
    | Some (v, TComma :: r') =>
        match parse_members fuel r' with
        | Some (l, r'') => Some ((k, v) :: l, r'')
        | None => None
        end
    | Some (v, TRBrace :: r') => Some ([(k, v)], r')
    | _ => None
    end.
Proof. reflexivity. Qed.

Lemma parse_elems_tokens xs :
  Forall parses_to xs ->
  forall x fuel rest,
    parses_to x ->
    length (tokens x ++ tokens_elems xs) <= fuel ->
    parse_elems fuel (tokens x ++ tokens_elems xs ++ rest) = Some (x :: xs, rest).
Proof.
  induction 1 as [|y xs Hy _ IH]; intros x fuel rest Hx Hf;
    rewrite length_app in Hf;
    pose proof (tokens_length x) as Lx;
    (destruct fuel as [|fuel]; [lia|]);
    rewrite parse_elems_step.
  - rewrite Hx by (simpl in Hf; lia). reflexivity.
  - pose proof (tokens_elems_length (y :: xs)) as Le.
    rewrite Hx by lia.
    change (tokens_elems (y :: xs)) with (TComma :: tokens y ++ tokens_elems xs) in *.
    cbn [app]. rewrite <- app_assoc. rewrite IH; [done | done |].
    simpl in Hf. rewrite length_app in *. lia.
Qed.

Lemma parse_members_tokens xs :
  Forall (fun kv => parses_to kv.2) xs ->
  forall k x fuel rest,
    parses_to x ->
    length (TStr k :: TColon :: tokens x ++ tokens_members xs) <= fuel ->
    parse_members fuel (TStr k :: TColon :: tokens x ++ tokens_members xs ++ rest)
    = Some ((k, x) :: xs, rest).
Proof.
  induction 1 as [|[k' y] xs Hy _ IH]; intros k x fuel rest Hx Hf;
    cbn [length] in Hf; rewrite length_app in Hf;
    pose proof (tokens_length x) as Lx;
    (destruct fuel as [|fuel]; [lia|]);
    rewrite parse_members_step.
  - rewrite Hx by (simpl in Hf; lia). reflexivity.
  - pose proof (tokens_members_length ((k', y) :: xs)) as Le.
    rewrite Hx by lia.
    change (tokens_members ((k', y) :: xs))
      with (TComma :: TStr k' :: TColon :: tokens y ++ tokens_members xs) in *.
    cbn [app]. rewrite <- app_assoc. cbn [snd] in Hy. rewrite IH; [done | done |].
    simpl in Hf. simpl. rewrite length_app in *. lia.
Qed.

Lemma parse_tokens v : parses_to v.
Proof.
  induction v as [| b | s | l IH | l IH | literal] using value_ind'; intros fuel rest Hf;
    [| | | | |destruct fuel; [simpl in Hf; lia | reflexivity]].
  - destruct fuel; [simpl in Hf; lia | reflexivity].
  - destruct fuel; [destruct b; simpl in Hf; lia | by destruct b].
  - destruct fuel; [simpl in Hf; lia | reflexivity].
  - destruct l as [|x xs].
    + destruct fuel; [simpl in Hf; lia | reflexivity].
    + rewrite tokens_array_cons in *.
      apply Forall_cons in IH as [Hx Hxs].
      destruct fuel as [|fuel]; [simpl in Hf; lia|].
      destruct (tokens_head x) as (t & ts & E & Ht & _).
      cbn [app]. rewrite <- app_assoc.
      assert (G := parse_elems_tokens xs Hxs x fuel rest Hx).
      rewrite E in *. cbn [app] in *.
      rewrite parse_value_lbracket by done.
      rewrite G; [done|]. simpl in Hf. simpl. lia.
  - destruct l as [|[k x] xs].
    + destruct fuel; [simpl in Hf; lia | reflexivity].
    + rewrite tokens_object_cons in *.
      apply Forall_cons in IH as [Hx Hxs]. cbn [snd] in Hx.
      destruct fuel as [|fuel]; [simpl in Hf; lia|].
      cbn [app]. rewrite parse_value_lbrace. rewrite <- app_assoc.
      rewrite (parse_members_tokens xs Hxs k x fuel rest Hx); [done|].
      simpl in Hf. simpl. lia.
Qed.

Lemma lex_dumps v : plain v -> lex (encode 0 v) None = Some (tokens v).
Proof.
  intros Hp. rewrite <- (app_nil_r (encode 0 v)), (lex_encode v Hp).
  change (lex [] None) with (Some (@nil token)).
  change (app (tokens v) <$> Some []) with (Some (tokens v ++ [])).
  by rewrite app_nil_r.
Qed.

Theorem loads_dumps v : plain v -> loads (dumps v) = Some v.
Proof.
  intros Hp. unfold loads, dumps.
  rewrite list_ascii_of_string_of_list_ascii, (lex_dumps v Hp).
  pose proof (parse_tokens v (S (length (tokens v))) []) as P.
  rewrite app_nil_r in P. rewrite P; [done | lia].
Qed.

Lemma dict_of_members_rev {A} (l : list (string * A)) :
  dict_of_members l = list_to_map (reverse l).
Proof.
  unfold dict_of_members.
  assert (G : forall acc : gmap string A,
             foldl (fun d item => <[item.1 := item.2]> d) acc l
             = foldr (fun item d => <[item.1 := item.2]> d) acc (reverse l)).
  { induction l as [|x l IH]; intros acc; [done|].
    rewrite reverse_cons, foldr_app. simpl. apply IH. }
  apply G.
Qed.

Lemma dict_of_members_fmap {A B} (f : A -> B) (m : gmap string A) :
  dict_of_members (map (fun item => (item.1, f item.2)) (map_to_list m)) = f <$> m.
Proof.
  rewrite dict_of_members_rev.
  rewrite <- (list_to_map_proper (map (fun item => (item.1, f item.2)) (map_to_list m))).
  - change (map (fun item => (item.1, f item.2)) (map_to_list m))
      with (prod_map id f <$> map_to_list m).
    by rewrite list_to_map_fmap, list_to_map_to_list.
  - change (map (fun item => (item.1, f item.2)) (map_to_list m))
      with (prod_map id f <$> map_to_list m).
    rewrite <- list_fmap_compose.
    change (fst ∘ prod_map id f) with (@fst string A).
    apply NoDup_fst_map_to_list.
  - symmetry. apply reverse_Permutation.
Qed.

Lemma as_str_list_round l : as_str_list (JArray (map JString l)) = Some l.
Proof.
  simpl. induction l as [|s l IH]; [done|].
  simpl. by rewrite IH.
Qed.

Lemma as_privileges_round p : as_privileges (privileges_to_json p) = Some p.
Proof.
  destruct p as [m|]; [|done]. unfold privileges_to_json, as_privileges.
  rewrite (dict_of_members_fmap (fun l => JArray (map JString l)) m).
  rewrite bool_decide_eq_true_2.
  - do 2 f_equal. apply map_eq. intros k.
    rewrite lookup_omap, lookup_fmap. destruct (m !! k) as [l|]; [|done].
    simpl. apply as_str_list_round.
  - intros k x. rewrite lookup_fmap. intros Hx.
    destruct (m !! k) as [l|]; [|done]. simpl in Hx. injection Hx as <-.
    rewrite as_str_list_round. by eexists.
Qed.

Lemma UserSpec_round spec : UserSpec_of_kwargs (asdict spec) = Some spec.
Proof.
  destruct spec as [u d r p]. unfold asdict, UserSpec_of_kwargs.
  cbn [username database roles privileges].
  set (pj := privileges_to_json p).
  set (rj := JArray (map JString r)).
  set (D := dict_of_members
              [("username", JString u); ("database", JString d); ("roles", rj);
               ("privileges", pj)]).
  assert (L1 : D !! "username" = Some (JString u)) by (vm_compute; reflexivity).
  assert (L2 : D !! "database" = Some (JString d)) by (vm_compute; reflexivity).
  assert (L3 : D !! "roles" = Some rj) by (vm_compute; reflexivity).
  assert (L4 : D !! "privileges" = Some pj) by (vm_compute; reflexivity).
  change (forallb _ _) with true. cbn iota.
  rewrite L1, L2, L3, L4. cbn [mbind option_bind as_str default].
  unfold rj, pj. rewrite as_str_list_round. cbn [mbind option_bind].
  unfold id. by rewrite as_privileges_round.
Qed.

Lemma state_round users : state_of_json (state_to_json users) = Ok users.
Proof.
  unfold state_to_json, state_of_json.
  rewrite (dict_of_members_fmap asdict users).
  rewrite bool_decide_eq_true_2.
  - f_equal. apply map_eq. intros k.
    rewrite lookup_omap, lookup_fmap. destruct (users !! k) as [s|]; [|done].
    simpl. apply UserSpec_round.
  - intros k x. rewrite lookup_fmap. intros Hx.
    destruct (users !! k) as [s|]; [|done]. simpl in Hx. injection Hx as <-.
    rewrite UserSpec_round. by eexists.
Qed.

Lemma plain_strings l : plain (JArray (map JString l)).
Proof. apply plain_array, Forall_map, Forall_forall. by intros. Qed.

Lemma plain_state users : plain (state_to_json users).
Proof.
  unfold state_to_json. apply plain_object, Forall_map, Forall_forall.
  intros [k spec] _. unfold asdict. cbn [snd plain].
  split; [done|]. split; [done|]. split; [apply (plain_strings (roles spec))|].
  split; [|done]. unfold privileges_to_json.
  destruct (privileges spec) as [m|]; [|done].
  apply plain_object, Forall_map, Forall_forall. intros [o l] _. apply plain_strings.
Qed.

(** C9 (round trip of the persisted state).  When the write of the save
    and the read of the load meet no IO fault, loading right after saving
    returns the very mapping that was saved, for every mapping from user
    names to user records. *)
Theorem C9_state_round_trip env cfg users w :
  io_fault env (clock w) = IoOk ->
  io_fault env (S (clock w)) = IoOk ->
  (load_state env cfg (save_state env cfg users w).2).1 = Ok users.
Proof.
  intros Hsave Hload.
  destruct (save_state_ok env cfg users w Hsave) as (w' & E & F & C).
  rewrite E. cbn [snd].
  unfold load_state, bind, emit, modify, get, tick, catch, ret, raise. cbn.
  rewrite F. cbv beta.
  change (clock (add_event (EvCall load_state_call) w')) with (clock w').
  rewrite C, Hload, (loads_dumps _ (plain_state users)), state_round. reflexivity.
Qed.

Lemma C9_state_round_trip_witness :
  (load_state (quiet_env YamlInvalid ∅) (default_config false)
     (save_state (quiet_env YamlInvalid ∅) (default_config false)
        {[ "alice" := mallory "USAGE"; "bob" := plain_user "bob" "app" ["ro"; "rw"] ]}
        empty_world).2).1
  = Ok {[ "alice" := mallory "USAGE"; "bob" := plain_user "bob" "app" ["ro"; "rw"] ]}.
Proof.
  apply (C9_state_round_trip (quiet_env YamlInvalid ∅) (default_config false));
    reflexivity.
Defined.

(** C5, as the code has it.  [save_state] never raises and touches no
    path but the state file itself: it opens that file for writing and
    dumps the document into it.  Without a fault the file holds the new
    document; when the open fails the files are as they were; when the
    write fails the file holds the part of the new document that was
    written, in place of what it held before. *)
Theorem C5_save_state_in_place env cfg users w :
  let w' := (save_state env cfg users w).2 in
  let text := dumps (state_to_json users) in
  (save_state env cfg users w).1 = Ok tt
  /\ (forall path, path <> STATE_FILE cfg -> files w' !! path = files w !! path)
  /\ Forall (fun e => e = EvCall (save_state_call users) \/ e = EvWrite (STATE_FILE cfg))
       (events_of (save_state env cfg users) w)
  /\ match io_fault env (clock w) with
     | IoOk => files w' !! STATE_FILE cfg = Some text
     | IoOpenFails => files w' = files w
     | IoWriteFails written =>
         files w' !! STATE_FILE cfg = Some (take_string written text)
     end.
Proof.
  cbv zeta. remember (dumps (state_to_json users)) as text eqn:Et.
  unfold events_of, save_state, bind, emit, modify, tick. rewrite <- Et.
  cbn -[take_string].
  destruct (io_fault env (clock w)); cbn -[take_string];
    rewrite <- ?app_assoc, ?drop_app_length.
  - split; [done|]. split; [by intros path Hp; rewrite lookup_insert_ne|].
    split; [|apply lookup_insert_eq].
    repeat match goal with |- Forall _ _ => constructor end; auto.
  - split; [done|]. split; [done|]. split; [|done].
    repeat match goal with |- Forall _ _ => constructor end; auto.
  - split; [done|]. split; [by intros path Hp; rewrite lookup_insert_ne|].
    split; [|apply lookup_insert_eq].
    repeat match goal with |- Forall _ _ => constructor end; auto.
Qed.

(** C5 as stated fails: the state file holds [bob]; saving [alice] hits a
    write fault after 12 characters; the file is then the first 12
    characters of the new document and the next load returns the empty
    state, not the previous one. *)
Lemma C5_counterexample :
  let cfg := default_config false in
  let env := env_io_fault (fun t => if t =? 0 then IoWriteFails 12 else IoOk) in
  let w' := (save_state env cfg {[ "alice" := plain_user "alice" "app" [] ]}
               world_bob_charlie).2 in
  (load_state (quiet_env YamlInvalid ∅) cfg world_bob_charlie).1
    = Ok {[ "bob" := plain_user "bob" "app" [] ]}
  /\ files w' !! STATE_FILE cfg
     = Some (take_string 12 (dumps (state_to_json {[ "alice" := plain_user "alice" "app" [] ]})))
  /\ files w' !! STATE_FILE cfg <> files world_bob_charlie !! STATE_FILE cfg
  /\ (load_state env cfg w').1 = Ok ∅.
Proof.
  cbv zeta. split; [vm_compute; reflexivity|].
  split; [vm_compute; reflexivity|].
  split; [vm_compute; discriminate|].
  vm_compute; reflexivity.
Qed.

(** * Further properties of the controller *)

(** ** [detect_drift] *)

(** X1.  The three sets [detect_drift] returns are pairwise disjoint and
    together make up the desired user names and the database users. *)
Theorem detect_drift_partition (desired : gmap string UserSpec) (actual : gset string) :
  let '(to_create, to_delete, to_update) := detect_drift desired actual in
  to_create ## to_delete /\ to_create ## to_update /\ to_delete ## to_update
  /\ to_create ∪ to_delete ∪ to_update = dom desired ∪ actual
  /\ to_create ∪ to_update = dom desired
  /\ to_delete ∪ to_update = actual.
Proof.
  unfold detect_drift. repeat split.
  - intros x. rewrite !elem_of_difference. tauto.
  - intros x. rewrite elem_of_difference, elem_of_intersection. tauto.
  - intros x. rewrite elem_of_difference, elem_of_intersection. tauto.
  - apply set_eq. intros x.
    rewrite !elem_of_union, !elem_of_difference, elem_of_intersection.
    destruct (decide (x ∈ dom desired)), (decide (x ∈ actual)); tauto.
  - apply set_eq. intros x.
    rewrite !elem_of_union, !elem_of_difference, elem_of_intersection.
    destruct (decide (x ∈ actual)); tauto.
  - apply set_eq. intros x.
    rewrite !elem_of_union, !elem_of_difference, elem_of_intersection.
    destruct (decide (x ∈ dom desired)); tauto.
Qed.

(** ** [parse_desired_users] *)

Lemma collect_users_lookup cfg l :
  forall acc m name,
    collect_users cfg l acc = Some m ->
    m !! name
    = match last (filter (named name) l) with
      | Some entry_ => Some (spec_of_entry cfg name entry_)
      | None => acc !! name
      end.
Proof.
  induction l as [|e l IH]; intros acc m name H; simpl in H.
  - by injection H as <-.
  - destruct (ud_username e) as [n|] eqn:En; [|done].
    rewrite (IH _ _ name H). rewrite filter_cons. unfold named at 2.
    destruct (decide (ud_username e = Some name)) as [Heq|Hne].
    + rewrite Heq in En. injection En as <-.
      destruct (filter (named name) l) as [|e' l'] eqn:Ef.
      * simpl. apply lookup_insert_eq.
      * change (last (e :: e' :: l')) with (last (e' :: l')).
        destruct (last (e' :: l')) eqn:El; [done|]. by apply last_None in El.
    + destruct (last (filter (named name) l)); [done|].
      rewrite lookup_insert_ne; [done|]. simpl. congruence.
Qed.

Lemma collect_users_total cfg l :
  Forall (fun e => is_Some (ud_username e)) l ->
  forall acc, is_Some (collect_users cfg l acc).
Proof.
  induction 1 as [|e l [n Hn] _ IH]; intros acc; simpl; [by eexists|].
  rewrite Hn. apply IH.
Qed.

(** X2.  Every record of the parsed mapping is stored under its own
    username. *)
Theorem parse_desired_users_keys env cfg yaml_content users :
  parse_desired_users env cfg yaml_content = Ok users ->
  map_Forall (fun name spec => username spec = name) users.
Proof.
  unfold parse_desired_users.
  destruct (is_empty_string yaml_content); [by intros [= <-] name spec|].
  destruct (safe_load env yaml_content) as [| |l]; [by intros [= <-] name spec|done|].
  destruct (collect_users cfg (default [] l) ∅) as [m|] eqn:E;
    [|by intros [= <-] name spec].
  intros [= <-] name spec Hs.
  rewrite (collect_users_lookup cfg _ _ _ name E) in Hs.
  destruct (last _); [|done]. by injection Hs as <-.
Qed.

(** X3.  When the text decodes to a list of entries that all carry a
    username, each listed name is a key of the parsed mapping, nothing
    else is, and a name listed several times keeps its last entry, with
    the default database and the empty role list filled in. *)
Theorem parse_desired_users_last_wins env cfg yaml_content entries :
  is_empty_string yaml_content = false ->
  safe_load env yaml_content = YamlMapping (Some entries) ->
  Forall (fun e => is_Some (ud_username e)) entries ->
  exists users,
    parse_desired_users env cfg yaml_content = Ok users
    /\ forall name,
         users !! name = spec_of_entry cfg name <$> last (filter (named name) entries).
Proof.
  intros Hne Hl Hall. unfold parse_desired_users. rewrite Hne, Hl. simpl.
  destruct (collect_users_total cfg entries Hall ∅) as [m E].
  rewrite E. exists m. split; [done|]. intros name.
  rewrite (collect_users_lookup cfg _ _ _ name E).
  by destruct (last _).
Qed.

Lemma parse_desired_users_keys_witness :
  map_Forall (fun name spec => username spec = name)
    ({[ "alice" := plain_user "alice" "app" ["rw"]; "bob" := plain_user "bob" "app" [] ]}
       : gmap string UserSpec).
Proof.
  apply (parse_desired_users_keys (quiet_env (YamlMapping (Some entries_alice_twice)) ∅)
           (default_config false) "users: ...").
  vm_compute. reflexivity.
Defined.

Lemma parse_desired_users_last_wins_witness :
  exists users,
    parse_desired_users (quiet_env (YamlMapping (Some entries_alice_twice)) ∅)
      (default_config false) "users: ..." = Ok users
    /\ forall name,
         users !! name
         = spec_of_entry (default_config false) name
             <$> last (filter (named name) entries_alice_twice).
Proof.
  apply (parse_desired_users_last_wins
           (quiet_env (YamlMapping (Some entries_alice_twice)) ∅)).
  - reflexivity.
  - reflexivity.
  - repeat constructor; by eexists.
Defined.

(** ** [KubernetesClient]: retries and secret names *)

Lemma fetch_configmap_from_clock env cfg fuel name namespace retry_count w :
  let w' := (fetch_configmap_from env cfg fuel name namespace retry_count w).2 in
  clock w < clock w' <= clock w + S fuel.
Proof.
  revert retry_count w. induction fuel as [|fuel IH]; intros retry_count w; cbn -[Nat.ltb Nat.eqb].
  - destruct (read_namespaced_config_map _ _ _ _) as [data|status]; cbn -[Nat.ltb Nat.eqb]; [lia|].
    destruct (status =? 404); cbn -[Nat.ltb Nat.eqb]; [lia|].
    destruct (retry_count <? MAX_RETRIES cfg); cbn -[Nat.ltb Nat.eqb]; lia.
  - destruct (read_namespaced_config_map _ _ _ _) as [data|status]; cbn -[Nat.ltb Nat.eqb]; [lia|].
    destruct (status =? 404); cbn -[Nat.ltb Nat.eqb]; [lia|].
    destruct (retry_count <? MAX_RETRIES cfg); cbn -[Nat.ltb Nat.eqb]; [|lia].
    specialize (IH (S retry_count) (set_clock (S (clock w)) w)). cbn -[Nat.ltb Nat.eqb] in IH. lia.
Qed.

(** X4.  [fetch_configmap] always calls the API, and never more than
    MAX_RETRIES + 1 times; it touches nothing but the clock. *)
Theorem fetch_configmap_attempts env cfg name namespace w :
  let w' := (fetch_configmap env cfg name namespace w).2 in
  clock w < clock w' <= clock w + S (MAX_RETRIES cfg)
  /\ db w' = db w /\ files w' = files w /\ trace w' = trace w /\ stats w' = stats w.
Proof.
  cbv zeta. split; [apply fetch_configmap_from_clock|].
  assert (K : steps (both (keeps db) (both (keeps files) (both (keeps trace) (keeps stats))))
                (fetch_configmap env cfg name namespace)).
  { unfold fetch_configmap. apply steps_fetch_configmap_from; [apply _|].
    intros t w0. by repeat split. }
  destruct (K w) as (? & ? & ? & ?). by repeat split.
Qed.

Lemma fetch_configmap_from_recovers env cfg name namespace data :
  forall failures fuel retry_count w,
    retry_count + fuel = MAX_RETRIES cfg ->
    failures <= fuel ->
    (forall i, i < failures ->
       exists status, (status <> 404)
         /\ read_namespaced_config_map env name namespace (clock w + i) = ApiError status) ->
    read_namespaced_config_map env name namespace (clock w + failures) = ApiOk data ->
    let r := fetch_configmap_from env cfg fuel name namespace retry_count w in
    r.1 = Ok (Some (default EmptyString (data !! "users.yaml")))
    /\ clock r.2 = clock w + S failures.
Proof.
  induction failures as [|k IH]; intros fuel retry_count w Hsum Hle Hfail Hok.
  - rewrite Nat.add_0_r in Hok.
    destruct fuel; cbn -[Nat.ltb Nat.eqb]; rewrite Hok; cbn; split; [done|lia|done|lia].
  - destruct fuel as [|fuel]; [lia|].
    destruct (Hfail 0 ltac:(lia)) as (status & Hs & E0). rewrite Nat.add_0_r in E0.
    cbn -[Nat.ltb Nat.eqb]. rewrite E0. apply Nat.eqb_neq in Hs. rewrite Hs.
    assert (Hlt : (retry_count <? MAX_RETRIES cfg) = true) by (apply Nat.ltb_lt; lia).
    rewrite Hlt.
    destruct (IH fuel (S retry_count) (set_clock (S (clock w)) w)) as [R1 R2].
    + lia.
    + lia.
    + intros i Hi. destruct (Hfail (S i) ltac:(lia)) as (s & Hs' & E).
      exists s. split; [done|]. rewrite Nat.add_succ_r in E. exact E.
    + rewrite Nat.add_succ_r in Hok. exact Hok.
    + cbn -[Nat.ltb Nat.eqb] in R2. split; [exact R1 | lia].
Qed.

(** X5.  When the API fails with statuses other than 404 on the first
    calls, no more of them than MAX_RETRIES, and then answers,
    [fetch_configmap] returns the [users.yaml] field of that answer (the
    empty text when the field is missing), after one call more than there
    were failures. *)
Theorem fetch_configmap_recovers env cfg name namespace data failures w :
  failures <= MAX_RETRIES cfg ->
  (forall i, i < failures ->
     exists status, (status <> 404)
       /\ read_namespaced_config_map env name namespace (clock w + i) = ApiError status) ->
  read_namespaced_config_map env name namespace (clock w + failures) = ApiOk data ->
  (fetch_configmap env cfg name namespace w).1
    = Ok (Some (default EmptyString (data !! "users.yaml")))
  /\ clock (fetch_configmap env cfg name namespace w).2 = clock w + S failures.
Proof.
  intros Hle Hfail Hok. unfold fetch_configmap.
  by apply fetch_configmap_from_recovers.
Qed.

Lemma fetch_configmap_from_gives_up env cfg name namespace status :
  status <> 404 ->
  (forall t, read_namespaced_config_map env name namespace t = ApiError status) ->
  forall fuel retry_count w,
    retry_count + fuel = MAX_RETRIES cfg ->
    let r := fetch_configmap_from env cfg fuel name namespace retry_count w in
    r.1 = Raise (ApiException status) /\ clock r.2 = clock w + S fuel.
Proof.
  intros Hs Hall. apply Nat.eqb_neq in Hs.
  induction fuel as [|fuel IH]; intros retry_count w Hsum; cbn -[Nat.ltb Nat.eqb];
    rewrite Hall, Hs.
  - assert (Hlt : (retry_count <? MAX_RETRIES cfg) = false) by (apply Nat.ltb_ge; lia).
    rewrite Hlt. cbn -[Nat.ltb Nat.eqb]. split; [done|lia].
  - assert (Hlt : (retry_count <? MAX_RETRIES cfg) = true) by (apply Nat.ltb_lt; lia).
    rewrite Hlt.
    destruct (IH (S retry_count) (set_clock (S (clock w)) w)) as [R1 R2]; [lia|].
    cbn -[Nat.ltb Nat.eqb] in R2. split; [exact R1 | lia].
Qed.

(** X6.  When every call fails with one status other than 404,
    [fetch_configmap] raises the API exception of that status after
    exactly MAX_RETRIES + 1 calls; on a 404 it returns [None] after the
    first call, without a retry. *)
Theorem fetch_configmap_gives_up env cfg name namespace status w :
  (forall t, read_namespaced_config_map env name namespace t = ApiError status) ->
  let r := fetch_configmap env cfg name namespace w in
  if status =? 404
  then r.1 = Ok None /\ clock r.2 = S (clock w)
  else r.1 = Raise (ApiException status) /\ clock r.2 = clock w + S (MAX_RETRIES cfg).
Proof.
  intros Hall. cbv zeta. destruct (status =? 404) eqn:Hs.
  - unfold fetch_configmap. destruct (MAX_RETRIES cfg); cbn -[Nat.ltb Nat.eqb]; by rewrite Hall, Hs.
  - apply Nat.eqb_neq in Hs. unfold fetch_configmap.
    by apply fetch_configmap_from_gives_up.
Qed.

Lemma fetch_configmap_recovers_witness :
  (fetch_configmap (env_flaky_configmap 2 500) (default_config false)
     "postgres-users-config" "postgres" empty_world).1
    = Ok (Some (default EmptyString
                  (({[ "users.yaml" := "users: ..." ]} : gmap string string) !! "users.yaml")))
  /\ clock (fetch_configmap (env_flaky_configmap 2 500) (default_config false)
             "postgres-users-config" "postgres" empty_world).2
     = clock empty_world + 3.
Proof.
  apply (fetch_configmap_recovers (env_flaky_configmap 2 500) (default_config false)
           "postgres-users-config" "postgres" {[ "users.yaml" := "users: ..." ]} 2
           empty_world).
  - simpl. lia.
  - intros i Hi. exists 500. split; [lia|].
    destruct i as [|[|i]]; [reflexivity | reflexivity | lia].
  - reflexivity.
Defined.

Lemma fetch_configmap_gives_up_witness :
  (fetch_configmap (env_api_down 500) (default_config false)
     "postgres-users-config" "postgres" empty_world).1 = Raise (ApiException 500)
  /\ clock (fetch_configmap (env_api_down 500) (default_config false)
             "postgres-users-config" "postgres" empty_world).2
     = clock empty_world + 6.
Proof.
  pose proof (fetch_configmap_gives_up (env_api_down 500) (default_config false)
                "postgres-users-config" "postgres" 500 empty_world
                (fun t => eq_refl)) as H.
  exact H.
Defined.

Lemma replace_idem old new s :
  replace old new (replace old new s) = replace old new s.
Proof.
  induction s as [|c s IH]; simpl; [done|]. rewrite IH. f_equal.
  destruct (Ascii.eqb c old) eqn:E; [|by rewrite E].
  destruct (Ascii.eqb new old); done.
Qed.

(** X7.  The secret of a user is named after the user name with every
    underscore turned into a dash: two user names that agree after that
    rewriting read the same secret and get the same answer, and a name is
    interchangeable with its rewritten form. *)
Theorem secret_shared env cfg a b :
  replace "_" "-" a = replace "_" "-" b ->
  secret_name a = secret_name b
  /\ secret_name (replace "_" "-" a) = secret_name a
  /\ forall fuel namespace retry_count w,
       get_user_password_from env cfg fuel a namespace retry_count w
       = get_user_password_from env cfg fuel b namespace retry_count w.
Proof.
  intros H.
  assert (E : secret_name a = secret_name b) by (unfold secret_name; by rewrite H).
  split; [done|]. split; [unfold secret_name; by rewrite replace_idem|].
  induction fuel as [|fuel IH]; intros namespace retry_count w; simpl; unfold bind;
    simpl; rewrite E; [done|].
  destruct (read_namespaced_secret _ _ _ _) as [data|status]; [done|].
  destruct (status =? 404); [done|].
  destruct (retry_count <? MAX_RETRIES cfg); [apply IH | done].
Qed.

Lemma secret_shared_witness :
  secret_name "app_user" = secret_name "app-user"
  /\ secret_name (replace "_" "-" "app_user") = secret_name "app_user"
  /\ forall fuel namespace retry_count w,
       get_user_password_from (quiet_env YamlInvalid ∅) (default_config false) fuel
         "app_user" namespace retry_count w
       = get_user_password_from (quiet_env YamlInvalid ∅) (default_config false) fuel
           "app-user" namespace retry_count w.
Proof.
  apply (secret_shared (quiet_env YamlInvalid ∅) (default_config false)).
  reflexivity.
Defined.

(** ** [reconcile_users]: what it calls, and with what *)

Lemma all_desired_roles_spec (d : gmap string UserSpec) r :
  r ∈ all_desired_roles d <-> exists u spec, d !! u = Some spec /\ In r (roles spec).
Proof.
  unfold all_desired_roles.
  assert (G : forall l : list (string * UserSpec),
             r ∈ foldr (fun item acc => acc ∪ list_to_set (roles item.2)) (∅ : gset string) l
             <-> exists item, item ∈ l /\ In r (roles item.2)).
  { induction l as [|x l IH]; simpl.
    - split; [set_solver|]. intros (item & H & _). by apply elem_of_nil in H.
    - rewrite elem_of_union, IH, elem_of_list_to_set, list_elem_of_In. split.
      + intros [(item & H1 & H2)|H]; [exists item | exists x]; split; auto;
          [by right | by left].
      + intros (item & H1 & H2). apply elem_of_cons in H1 as [->|H1]; [by right|].
        left. by exists item. }
  rewrite G. split.
  - intros ([u spec] & H1 & H2). apply elem_of_map_to_list in H1. by exists u, spec.
  - intros (u & spec & H1 & H2). exists (u, spec). split; [|done].
    by apply elem_of_map_to_list.
Qed.

Lemma steps_bind_lift (R : relation World) `{!PreOrder R} {A B} (r : result A)
    (k : A -> M B) :
  (forall a, r = Ok a -> steps R (k a)) -> steps R (bind (lift r) k).
Proof.
  intros H w. unfold bind. destruct r as [a|e]; simpl; [|reflexivity].
  by apply H.
Qed.

Ltac steps_all_lift :=
  repeat first
    [ lazymatch goal with
      | |- steps ?R (bind (lift ?r) ?k) =>
          apply (steps_bind_lift R r k); intros ? ?
      end
    | steps_step
    | apply steps_fetch_configmap_from; [apply _ | intros ? ?]
    | apply steps_get_user_password_from; [apply _ | intros ? ?] ].

Ltac lookup_result :=
  repeat match goal with
    | H : match ?o with Some _ => Ok _ | None => Raise _ end = Ok _ |- _ =>
        destruct o eqn:?; [injection H as ->|discriminate H]
    end.

Lemma reconcile_from_call_guard env cfg dry d p a :
  steps (trace_ext (call_guard dry d p a)) (reconcile_from env cfg d p a dry).
Proof.
  unfold_controller. steps_all_lift; trace_leaf; try exact I; cbn [call_guard]; auto.
  all: lookup_result.
  all: repeat match goal with
         | H : _ ∈ elements _ |- _ => apply elem_of_elements in H
         | H : _ ∈ _ ∖ _ |- _ => apply elem_of_difference in H as [? ?]
         | H : _ ∈ _ ∩ _ |- _ => apply elem_of_intersection in H as [? ?]
         end.
  all: try (split; [done|]).
  all: try (match goal with H : _ ∈ all_desired_roles _ |- _ =>
              by apply all_desired_roles_spec in H end).
  all: try (eexists; split; [eassumption | done]).
  all: try done.
  - right. match goal with H : no_password ?o = false |- _ =>
      destruct o as [pw|]; [|done]; exists pw; split; [done|]; by destruct pw end.
  - split; [done|]. split.
    + match goal with H : negb (bool_decide _) = true |- _ =>
        apply negb_true_iff, bool_decide_eq_false in H; exact H end.
    + match goal with H : roles_changed ?o _ = true |- _ =>
        unfold roles_changed in H; destruct o as [prev|] eqn:Hp; [|done];
        apply negb_true_iff, bool_decide_eq_false in H end.
      eexists _, prev. repeat split; eauto.
  - split; [|done]. by destruct dry.
Qed.

Lemma reconcile_users_call_guard env cfg dry w e :
  In e (events_of (reconcile_users env cfg dry) w) ->
  fetch_event e \/
  exists d p a w1,
    fetch_states env cfg w = (Ok (Some (d, p, a)), w1) /\ call_guard dry d p a e.
Proof.
  apply (reconcile_users_events (call_guard dry)).
  intros d p a. apply reconcile_from_call_guard.
Qed.

(** X8.  [create_user] is called, with the cycle's dry-run flag, only for
    a desired user that is not among the database users, and with the
    record the desired state holds for that user. *)
Theorem create_user_only_for_missing env cfg dry w spec dr :
  In (EvCall (create_user_call spec dr)) (events_of (reconcile_users env cfg dry) w) ->
  dr = dry
  /\ exists d p a w1,
       fetch_states env cfg w = (Ok (Some (d, p, a)), w1)
       /\ exists u, d !! u = Some spec /\ u ∉ a.
Proof.
  intros H. apply reconcile_users_call_guard in H as [[]|(d & p & a & w1 & E & Hd & G)].
  split; [done|]. by exists d, p, a, w1.
Qed.

Lemma create_user_only_for_missing_witness :
  false = false
  /\ exists d p a w1,
       fetch_states env_alice (default_config false) world_alice_missing
         = (Ok (Some (d, p, a)), w1)
       /\ exists u, d !! u = Some (plain_user "alice" "app" ["rw"]) /\ u ∉ a.
Proof.
  apply (create_user_only_for_missing env_alice (default_config false) false
           world_alice_missing).
  vm_compute. repeat first [left; reflexivity | right].
Defined.

Lemma steps_bind_result (R : relation World) `{!PreOrder R} {A B} (m : M A)
    (k : A -> M B) :
  steps R m -> (forall a, (exists w w', m w = (Ok a, w')) -> steps R (k a)) ->
  steps R (bind m k).
Proof.
  intros Hm Hk w. unfold bind. specialize (Hm w).
  destruct (m w) as [[a|e] w1] eqn:E; simpl in *; [|done].
  etransitivity; [exact Hm | apply Hk]. by exists w, w1.
Qed.

Lemma get_user_password_from_holds env cfg name pw :
  forall fuel retry_count w w',
    get_user_password_from env cfg fuel name (NAMESPACE cfg) retry_count w
      = (Ok (Some pw), w') ->
    secret_holds env cfg name pw.
Proof.
  assert (Hhere : forall w data,
            read_namespaced_secret env (secret_name name) (NAMESPACE cfg) (clock w)
              = ApiOk data ->
            forall w',
              match data !! "password" with
              | Some encoded_pw =>
                  if is_empty_string encoded_pw then ret None
                  else match b64decode env encoded_pw with
                       | Some pw0 => ret (Some pw0)
                       | None => raise ValueError
                       end
              | None => ret None
              end (set_clock (S (clock w)) w) = (Ok (Some pw), w') ->
              secret_holds env cfg name pw).
  { intros w data Hr w' H. destruct (data !! "password") as [encoded_pw|] eqn:Hp; [|done].
    destruct encoded_pw as [|c s] eqn:He; [done|]. cbn [is_empty_string] in H.
    destruct (b64decode env (String c s)) as [pw0|] eqn:Hb; [|done].
    injection H as -> _. by exists (clock w), data, (String c s). }
  induction fuel as [|fuel IH]; intros retry_count w w'; cbn -[Nat.ltb Nat.eqb];
    unfold bind, tick; cbn -[Nat.ltb Nat.eqb];
    destruct (read_namespaced_secret env (secret_name name) (NAMESPACE cfg) (clock w))
      as [data|status] eqn:Hr; try (by apply Hhere);
    destruct (status =? 404); try done;
    destruct (retry_count <? MAX_RETRIES cfg); try done.
  apply IH.
Qed.

Lemma get_user_password_holds env cfg name pw w w' :
  get_user_password env cfg name (NAMESPACE cfg) w = (Ok (Some pw), w') ->
  secret_holds env cfg name pw.
Proof.
  unfold get_user_password, bind at 1, emit, modify. apply get_user_password_from_holds.
Qed.

Lemma handle_creations_from_secret env cfg (d : gmap string UserSpec) (a : gset string) dry :
  steps (trace_ext (from_secret env cfg d a))
    (handle_creations env cfg d (dom d ∖ a) dry).
Proof.
  unfold handle_creations. apply steps_for_each; [apply _|]. intros name Hn.
  apply elem_of_elements, elem_of_difference in Hn as [Hd Ha].
  apply steps_bind_lift; [apply _|]. intros user_spec Hl. lookup_result.
  apply steps_catch; [apply _ | | intros _; steps_all; trace_leaf; exact I].
  apply steps_bind_result; [apply _ | |].
  { unfold get_user_password. steps_all; trace_leaf; exact I. }
  intros password (w0 & w0' & Hres).
  destruct password as [pw|]; cbn [no_password]; [|steps_all; trace_leaf; exact I].
  destruct pw as [|c pw']; cbn [is_empty_string]; [steps_all; trace_leaf; exact I|].
  apply get_user_password_holds in Hres. cbn [default].
  assert (Hpw : String c pw' <> EmptyString) by done.
  unfold_controller. steps_all; trace_leaf; try exact I; cbn [from_secret].
  all: try (by left).
  - by exists name, (String c pw').
  - right. by exists name, user_spec, (String c pw').
Qed.

Lemma reconcile_from_from_secret env cfg dry d p a :
  steps (trace_ext (from_secret env cfg d a)) (reconcile_from env cfg d p a dry).
Proof.
  pose proof (handle_creations_from_secret env cfg d a dry) as Hc.
  unfold reconcile_from, detect_drift, reconcile_roles, handle_deletions, handle_updates,
    load_state, save_state, fetch_existing_users, fetch_existing_roles, fetch_user_roles,
    create_role, update_user_roles, drop_user, transaction, commit, cursor_execute,
    cursor_select, get_connection.
  repeat first [ exact Hc | steps_all_lift ]; trace_leaf; try exact I; by left.
Qed.

(** X9.  Where the creations of a cycle come from.  [create_user] is called
    only for a desired user that is not in the database and whose secret
    was read with a password field that is not empty and decodes to a
    password that is not empty.  The only statement with a bound parameter
    is the CREATE USER of such a user, and its parameter is that
    password; every other statement has no parameter.  So a user whose
    secret is missing, lacks the field or holds an empty password is not
    created. *)
Theorem create_user_from_secret env cfg dry w e :
  In e (events_of (reconcile_users env cfg dry) w) ->
  fetch_event e
  \/ exists d p a w1,
       fetch_states env cfg w = (Ok (Some (d, p, a)), w1) /\ from_secret env cfg d a e.
Proof.
  apply (reconcile_users_events (fun d p a => from_secret env cfg d a)).
  intros d p a. apply reconcile_from_from_secret.
Qed.

Lemma create_user_from_secret_witness :
  fetch_event (EvExecute [SQL "CREATE USER "; Identifier "alice"; SQL " WITH PASSWORD %s;"]
                 ["p1"])
  \/ exists d p a w1,
       fetch_states env_alice (default_config false) world_alice_missing
         = (Ok (Some (d, p, a)), w1)
       /\ from_secret env_alice (default_config false) d a
            (EvExecute [SQL "CREATE USER "; Identifier "alice"; SQL " WITH PASSWORD %s;"]
               ["p1"]).
Proof.
  apply (create_user_from_secret env_alice (default_config false) false
           world_alice_missing).
  vm_compute. repeat first [left; reflexivity | right].
Defined.

(** ** The update step of one user *)

Lemma events_of_bind_cases {A B} (m : M A) (k : A -> M B) w e :
  steps mono m -> (forall a, steps mono (k a)) ->
  In e (events_of (bind m k) w) ->
  In e (events_of m w) \/ exists a w1, m w = (Ok a, w1) /\ In e (events_of (k a) w1).
Proof.
  intros Hm Hk. unfold events_of, bind.
  destruct (Hm w) as (es1 & E1 & _).
  destruct (m w) as [[a|x] w1] eqn:E; simpl in *; [|by left].
  destruct (Hk a w1) as (es2 & E2 & _).
  rewrite E2, E1, <- app_assoc, !drop_app_length.
  intros Hin. apply in_app_or in Hin as [Hin|Hin]; [by left|].
  right. exists a, w1. split; [done|]. by rewrite E2, drop_app_length.
Qed.

Lemma events_of_catch_cases {A} c (m : M A) h w e :
  steps mono m -> (forall x, steps mono (h x)) ->
  In e (events_of (catch c m h) w) ->
  In e (events_of m w)
  \/ exists x w1, m w = (Raise x, w1) /\ In e (events_of (h x) w1).
Proof.
  intros Hm Hh. unfold events_of, catch.
  destruct (Hm w) as (es1 & E1 & _).
  destruct (m w) as [[a|x] w1]; simpl in *; [by left|].
  destruct (c x); [|by left].
  destruct (Hh x w1) as (es2 & E2 & _).
  rewrite E2, E1, <- app_assoc, !drop_app_length.
  intros Hin. apply in_app_or in Hin as [Hin|Hin]; [by left|].
  right. exists x, w1. split; [done|]. by rewrite E2, drop_app_length.
Qed.

Lemma no_events {A} (m : M A) w e :
  steps (keeps trace) m -> ~ In e (events_of m w).
Proof. intros H. unfold events_of. rewrite (H w), drop_all. by intros []. Qed.

(** X10.  The update step of one user, from whatever world it starts.
    [update_user_roles] is called at most for that user and with the
    dry-run flag of the step; the old roles it is handed are the roles
    [fetch_user_roles] returns for the user in that world, and they differ
    from the new roles, which are the desired ones.  The call is made only
    when the user is desired and the previous state has the user with a
    role set other than the desired one. *)
Theorem update_user_roles_only_on_change env d p dry name w u old_roles new_roles dr :
  In (EvCall (update_user_roles_call u old_roles new_roles dr))
     (events_of (handle_updates env d p {[ name ]} dry) w) ->
  u = name /\ dr = dry
  /\ (fetch_user_roles env name w).1 = Ok old_roles
  /\ old_roles <> new_roles
  /\ exists spec prev,
       d !! name = Some spec /\ p !! name = Some prev
       /\ new_roles = list_to_set (roles spec)
       /\ (list_to_set (roles prev) : gset string) <> list_to_set (roles spec).
Proof.
  unfold handle_updates. rewrite elements_singleton. cbn [for_each]. intros H.
  apply events_of_bind_cases in H as [H|(? & w0 & _ & H)];
    [| by apply no_events in H; [|intros ?] | mono_steps | intros; mono_steps].
  apply events_of_bind_cases in H as [H|(spec & w2 & E & H)];
    [by apply no_events in H; [|apply steps_lift; apply _] | | mono_steps | intros; mono_steps].
  destruct (d !! name) as [spec'|] eqn:Hd; [|discriminate E].
  injection E as -> ->. cbv zeta in H.
  destruct (roles_changed (p !! name) spec) eqn:Hc;
    [|by apply no_events in H; [|intros ?]].
  apply events_of_catch_cases in H as [H|(x & w3 & _ & H)];
    [| by apply no_events in H; [|intros ?] | mono_steps | intros; mono_steps].
  apply events_of_bind_cases in H as [H|(actual & w1 & E & H)];
    [| | mono_steps | intros; mono_steps].
  { assert (F : forall w0,
               Forall (fun e => e <> EvCall (update_user_roles_call u old_roles new_roles dr))
                 (events_of (fetch_user_roles env name) w0)).
    { intros w0. apply trace_ext_events. unfold_controller.
      steps_all; trace_leaf; discriminate. }
    specialize (F w2). rewrite List.Forall_forall in F. by apply F in H. }
  destruct (bool_decide (actual = list_to_set (roles spec))) eqn:Hb; cbn [negb] in H;
    [by apply no_events in H; [|intros ?]|].
  apply bool_decide_eq_false in Hb.
  assert (G : forall w0,
            Forall (fun e => forall u' o n dr',
                      e = EvCall (update_user_roles_call u' o n dr') ->
                      u' = name /\ o = actual /\ n = list_to_set (roles spec)
                      /\ dr' = dry)
              (events_of (bind (update_user_roles env name actual
                                  (list_to_set (roles spec)) dry)
                            (fun _ => update_stats incr_users_updated)) w0)).
  { intros w0. apply trace_ext_events. unfold_controller.
    steps_all; trace_leaf; intros u' o n dr' [=]; by subst. }
  specialize (G w1). rewrite List.Forall_forall in G.
  destruct (G _ H _ _ _ _ eq_refl) as (-> & -> & -> & ->).
  split; [done|]. split; [done|]. split; [by rewrite E|]. split; [done|].
  unfold roles_changed in Hc. destruct (p !! name) as [prev|]; [|done].
  apply negb_true_iff, bool_decide_eq_false in Hc. by exists spec, prev.
Qed.

Lemma update_user_roles_only_on_change_witness :
  "alice" = "alice" /\ false = false
  /\ (fetch_user_roles env_alice_rw "alice" world_alice_ro).1 = Ok {[ "ro" ]}
  /\ ({[ "ro" ]} : gset string) <> {[ "rw" ]}
  /\ exists spec prev,
       ({[ "alice" := plain_user "alice" "app" ["rw"] ]} : gmap string UserSpec) !! "alice"
         = Some spec
       /\ ({[ "alice" := plain_user "alice" "app" ["ro"] ]} : gmap string UserSpec) !! "alice"
          = Some prev
       /\ ({[ "rw" ]} : gset string) = list_to_set (roles spec)
       /\ (list_to_set (roles prev) : gset string) <> list_to_set (roles spec).
Proof.
  apply (update_user_roles_only_on_change env_alice_rw
           {[ "alice" := plain_user "alice" "app" ["rw"] ]}
           {[ "alice" := plain_user "alice" "app" ["ro"] ]} false "alice" world_alice_ro
           "alice" {[ "ro" ]} {[ "rw" ]} false).
  vm_compute. repeat first [left; reflexivity | right].
Defined.

(** X11.  [save_state] is called only outside dry-run, and only with the
    desired users the cycle parsed. *)
Theorem save_state_only_desired env cfg dry w users :
  In (EvCall (save_state_call users)) (events_of (reconcile_users env cfg dry) w) ->
  dry = false
  /\ exists d p a w1, fetch_states env cfg w = (Ok (Some (d, p, a)), w1) /\ users = d.
Proof.
  intros H. apply reconcile_users_call_guard in H as [[]|(d & p & a & w1 & E & Hd & G)].
  split; [done|]. by exists d, p, a, w1.
Qed.

Lemma save_state_only_desired_witness :
  false = false
  /\ exists d p a w1,
       fetch_states env_alice (default_config false) world_alice_missing
         = (Ok (Some (d, p, a)), w1)
       /\ ({[ "alice" := plain_user "alice" "app" ["rw"] ]} : gmap string UserSpec) = d.
Proof.
  apply (save_state_only_desired env_alice (default_config false) false
           world_alice_missing).
  vm_compute. repeat first [left; reflexivity | right].
Defined.

(** ** Early exits of [reconcile_users] *)


Lemma fetch_configmap_reads env cfg name namespace :
  steps (both reads_only (keeps trace)) (fetch_configmap env cfg name namespace).
Proof.
  unfold fetch_configmap. apply steps_fetch_configmap_from; [apply _|].
  intros t w0. by repeat split.
Qed.

Lemma load_state_reads env cfg : steps reads_only (load_state env cfg).
Proof. unfold_controller. steps_all; by repeat split. Qed.

Lemma fetch_existing_users_reads env : steps reads_only (fetch_existing_users env).
Proof. unfold_controller. steps_all; by repeat split. Qed.

(** X12.  When the ConfigMap is not there (the API answers 404),
    [reconcile_users] returns at once: one error is counted, no gateway
    method is called, nothing is read from or sent to the database and the
    state file stays as it is. *)
Theorem reconcile_users_configmap_absent env cfg dry w w1 :
  fetch_configmap env cfg (CONFIGMAP_NAME cfg) (NAMESPACE cfg) w = (Ok None, w1) ->
  let w' := (reconcile_users env cfg dry w).2 in
  (reconcile_users env cfg dry w).1 = Ok tt
  /\ events_of (reconcile_users env cfg dry) w = []
  /\ db w' = db w /\ files w' = files w
  /\ stats w' = incr_errors (stats w).
Proof.
  intros E. cbv zeta.
  assert (Es : fetch_states env cfg w = (Ok None, set_stats (incr_errors (stats w1)) w1)).
  { unfold fetch_states. by rewrite (bind_ok _ _ _ _ _ E). }
  unfold events_of, reconcile_users. rewrite (bind_ok _ _ _ _ _ Es). cbn.
  pose proof (fetch_configmap_reads env cfg (CONFIGMAP_NAME cfg) (NAMESPACE cfg) w) as H.
  rewrite E in H. destruct H as ((D & F & S) & T). unfold keeps in *. simpl in *.
  rewrite T, D, F, S, drop_all. done.
Qed.

Lemma reconcile_users_configmap_absent_witness :
  (reconcile_users (env_api_down 404) (default_config false) false world_bob_charlie).1
    = Ok tt
  /\ events_of (reconcile_users (env_api_down 404) (default_config false) false)
       world_bob_charlie = []
  /\ db (reconcile_users (env_api_down 404) (default_config false) false
           world_bob_charlie).2 = db world_bob_charlie
  /\ files (reconcile_users (env_api_down 404) (default_config false) false
              world_bob_charlie).2 = files world_bob_charlie
  /\ stats (reconcile_users (env_api_down 404) (default_config false) false
              world_bob_charlie).2 = incr_errors (stats world_bob_charlie).
Proof.
  apply (reconcile_users_configmap_absent (env_api_down 404) (default_config false) false
           world_bob_charlie
           (fetch_configmap (env_api_down 404) (default_config false)
              "postgres-users-config" "postgres" world_bob_charlie).2).
  vm_compute. reflexivity.
Defined.

(** X13.  When the read of the database users fails, whatever the
    exception, [reconcile_users] returns at once: one error is counted,
    nothing but reads has happened, and the database and the state file
    are as they were. *)
Theorem reconcile_users_database_unreachable env cfg dry w y w1 d p w2 x w3 :
  fetch_configmap env cfg (CONFIGMAP_NAME cfg) (NAMESPACE cfg) w = (Ok (Some y), w1) ->
  parse_desired_users env cfg y = Ok d ->
  load_state env cfg w1 = (Ok p, w2) ->
  fetch_existing_users env w2 = (Raise x, w3) ->
  let w' := (reconcile_users env cfg dry w).2 in
  (reconcile_users env cfg dry w).1 = Ok tt
  /\ Forall fetch_event (events_of (reconcile_users env cfg dry) w)
  /\ db w' = db w /\ files w' = files w
  /\ stats w' = incr_errors (stats w).
Proof.
  intros E1 Ep E2 E3. cbv zeta.
  pose proof (fetch_configmap_reads env cfg (CONFIGMAP_NAME cfg) (NAMESPACE cfg) w) as H1.
  pose proof (load_state_reads env cfg w1) as H2.
  pose proof (fetch_existing_users_reads env w2) as H3.
  rewrite E1 in H1. rewrite E2 in H2. rewrite E3 in H3.
  destruct H1 as ((D1 & F1 & S1) & _), H2 as (D2 & F2 & S2), H3 as (D3 & F3 & S3).
  assert (Es : fetch_states env cfg w = (Ok None, set_stats (incr_errors (stats w3)) w3)).
  { unfold fetch_states. rewrite (bind_ok _ _ _ _ _ E1), Ep.
    rewrite (bind_ok (lift (Ok d)) _ w1 d w1 eq_refl), (bind_ok _ _ _ _ _ E2).
    unfold catch, bind. by rewrite E3. }
  pose proof (fetch_states_events env cfg w) as (es & T & F).
  unfold events_of, reconcile_users. rewrite (bind_ok _ _ _ _ _ Es).
  rewrite Es in T. cbn in T |- *. rewrite T, drop_app_length.
  unfold keeps in *. simpl in *.
  repeat split; congruence.
Qed.

Lemma reconcile_users_database_unreachable_witness :
  (reconcile_users env_db_down (default_config false) false world_bob_charlie).1 = Ok tt
  /\ Forall fetch_event
       (events_of (reconcile_users env_db_down (default_config false) false)
          world_bob_charlie)
  /\ db (reconcile_users env_db_down (default_config false) false world_bob_charlie).2
     = db world_bob_charlie
  /\ files (reconcile_users env_db_down (default_config false) false world_bob_charlie).2
     = files world_bob_charlie
  /\ stats (reconcile_users env_db_down (default_config false) false world_bob_charlie).2
     = incr_errors (stats world_bob_charlie).
Proof.
  pose (cfg := default_config false).
  pose (w1 := (fetch_configmap env_db_down cfg (CONFIGMAP_NAME cfg) (NAMESPACE cfg)
                 world_bob_charlie).2).
  pose (w2 := (load_state env_db_down cfg w1).2).
  pose (w3 := (fetch_existing_users env_db_down w2).2).
  apply (reconcile_users_database_unreachable env_db_down cfg false world_bob_charlie
           "users: ..." w1 {[ "alice" := plain_user "alice" "app" ["rw"] ]}
           {[ "bob" := plain_user "bob" "app" [] ]} w2 Psycopg2Error w3);
    vm_compute; reflexivity.
Defined.

(** ** [reconcile_roles] *)

Lemma fetch_existing_roles_result env w s w1 :
  fetch_existing_roles env w = (Ok s, w1) -> s = live_groups (db w).
Proof.
  unfold fetch_existing_roles, get_connection, cursor_select, bind, emit, modify, tick,
    get, ret, raise. cbn.
  destruct (db_fault env (clock w)); cbn; [discriminate|].
  destruct (db_fault env (S (clock w))); cbn; [discriminate|].
  by intros [= <- <-].
Qed.

Lemma fetch_existing_roles_mono env : steps mono (fetch_existing_roles env).
Proof. mono_steps. Qed.

(** X14.  [reconcile_roles] creates a role only when some desired user
    names it and no group role of that name was in the database when the
    call began; it passes its dry-run flag on, and never drops a role. *)
Theorem reconcile_roles_creates_missing env d dry w e :
  In e (events_of (reconcile_roles env d dry) w) ->
  role_guard dry d (live_groups (db w)) e.
Proof.
  intros Hin. unfold reconcile_roles in Hin.
  apply events_of_bind_cases in Hin as [Hin|(s & w1 & E & Hin)].
  - eapply List.Forall_forall; [|exact Hin]. apply trace_ext_events.
    unfold_controller. steps_all; trace_leaf; exact I.
  - apply fetch_existing_roles_result in E as ->.
    eapply List.Forall_forall; [|exact Hin]. apply trace_ext_events.
    unfold_controller. steps_all; trace_leaf; try exact I.
    cbn [role_guard].
    match goal with H : _ ∈ elements _ |- _ =>
      apply elem_of_elements, elem_of_difference in H as [H1 H2] end.
    split; [done|]. split; [done|]. by apply all_desired_roles_spec.
  - apply fetch_existing_roles_mono.
  - intros s. mono_steps.
Qed.

Lemma reconcile_roles_creates_missing_witness :
  role_guard false {[ "alice" := plain_user "alice" "app" ["rw"; "audit"] ]}
    (live_groups (db world_alice_ro)) (EvCall (create_role_call "audit" false)).
Proof.
  apply (reconcile_roles_creates_missing env_two_roles _ false world_alice_ro).
  vm_compute. repeat first [left; reflexivity | right].
Defined.

(** ** The cycle as a whole *)

Lemma reconciliation_cycle_eq env cfg w :
  reconciliation_cycle env cfg w
  = catch Exception
      (bind (reconcile_users env cfg (DRY_RUN cfg)) (fun _ => record_reconciliation))
      (fun _ => bind (update_stats incr_errors) (fun _ => record_reconciliation))
      (set_stats empty_stats w).
Proof. reflexivity. Qed.

Lemma reconcile_users_not_drop_role env cfg dry :
  steps (both (trace_ext not_drop_role) (keeps roles_deleted_of))
    (reconcile_users env cfg dry).
Proof.
  unfold_controller. steps_all; (split; [trace_leaf; exact I | keeps_leaf]).
Qed.

(** X15.  A cycle never calls [drop_role], and its statistics end with
    [roles_deleted] at zero: the clean-up of unused roles is not part of
    the code that runs. *)
Theorem cycle_never_drops_roles env cfg w :
  Forall not_drop_role (events_of (reconciliation_cycle env cfg) w)
  /\ roles_deleted (stats (reconciliation_cycle env cfg w).2) = 0.
Proof.
  assert (H : steps (both (trace_ext not_drop_role) (keeps roles_deleted_of))
                (catch Exception
                   (bind (reconcile_users env cfg (DRY_RUN cfg))
                      (fun _ => record_reconciliation))
                   (fun _ => bind (update_stats incr_errors)
                               (fun _ => record_reconciliation)))).
  { pose proof (reconcile_users_not_drop_role env cfg (DRY_RUN cfg)).
    unfold record_reconciliation.
    repeat first [ assumption | steps_step ]; (split; [trace_leaf; exact I | keeps_leaf]). }
  unfold events_of. rewrite reconciliation_cycle_eq.
  destruct (H (set_stats empty_stats w)) as ((es & E & F) & K).
  split.
  - change (trace w) with (trace (set_stats empty_stats w)).
    by rewrite E, drop_app_length.
  - exact K.
Qed.

Lemma reconcile_users_keeps_counters env cfg dry :
  steps (keeps counters) (reconcile_users env cfg dry).
Proof. unfold_controller. steps_all; keeps_leaf. Qed.

(** X16.  A cycle never raises, whatever the API, the database and the
    disk do, and records itself exactly once: [reconciliation_count] goes
    up by one, and the drift and error counters go up by the drift and the
    errors of the cycle's statistics. *)
Theorem cycle_records_once env cfg w :
  let w' := (reconciliation_cycle env cfg w).2 in
  (reconciliation_cycle env cfg w).1 = Ok tt
  /\ reconciliation_count (metrics w') = S (reconciliation_count (metrics w))
  /\ drift_count (metrics w') = drift_count (metrics w) + drift_detected (stats w')
  /\ error_count (metrics w') = error_count (metrics w) + errors (stats w').
Proof.
  cbv zeta. rewrite reconciliation_cycle_eq.
  pose proof (reconcile_users_keeps_counters env cfg (DRY_RUN cfg)
                (set_stats empty_stats w)) as K.
  unfold catch, bind, record_reconciliation, update_stats, modify.
  destruct (reconcile_users env cfg (DRY_RUN cfg) (set_stats empty_stats w))
    as [[[]|x] w1]; unfold keeps, counters in K; simpl in *;
    injection K as K1 K2 K3; rewrite K1, K2, K3; done.
Qed.

Lemma cycle_counters env cfg w :
  let w' := (reconciliation_cycle env cfg w).2 in
  (reconciliation_cycle env cfg w).1 = Ok tt
  /\ reconciliation_count (metrics w') = S (reconciliation_count (metrics w))
  /\ drift_count (metrics w) <= drift_count (metrics w')
  /\ error_count (metrics w) <= error_count (metrics w').
Proof.
  cbv zeta. rewrite reconciliation_cycle_eq.
  pose proof (reconcile_users_keeps_counters env cfg (DRY_RUN cfg)
                (set_stats empty_stats w)) as K.
  unfold catch, bind, record_reconciliation, update_stats, modify.
  destruct (reconcile_users env cfg (DRY_RUN cfg) (set_stats empty_stats w))
    as [[[]|x] w1]; unfold keeps, counters in K; simpl in *;
    injection K as K1 K2 K3; rewrite K1, K2, K3; repeat split; lia.
Qed.

(** X17.  The loop is never left by an exception of a cycle: any number
    of turns completes, [reconciliation_count] has gone up by the number of
    turns, and the drift and error counters have not gone down. *)
Theorem run_reconciliation_loop_counts env cfg turns w :
  let w' := (run_reconciliation_loop env cfg turns w).2 in
  (run_reconciliation_loop env cfg turns w).1 = Ok tt
  /\ reconciliation_count (metrics w') = reconciliation_count (metrics w) + turns
  /\ drift_count (metrics w) <= drift_count (metrics w')
  /\ error_count (metrics w) <= error_count (metrics w').
Proof.
  cbv zeta. revert w. induction turns as [|n IH]; intros w; simpl.
  - repeat split; lia.
  - unfold bind. destruct (cycle_counters env cfg w) as (E & C & D & R).
    destruct (reconciliation_cycle env cfg w) as [[[]|x] w1]; simpl in *; [|done].
    destruct (IH w1) as (E1 & C1 & D1 & R1). repeat split; [done|lia..].
Qed.

(** ** Statements sent in order *)

Lemma executed_app es1 es2 : executed (es1 ++ es2) = executed es1 ++ executed es2.
Proof. unfold executed. apply omap_app. Qed.

Lemma scripted_ret : scripted (ret tt) [].
Proof. intros w. exists []. cbn. rewrite app_nil_r. by repeat split. Qed.

Lemma scripted_cursor_execute env q params :
  scripted (cursor_execute env q params) [(q, params)].
Proof.
  intros w. exists [EvExecute q params].
  unfold cursor_execute, bind, emit, modify, tick, get, raise. cbn.
  destruct (db_fault env (clock w)); cbn.
  - split; [done|]. split; [by repeat constructor|]. by split.
  - destruct (pg_execute env (db w) q params); cbn;
      (split; [done|]; split; [by repeat constructor|]; by split).
Qed.

Lemma scripted_bind (m : M unit) (k : unit -> M unit) l1 l2 :
  scripted m l1 -> (forall a, scripted (k a) l2) -> scripted (bind m k) (l1 ++ l2).
Proof.
  intros Hm Hk w. unfold bind. destruct (Hm w) as (es1 & E1 & F1 & P1 & O1).
  destruct (m w) as [[[]|x] w1]; simpl in *.
  - destruct (Hk tt w1) as (es2 & E2 & F2 & P2 & O2).
    exists (es1 ++ es2). rewrite E2, E1, executed_app, O1 by done.
    split; [by rewrite app_assoc|]. split; [by apply Forall_app|].
    split; [by apply prefix_app|]. intros H. by rewrite O2.
  - exists es1. split; [done|]. split; [done|].
    split; [by apply prefix_app_r|done].
Qed.

Lemma scripted_for_each {A} (l : list A) (body : A -> M unit) f :
  (forall x, scripted (body x) (f x)) -> scripted (for_each l body) (flat_map f l).
Proof.
  intros H. induction l as [|x l IH]; simpl; [apply scripted_ret|].
  apply scripted_bind; auto.
Qed.

Lemma flat_map_singleton {A B} (f : A -> B) (l : list A) :
  flat_map (fun x => [f x]) l = map f l.
Proof. induction l as [|x l IH]; simpl; [done|]. by rewrite IH. Qed.

Lemma execute_only es e : Forall is_execute es -> In e es -> is_execute e.
Proof. intros F H. rewrite List.Forall_forall in F. by apply F. Qed.

(** A provisioning method: the call, then its statements within
    [transaction]. *)
Lemma call_transaction_scripted env c body plan w :
  scripted body plan ->
  let m := bind (emit (EvCall c)) (fun _ => transaction env body) in
  executed (events_of m w) `prefix_of` plan
  /\ (In EvCommit (events_of m w) -> executed (events_of m w) = plan)
  /\ ((m w).1 = Ok tt -> In EvCommit (events_of m w) /\ ~ In EvRollback (events_of m w))
  /\ (In EvRollback (events_of m w) -> (m w).1 = Raise Psycopg2Error).
Proof.
  intros Hs. cbv zeta.
  unfold events_of, transaction, get_connection, commit, bind, catch, tick, get, emit,
    modify, raise, ret. cbn.
  destruct (db_fault env (clock w)); cbn.
  { rewrite drop_app_length. cbn. split; [apply prefix_nil|].
    split; [by intros [|[]]|]. split; [done|]. by intros [|[]]. }
  match goal with |- context [body ?w0] =>
    destruct (Hs w0) as (es & E & F & P & O); destruct (body w0) as [[[]|x] w2] end;
    cbn in *.
  - assert (Hc : ~ In EvCommit es) by (intros H; by apply (execute_only _ _ F) in H).
    assert (Hr : ~ In EvRollback es) by (intros H; by apply (execute_only _ _ F) in H).
    rewrite (O eq_refl) in *.
    destruct (db_fault env (clock w2)); cbn.
    + destruct (autocommit env (clock w)); cbn;
        rewrite E, <- !app_assoc, drop_app_length; cbn;
        rewrite executed_app; cbn; rewrite app_nil_r, (O eq_refl).
      all: split; [done|]; split; [done|]; split; [done|]; done.
    + rewrite E, <- !app_assoc, drop_app_length. cbn.
      rewrite executed_app. cbn. rewrite app_nil_r, (O eq_refl).
      split; [done|]. split; [done|]. split.
      * intros _. split; [right; apply in_or_app; right; by left|].
        intros [H|H]; [done|]. apply in_app_or in H as [H|[H|[]]]; [done|discriminate].
      * intros [H|H]; [done|]. apply in_app_or in H as [H|[H|[]]]; [done|discriminate].
  - assert (Hc : ~ In EvCommit es) by (intros H; by apply (execute_only _ _ F) in H).
    assert (Hr : ~ In EvRollback es) by (intros H; by apply (execute_only _ _ F) in H).
    destruct x; cbn; try destruct (autocommit env (clock w)); cbn;
      rewrite ?E, <- ?app_assoc, drop_app_length; cbn; rewrite ?executed_app; cbn;
      rewrite ?app_nil_r.
    all: split; [exact P|].
    all: split;
      [intros [H|H]; [discriminate H|];
       first [ by destruct (Hc H)
             | apply in_app_or in H as [H|[H|[]]]; [by destruct (Hc H) | discriminate H] ]|].
    all: split; [intros [=]|].
    all: first [ done | intros [H|H]; [discriminate H | by destruct (Hr H)] ].
Qed.

(** ** The statements of [drop_user] and [update_user_roles] *)

Lemma drop_user_scripted env cfg name :
  scripted
    (bind (cursor_execute env
             (format "REVOKE ALL PRIVILEGES ON DATABASE {} FROM {};"
                [Identifier (DB_NAME cfg); Identifier name]) [])
       (fun _ => bind (cursor_execute env
                         (format "REASSIGN OWNED BY {} TO {};"
                            [Identifier name; Identifier (DB_USER cfg)]) [])
          (fun _ => bind (cursor_execute env
                            (format "DROP OWNED BY {};" [Identifier name]) [])
             (fun _ => cursor_execute env
                         (format "DROP USER IF EXISTS {};" [Identifier name]) []))))
    (map (fun q => (q, [])) (drop_user_statements cfg name)).
Proof.
  unfold drop_user_statements. cbn [map].
  apply (scripted_bind _ _ [_]); [apply scripted_cursor_execute|]. intros _.
  apply (scripted_bind _ _ [_]); [apply scripted_cursor_execute|]. intros _.
  apply (scripted_bind _ _ [_]); [apply scripted_cursor_execute|]. intros _.
  apply scripted_cursor_execute.
Qed.

(** X18.  [drop_user] sends its four statements in the order REVOKE ALL
    PRIVILEGES, REASSIGN OWNED, DROP OWNED, DROP USER and stops at the
    first that fails: what was sent is a prefix of the four.  The commit
    is tried only after all four; the call returns only after the commit
    and without a rollback; after a rollback it raises. *)
Theorem drop_user_in_order env cfg name w :
  let r := drop_user env cfg name false w in
  let es := events_of (drop_user env cfg name false) w in
  executed es `prefix_of` map (fun q => (q, [])) (drop_user_statements cfg name)
  /\ (In EvCommit es -> executed es = map (fun q => (q, [])) (drop_user_statements cfg name))
  /\ (r.1 = Ok tt -> In EvCommit es /\ ~ In EvRollback es)
  /\ (In EvRollback es -> r.1 = Raise Psycopg2Error).
Proof.
  cbv zeta.
  apply (call_transaction_scripted env (drop_user_call name false)).
  apply drop_user_scripted.
Qed.

(** X19.  [update_user_roles] sends nothing but REVOKE for roles that are
    held and not wanted and GRANT for roles that are wanted and not held,
    all without parameters; called with equal sets it returns without
    taking a connection. *)
Theorem update_user_roles_statements env name old_roles new_roles dry w :
  Forall (role_change name old_roles new_roles)
    (events_of (update_user_roles env name old_roles new_roles dry) w)
  /\ update_user_roles env name old_roles old_roles dry w
     = (Ok tt, add_event (EvCall (update_user_roles_call name old_roles old_roles dry)) w).
Proof.
  split.
  - apply trace_ext_events. unfold_controller.
    steps_all; trace_leaf; try exact I; cbn [role_change]; (split; [done|]).
    all: match goal with H : _ ∈ elements _ |- _ =>
           apply elem_of_elements, elem_of_difference in H as [H1 H2] end.
    + left. eauto.
    + right. eauto.
  - unfold update_user_roles, bind, emit, modify. cbn.
    by rewrite difference_diag_L, bool_decide_eq_true_2.
Qed.

Lemma never_raises_bind {A} (m : M A) (k : A -> M unit) :
  never_raises m -> (forall a, never_raises (k a)) -> never_raises (bind m k).
Proof.
  intros Hm Hk w. unfold bind. destruct (Hm w) as [a E].
  destruct (m w) as [[a'|x] w1]; simpl in *; [|done]. apply Hk.
Qed.

Lemma clean_for_each {A} (l : list A) (body : A -> M unit) f :
  (forall x, clean (body x) (f x)) -> clean (for_each l body) (flat_map f l).
Proof.
  intros H. induction l as [|x l IH]; simpl.
  - intros w. exists w. by rewrite app_nil_r.
  - by apply clean_bind.
Qed.

(** X20.  On a database that takes every statement, [update_user_roles]
    outside a dry run revokes every role that is held and not wanted,
    grants every role that is wanted and not held, commits and
    returns. *)
Theorem update_user_roles_complete env name old_roles new_roles w :
  obliging env ->
  old_roles <> new_roles ->
  let es := events_of (update_user_roles env name old_roles new_roles false) w in
  (update_user_roles env name old_roles new_roles false w).1 = Ok tt
  /\ In EvCommit es
  /\ (forall role, role ∈ old_roles -> role ∉ new_roles ->
        In (EvExecute (format "REVOKE {} FROM {};" [Identifier role; Identifier name]) []) es)
  /\ (forall role, role ∈ new_roles -> role ∉ old_roles ->
        In (EvExecute (format "GRANT {} TO {};" [Identifier role; Identifier name]) []) es).
Proof.
  intros Hob Hne. cbv zeta.
  assert (Hgo : bool_decide (old_roles ∖ new_roles = ∅)
                && bool_decide (new_roles ∖ old_roles = ∅) = false).
  { apply andb_false_iff.
    destruct (decide (old_roles ∖ new_roles = ∅)) as [E1|E1];
      [|left; by apply bool_decide_eq_false].
    right. apply bool_decide_eq_false. intros E2. apply Hne.
    apply set_eq. intros x. split; intros Hx.
    - destruct (decide (x ∈ new_roles)); [done|]. set_solver.
    - destruct (decide (x ∈ old_roles)); [done|]. set_solver. }
  set (revoke := fun role : string =>
         EvExecute (format "REVOKE {} FROM {};" [Identifier role; Identifier name]) []).
  set (grant := fun role : string =>
         EvExecute (format "GRANT {} TO {};" [Identifier role; Identifier name]) []).
  assert (Hc : clean (update_user_roles env name old_roles new_roles false)
                 ([EvCall (update_user_roles_call name old_roles new_roles false)]
                  ++ (flat_map (fun role => [revoke role]) (elements (old_roles ∖ new_roles))
                      ++ flat_map (fun role => [grant role])
                           (elements (new_roles ∖ old_roles)))
                  ++ [EvCommit])).
  { unfold update_user_roles. rewrite Hgo.
    apply clean_bind; [apply clean_emit|].
    apply clean_transaction; [done|].
    apply clean_bind; apply clean_for_each; intros role; by apply clean_cursor_execute. }
  rewrite (clean_events _ _ w Hc). destruct (Hc w) as (w' & -> & _).
  cbn [app]. split; [done|]. split; [|split].
  - right. rewrite !in_app_iff. right. by left.
  - intros role H1 H2. right. rewrite !in_app_iff. left. left.
    apply in_flat_map. exists role. split; [|by left].
    apply list_elem_of_In, elem_of_elements. set_solver.
  - intros role H1 H2. right. rewrite !in_app_iff. left. right.
    apply in_flat_map. exists role. split; [|by left].
    apply list_elem_of_In, elem_of_elements. set_solver.
Qed.

Lemma update_user_roles_complete_witness :
  (update_user_roles env_alice_rw "alice" {[ "ro" ]} {[ "rw" ]} false world_alice_ro).1
    = Ok tt
  /\ In EvCommit
       (events_of (update_user_roles env_alice_rw "alice" {[ "ro" ]} {[ "rw" ]} false)
          world_alice_ro)
  /\ (forall role, role ∈ ({[ "ro" ]} : gset string) -> role ∉ ({[ "rw" ]} : gset string) ->
        In (EvExecute (format "REVOKE {} FROM {};" [Identifier role; Identifier "alice"]) [])
          (events_of (update_user_roles env_alice_rw "alice" {[ "ro" ]} {[ "rw" ]} false)
             world_alice_ro))
  /\ (forall role, role ∈ ({[ "rw" ]} : gset string) -> role ∉ ({[ "ro" ]} : gset string) ->
        In (EvExecute (format "GRANT {} TO {};" [Identifier role; Identifier "alice"]) [])
          (events_of (update_user_roles env_alice_rw "alice" {[ "ro" ]} {[ "rw" ]} false)
             world_alice_ro)).
Proof.
  apply (update_user_roles_complete env_alice_rw "alice" {[ "ro" ]} {[ "rw" ]}
           world_alice_ro).
  - split; [reflexivity | intros; eexists; reflexivity].
  - compute_done.
Defined.

(** ** [load_state] on a state file that cannot be used *)



(** A state file that holds a number is a JSON document: it is read, and
    the comprehension of [load_state] fails on it. *)
Example load_state_number :
  loads "42" = Some (JNumber "42")
  /\ (load_state (quiet_env YamlInvalid ∅) (default_config false) world_number_state).1
     = Raise AttributeError.
Proof. split; vm_compute; reflexivity. Qed.

(** X22.  When the state file is read and holds a JSON object one of
    whose entries carries a field that [UserSpec] does not have,
    [load_state] raises [TypeError]: the handler of [load_state] takes
    JSON and I/O errors only. *)
Theorem load_state_unexpected_field env cfg w text ms u fields k :
  files w !! STATE_FILE cfg = Some text ->
  io_fault env (clock w) = IoOk ->
  loads text = Some (JObject ms) ->
  dict_of_members ms !! u = Some (JObject fields) ->
  In k (map fst fields) ->
  k ∉ UserSpec_fields ->
  (load_state env cfg w).1 = Raise TypeError.
Proof.
  intros Hf Hio Hjs Hu Hk Hn.
  unfold load_state, bind, catch, emit, modify, tick, get, ret, raise. cbn.
  rewrite Hf. cbn. rewrite Hio, Hjs. unfold state_of_json.
  rewrite bool_decide_eq_false_2; [done|].
  intros Hall. specialize (Hall u _ Hu). cbn in Hall.
  destruct (forallb _ _) eqn:Hfa; [|by destruct Hall].
  rewrite forallb_forall in Hfa. specialize (Hfa k Hk).
  by apply bool_decide_eq_true in Hfa.
Qed.

Lemma load_state_unexpected_field_witness :
  (load_state (quiet_env YamlInvalid ∅) (default_config false) world_stale_state).1
  = Raise TypeError.
Proof.
  apply (load_state_unexpected_field (quiet_env YamlInvalid ∅) (default_config false)
           world_stale_state (dumps (JObject [("bob", JObject stale_entry)]))
           [("bob", JObject stale_entry)] "bob" stale_entry "version").
  - reflexivity.
  - reflexivity.
  - vm_compute. reflexivity.
  - vm_compute. reflexivity.
  - simpl. tauto.
  - compute_done.
Defined.

(** ** What escapes [reconcile_users] *)

(** X23.  An exception of [parse_desired_users] or of [load_state] is not
    handled in [reconcile_users]: it leaves the call, before any catalog
    read or statement, with the database and the files as they were. *)
Theorem reconcile_users_escapes env cfg dry w y w1 x :
  fetch_configmap env cfg (CONFIGMAP_NAME cfg) (NAMESPACE cfg) w = (Ok (Some y), w1) ->
  (parse_desired_users env cfg y = Raise x
   \/ (exists d, parse_desired_users env cfg y = Ok d)
      /\ (load_state env cfg w1).1 = Raise x) ->
  let w' := (reconcile_users env cfg dry w).2 in
  (reconcile_users env cfg dry w).1 = Raise x
  /\ Forall (fun e => e = EvCall load_state_call) (events_of (reconcile_users env cfg dry) w)
  /\ db w' = db w /\ files w' = files w.
Proof.
  intros E1 Hx. cbv zeta.
  pose proof (fetch_configmap_reads env cfg (CONFIGMAP_NAME cfg) (NAMESPACE cfg) w) as H1.
  rewrite E1 in H1. destruct H1 as ((D1 & F1 & S1) & T1).
  unfold keeps in *. simpl in *.
  assert (Es : exists w' es, fetch_states env cfg w = (Raise x, w')
                 /\ trace w' = trace w ++ es
                 /\ Forall (fun e => e = EvCall load_state_call) es
                 /\ db w' = db w /\ files w' = files w).
  { unfold fetch_states. rewrite (bind_ok _ _ _ _ _ E1).
    destruct Hx as [Ep|[[d Ep] El]]; rewrite Ep.
    - exists w1, []. by rewrite app_nil_r.
    - rewrite (bind_ok (lift (Ok d)) _ w1 d w1 eq_refl).
      assert (K : steps (both (trace_ext (fun e => e = EvCall load_state_call)) reads_only)
                    (load_state env cfg)).
      { unfold_controller. steps_all; (split; [trace_leaf; done | by repeat split]). }
      destruct (K w1) as ((es & T & F) & D2 & F2 & S2).
      unfold bind.
      destruct (load_state env cfg w1) as [[p|x'] w2]; simpl in *; [discriminate El|].
      injection El as ->. unfold keeps in *. simpl in *.
      exists w2, es. repeat split; [congruence|done|congruence..]. }
  destruct Es as (w' & es & Es & T & F & D & Fi).
  unfold events_of, reconcile_users, bind. rewrite Es. simpl.
  by rewrite T, drop_app_length.
Qed.

Lemma reconcile_users_escapes_witness :
  (reconcile_users (quiet_env YamlNotMapping ∅) (default_config false) false
     world_bob_charlie).1 = Raise AttributeError
  /\ Forall (fun e => e = EvCall load_state_call)
       (events_of (reconcile_users (quiet_env YamlNotMapping ∅) (default_config false) false)
          world_bob_charlie)
  /\ db (reconcile_users (quiet_env YamlNotMapping ∅) (default_config false) false
           world_bob_charlie).2 = db world_bob_charlie
  /\ files (reconcile_users (quiet_env YamlNotMapping ∅) (default_config false) false
              world_bob_charlie).2 = files world_bob_charlie.
Proof.
  apply (reconcile_users_escapes (quiet_env YamlNotMapping ∅) (default_config false) false
           world_bob_charlie "users: ..."
           (fetch_configmap (quiet_env YamlNotMapping ∅) (default_config false)
              "postgres-users-config" "postgres" world_bob_charlie).2).
  - vm_compute. reflexivity.
  - left. vm_compute. reflexivity.
Defined.

(** ** [get_user_password] *)

Lemma get_user_password_from_clock env cfg fuel name namespace retry_count w :
  let w' := (get_user_password_from env cfg fuel name namespace retry_count w).2 in
  clock w < clock w' <= clock w + S fuel.
Proof.
  revert retry_count w.
  induction fuel as [|fuel IH]; intros retry_count w; cbn -[Nat.ltb Nat.eqb].
  - destruct (read_namespaced_secret _ _ _ _) as [data|status]; cbn -[Nat.ltb Nat.eqb].
    + destruct (data !! "password") as [encoded_pw|]; cbn; [|lia].
      destruct (is_empty_string encoded_pw); cbn; [lia|].
      destruct (b64decode env encoded_pw); cbn; lia.
    + destruct (status =? 404); cbn -[Nat.ltb Nat.eqb]; [lia|].
      destruct (retry_count <? MAX_RETRIES cfg); cbn -[Nat.ltb Nat.eqb]; lia.
  - destruct (read_namespaced_secret _ _ _ _) as [data|status]; cbn -[Nat.ltb Nat.eqb].
    + destruct (data !! "password") as [encoded_pw|]; cbn; [|lia].
      destruct (is_empty_string encoded_pw); cbn; [lia|].
      destruct (b64decode env encoded_pw); cbn; lia.
    + destruct (status =? 404); cbn -[Nat.ltb Nat.eqb]; [lia|].
      destruct (retry_count <? MAX_RETRIES cfg); cbn -[Nat.ltb Nat.eqb]; [|lia].
      specialize (IH (S retry_count) (set_clock (S (clock w)) w)).
      cbn -[Nat.ltb Nat.eqb] in IH. lia.
Qed.

(** X24.  [get_user_password] calls the API at least once and at most
    MAX_RETRIES + 1 times; it changes neither the database nor the files
    nor the statistics, and leaves one event, its own call. *)
Theorem get_user_password_attempts env cfg name namespace w :
  let r := get_user_password env cfg name namespace w in
  clock w < clock r.2 <= clock w + S (MAX_RETRIES cfg)
  /\ db r.2 = db w /\ files r.2 = files w /\ stats r.2 = stats w
  /\ events_of (get_user_password env cfg name namespace) w
     = [EvCall (get_user_password_call name)].
Proof.
  cbv zeta. unfold get_user_password, bind at 1 2 3 4 5 6, emit, modify. cbn.
  set (w1 := add_event (EvCall (get_user_password_call name)) w).
  split.
  { change (clock w) with (clock w1). apply get_user_password_from_clock. }
  assert (K : steps (both reads_only (keeps trace))
                (get_user_password_from env cfg (MAX_RETRIES cfg) name namespace 0)).
  { apply steps_get_user_password_from; [apply _|]. intros t w0. by repeat split. }
  destruct (K w1) as ((D & F & S) & T). unfold keeps in *.
  unfold events_of, bind, emit, modify. fold w1.
  rewrite D, F, S, T. cbn. by rewrite drop_app_length.
Qed.

(** ** The order of the gateway calls *)

Lemma in_phases_nil phases : in_phases phases [].
Proof.
  induction phases as [|P phases IH]; simpl; [done|].
  exists [], []. by repeat split.
Qed.

Lemma phased_last {A} P (m : M A) : steps (trace_ext P) m -> phased [P] m.
Proof.
  intros H w. destruct (H w) as (es & E & F). exists es. split; [done|].
  exists es, []. by rewrite app_nil_r.
Qed.

Lemma phased_bind_next {A B} P phases (m : M A) (k : A -> M B) :
  steps (trace_ext P) m -> (forall a, phased phases (k a)) ->
  phased (P :: phases) (bind m k).
Proof.
  intros Hm Hk w. unfold bind. destruct (Hm w) as (es1 & E1 & F1).
  destruct (m w) as [[a|x] w1]; simpl in *.
  - destruct (Hk a w1) as (es2 & E2 & F2). exists (es1 ++ es2). split.
    + by rewrite E2, E1, app_assoc.
    + by exists es1, es2.
  - exists es1. split; [done|]. exists es1, []. rewrite app_nil_r.
    split; [done|]. split; [done|]. apply in_phases_nil.
Qed.

Lemma phased_bind_same {A B} P phases (m : M A) (k : A -> M B) :
  steps (trace_ext P) m -> (forall a, phased (P :: phases) (k a)) ->
  phased (P :: phases) (bind m k).
Proof.
  intros Hm Hk w. unfold bind. destruct (Hm w) as (es1 & E1 & F1).
  destruct (m w) as [[a|x] w1]; simpl in *.
  - destruct (Hk a w1) as (es & E2 & (es2 & es3 & -> & F2 & F3)).
    exists (es1 ++ es2 ++ es3). split.
    + by rewrite E2, E1, <- app_assoc.
    + exists (es1 ++ es2), es3. rewrite app_assoc. split; [done|].
      split; [by apply Forall_app|done].
  - exists es1. split; [done|]. exists es1, []. rewrite app_nil_r.
    split; [done|]. split; [done|]. apply in_phases_nil.
Qed.

Lemma phased_events {A} phases (m : M A) w :
  phased phases m -> in_phases phases (events_of m w).
Proof.
  intros H. destruct (H w) as (es & E & F). unfold events_of.
  by rewrite E, drop_app_length.
Qed.

Ltac calls_leaf := trace_leaf; first [exact I | reflexivity].

(** X25.  The gateway calls of [reconcile_users] come in the order of its
    phases: the state load and the read of the users; then the role
    calls; then every [drop_user]; then the password reads and
    [create_user] calls; then the role reads and [update_user_roles]
    calls; then [save_state] and the last read of the roles.  So no user
    is dropped after a user has been created, and the state is saved only
    after every change has been tried. *)
Theorem reconcile_users_in_phases env cfg dry w :
  in_phases reconcile_users_phases (events_of (reconcile_users env cfg dry) w).
Proof.
  apply phased_events. unfold reconcile_users_phases, reconcile_users.
  apply phased_bind_next.
  { unfold_controller. steps_all; calls_leaf. }
  intros [[[d p] a]|]; [|intros w0; exists []; split;
                          [by rewrite app_nil_r | apply in_phases_nil]].
  unfold reconcile_from, detect_drift.
  apply phased_bind_next.
  { unfold_controller. steps_all; calls_leaf. }
  intros _. apply phased_bind_same.
  { steps_all; calls_leaf. }
  intros _. apply phased_bind_next.
  { unfold_controller. steps_all; calls_leaf. }
  intros _. apply phased_bind_next.
  { unfold_controller. steps_all; calls_leaf. }
  intros _. apply phased_bind_next.
  { unfold_controller. steps_all; calls_leaf. }
  intros _. apply phased_last.
  unfold_controller. steps_all; calls_leaf.
Qed.

(** ** Every pending change is tried *)

Lemma never_raises_for_each_in {A} (l : list A) (body : A -> M unit) :
  (forall x, x ∈ l -> never_raises (body x)) -> never_raises (for_each l body).
Proof.
  induction l as [|x l IH]; intros H w; simpl.
  - by exists tt.
  - unfold bind. destruct (H x ltac:(by left) w) as [[] E].
    destruct (body x w) as [[[]|e] w1]; simpl in *; [|done].
    apply IH. intros y Hy. apply H. by right.
Qed.

Lemma for_each_reaches_in {A} (l : list A) (body : A -> M unit) x e :
  (forall y, y ∈ l -> never_raises (body y)) ->
  (forall y, steps mono (body y)) ->
  x ∈ l ->
  (forall w, In e (events_of (body x) w)) ->
  forall w, In e (events_of (for_each l body) w).
Proof.
  intros Hn Hm Hx He. revert Hn.
  induction Hx as [x l|x y l Hx IH]; intros Hn w; simpl.
  - apply events_of_bind_l; [apply Hm | | apply He].
    intros _. apply steps_for_each; [apply _ | auto].
  - eapply events_of_bind_r with (a := tt); [apply Hm | | |].
    + apply steps_for_each; [apply _ | auto].
    + apply never_raises_run, Hn. by left.
    + apply IH; [exact He|]. intros z Hz. apply Hn. by right.
Qed.

Lemma creation_never_raises env cfg (d : gmap string UserSpec) dry name :
  name ∈ dom d ->
  never_raises
    (bind (lift (match d !! name with Some spec => Ok spec | None => Raise KeyError end))
       (fun user_spec =>
          catch Exception
            (bind (get_user_password env cfg name (NAMESPACE cfg))
               (fun password =>
                  if no_password password then update_stats incr_errors
                  else bind (create_user env user_spec (default EmptyString password) dry)
                         (fun _ => update_stats incr_users_created)))
            (fun _ => update_stats incr_errors))).
Proof.
  intros Hd. apply elem_of_dom in Hd as [spec ->].
  apply never_raises_bind; [apply never_raises_ret|]. intros user_spec.
  apply never_raises_catch_all. intros _. apply never_raises_update_stats.
Qed.

Lemma handle_creations_never_raises env cfg (d : gmap string UserSpec) cre dry :
  cre ⊆ dom d -> never_raises (handle_creations env cfg d cre dry).
Proof.
  intros Hsub. apply never_raises_for_each_in. intros name Hn.
  apply creation_never_raises. apply Hsub. by apply elem_of_elements.
Qed.

Lemma handle_creations_reaches env cfg (d : gmap string UserSpec) cre dry u w :
  cre ⊆ dom d -> u ∈ cre ->
  In (EvCall (get_user_password_call u)) (events_of (handle_creations env cfg d cre dry) w).
Proof.
  intros Hsub Hu. unfold handle_creations.
  apply for_each_reaches_in with (x := u).
  - intros name Hn. apply creation_never_raises. apply Hsub. by apply elem_of_elements.
  - intros name. mono_steps.
  - by apply elem_of_elements.
  - intros w0. destruct (proj1 (elem_of_dom d u) (Hsub u Hu)) as [spec Hs]. rewrite Hs.
    eapply events_of_bind_r; [mono_steps | mono_steps | reflexivity |].
    apply events_of_catch; [mono_steps | intros; mono_steps |].
    apply events_of_bind_l; [mono_steps | intros; mono_steps |].
    unfold get_user_password.
    apply events_of_bind_l; [mono_steps | intros; mono_steps |].
    apply events_of_emit.
Qed.

Lemma handle_updates_never_raises env (d p : gmap string UserSpec) upd dry :
  upd ⊆ dom d -> never_raises (handle_updates env d p upd dry).
Proof.
  intros Hsub. apply never_raises_for_each_in. intros name Hn.
  apply elem_of_elements, Hsub, elem_of_dom in Hn as [spec ->].
  apply never_raises_bind; [apply never_raises_ret|]. intros user_spec.
  cbv zeta. match goal with |- context [roles_changed ?x ?y] =>
    destruct (roles_changed x y) end; [|apply never_raises_ret].
  apply never_raises_catch_all. intros _. apply never_raises_update_stats.
Qed.

(** X26.  Once the three views are at hand and [reconcile_roles] has
    returned, no failure on one user keeps [reconcile_users] from the
    others: [drop_user] is called for every user of the database that is
    not desired and is a key of the previous state, the password is read
    for every desired user that is not in the database, and outside a dry
    run [save_state] is called with the desired users. *)
Theorem reconcile_users_attempts_all env cfg dry w d p a w1 :
  fetch_states env cfg w = (Ok (Some (d, p, a)), w1) ->
  (reconcile_roles env d dry w1).1 = Ok tt ->
  let es := events_of (reconcile_users env cfg dry) w in
  (forall u, u ∈ a -> u ∉ dom d -> u ∈ dom p -> In (EvCall (drop_user_call u dry)) es)
  /\ (forall u, u ∈ dom d -> u ∉ a -> In (EvCall (get_user_password_call u)) es)
  /\ (dry = false -> In (EvCall (save_state_call d)) es).
Proof.
  intros Es Er. cbv zeta.
  assert (Er' : reconcile_roles env d dry w1 = (Ok tt, (reconcile_roles env d dry w1).2)).
  { destruct (reconcile_roles env d dry w1) as [[[]|x] w2]; simpl in *; done. }
  assert (Sc : dom d ∖ a ⊆ dom d) by (intros x [Hx _]%elem_of_difference; exact Hx).
  assert (Su : dom d ∩ a ⊆ dom d) by (intros x [Hx _]%elem_of_intersection; exact Hx).
  split; [|split].
  - intros u Ha Hd Hp. unfold reconcile_users.
    apply (events_of_bind_r _ _ w (Some (d, p, a)) w1); [mono_steps | mono_steps | exact Es |].
    unfold reconcile_from, detect_drift.
    eapply events_of_bind_r; [mono_steps | mono_steps | exact Er' |].
    eapply events_of_bind_r;
      [mono_steps | mono_steps | apply never_raises_run, drift_update_never_raises |].
    apply events_of_bind_l; [mono_steps | intros; mono_steps |].
    apply handle_deletions_reaches; [set_solver | done].
  - intros u Hd Ha. unfold reconcile_users.
    apply (events_of_bind_r _ _ w (Some (d, p, a)) w1); [mono_steps | mono_steps | exact Es |].
    unfold reconcile_from, detect_drift.
    eapply events_of_bind_r; [mono_steps | mono_steps | exact Er' |].
    eapply events_of_bind_r;
      [mono_steps | mono_steps | apply never_raises_run, drift_update_never_raises |].
    eapply events_of_bind_r;
      [mono_steps | mono_steps | apply never_raises_run, handle_deletions_never_raises |].
    apply events_of_bind_l; [mono_steps | intros; mono_steps |].
    apply handle_creations_reaches; [done | set_solver].
  - intros ->. unfold reconcile_users.
    apply (events_of_bind_r _ _ w (Some (d, p, a)) w1); [mono_steps | mono_steps | exact Es |].
    unfold reconcile_from, detect_drift.
    eapply events_of_bind_r; [mono_steps | mono_steps | exact Er' |].
    eapply events_of_bind_r;
      [mono_steps | mono_steps | apply never_raises_run, drift_update_never_raises |].
    eapply events_of_bind_r;
      [mono_steps | mono_steps | apply never_raises_run, handle_deletions_never_raises |].
    eapply events_of_bind_r;
      [mono_steps | mono_steps
      | apply never_raises_run, handle_creations_never_raises; exact Sc |].
    eapply events_of_bind_r;
      [mono_steps | mono_steps
      | apply never_raises_run, handle_updates_never_raises; exact Su |].
    apply events_of_bind_l; [mono_steps | intros; mono_steps |].
    cbn [negb]. unfold save_state.
    apply events_of_bind_l; [mono_steps | intros; mono_steps |].
    apply events_of_emit.
Qed.

Lemma reconcile_users_attempts_all_witness :
  In (EvCall (drop_user_call "bob" false))
    (events_of (reconcile_users env_alice_for_bob (default_config false) false)
       world_bob_charlie)
  /\ In (EvCall (get_user_password_call "alice"))
       (events_of (reconcile_users env_alice_for_bob (default_config false) false)
          world_bob_charlie)
  /\ In (EvCall (save_state_call {[ "alice" := plain_user "alice" "app" [] ]}))
       (events_of (reconcile_users env_alice_for_bob (default_config false) false)
          world_bob_charlie).
Proof.
  pose (env := env_alice_for_bob).
  pose (cfg := default_config false).
  pose (w1 := (fetch_states env cfg world_bob_charlie).2).
  destruct (reconcile_users_attempts_all env cfg false world_bob_charlie
              {[ "alice" := plain_user "alice" "app" [] ]}
              {[ "bob" := plain_user "bob" "app" [] ]} {[ "bob"; "charlie" ]} w1)
    as (Hd & Hc & Hs).
  - vm_compute. reflexivity.
  - vm_compute. reflexivity.
  - split; [|split].
    + apply Hd; compute_done.
    + apply Hc; compute_done.
    + apply Hs. reflexivity.
Defined.

(** ** The statements of [create_user], in order *)

Lemma create_user_scripted env user_spec password :
  scripted
    (bind (cursor_execute env
             (format "CREATE USER {} WITH PASSWORD %s;" [Identifier (username user_spec)])
             [password])
       (fun _ => bind (cursor_execute env
                         (format "GRANT CONNECT ON DATABASE {} TO {};"
                            [Identifier (database user_spec);
                             Identifier (username user_spec)]) [])
          (fun _ => bind (for_each (roles user_spec)
                            (fun role => cursor_execute env
                               (format "GRANT {} TO {};"
                                  [Identifier role; Identifier (username user_spec)]) []))
             (fun _ => if has_privileges user_spec
                       then _grant_privileges env user_spec else ret tt))))
    (create_user_plan user_spec password
     ++ privilege_plan user_spec (map_to_list (default ∅ (privileges user_spec)))).
Proof.
  unfold create_user_plan.
  match goal with |- scripted _ ((?a :: ?b :: ?l) ++ ?r) =>
    change ((a :: b :: l) ++ r) with ([a] ++ [b] ++ l ++ r) end.
  apply scripted_bind; [apply scripted_cursor_execute|]. intros _.
  apply scripted_bind; [apply scripted_cursor_execute|]. intros _.
  apply scripted_bind.
  { rewrite <- flat_map_singleton. apply scripted_for_each. intros role.
    apply scripted_cursor_execute. }
  intros _. unfold privilege_plan, _grant_privileges.
  destruct (has_privileges user_spec) eqn:Hp; cbn [negb].
  - apply scripted_for_each. intros item. rewrite <- flat_map_singleton.
    apply scripted_for_each. intros privilege. apply scripted_cursor_execute.
  - unfold has_privileges in Hp. destruct (privileges user_spec) as [m|]; cbn.
    + apply negb_false_iff, bool_decide_eq_true in Hp as ->.
      rewrite map_to_list_empty. apply scripted_ret.
    + rewrite map_to_list_empty. apply scripted_ret.
Qed.

(** X27.  Outside a dry run [create_user] sends CREATE USER with the
    password as its one parameter, then GRANT CONNECT on the database of
    the record, then one GRANT per role in the order of the record, then
    the privilege statements, object type by object type in some order of
    the object types and within each in the order listed; it stops at the
    first statement that fails, so what was sent is a prefix of that
    plan.  The commit is tried only after the whole plan; the call returns
    only after the commit and without a rollback; after a rollback it
    raises. *)
Theorem create_user_in_order env user_spec password w :
  let r := create_user env user_spec password false w in
  let es := events_of (create_user env user_spec password false) w in
  exists items,
    Permutation items (map_to_list (default ∅ (privileges user_spec)))
    /\ let plan := create_user_plan user_spec password ++ privilege_plan user_spec items in
       executed es `prefix_of` plan
       /\ (In EvCommit es -> executed es = plan)
       /\ (r.1 = Ok tt -> In EvCommit es /\ ~ In EvRollback es)
       /\ (In EvRollback es -> r.1 = Raise Psycopg2Error).
Proof.
  cbv zeta. exists (map_to_list (default ∅ (privileges user_spec))). split; [done|].
  apply (call_transaction_scripted env (create_user_call user_spec false)).
  apply create_user_scripted.
Qed.

(** ** The statements of a cycle *)

(** X28.  Every statement a cycle sends is one of ten templates with
    quoted identifiers in its fields: CREATE ROLE, CREATE USER, GRANT
    CONNECT ON DATABASE, GRANT role TO, GRANT privilege ON, REVOKE role
    FROM, REVOKE ALL PRIVILEGES ON DATABASE, REASSIGN OWNED BY, DROP
    OWNED BY, DROP USER IF EXISTS.  The one field that is not a quoted
    identifier is the privilege of GRANT ... ON, which is put in as it
    stands.  DROP ROLE is not among the templates. *)
Theorem cycle_statement_shapes env cfg w :
  Forall known_statement (events_of (reconciliation_cycle env cfg) w).
Proof.
  apply trace_ext_events.
  unfold reconciliation_cycle, record_reconciliation. unfold_controller.
  steps_all; trace_leaf; try exact I.
  all: cbn [known_statement]; unfold statement_shape.
  all: first [ by left; eexists
             | by do 1 right; left; eexists
             | by do 2 right; left; do 2 eexists
             | by do 3 right; left; do 2 eexists
             | by do 4 right; left; do 3 eexists
             | by do 5 right; left; do 2 eexists
             | by do 6 right; left; do 2 eexists
             | by do 7 right; left; do 2 eexists
             | by do 8 right; left; eexists
             | by do 9 right; eexists ].
Qed.

(** ** The connection pool *)

Lemma _initialize_pool_from_spec connect n t :
  let r := _initialize_pool_from connect n t in
  r.2 <= n
  /\ (forall i, i < r.2 - (if r.1 then 1 else 0) -> connect (t + i) = false)
  /\ (r.1 = true -> 0 < r.2 /\ connect (t + (r.2 - 1)) = true)
  /\ (r.1 = false -> r.2 = n).
Proof.
  cbv zeta. revert t. induction n as [|n IH]; intros t; simpl.
  - split; [lia|]. split; [intros i Hi; lia|]. split; [discriminate|done].
  - destruct (connect t) eqn:Hc; simpl.
    + split; [lia|]. split; [intros i Hi; lia|]. split; [|discriminate].
      intros _. split; [lia|]. by rewrite Nat.add_0_r.
    + specialize (IH (S t)).
      destruct (_initialize_pool_from connect n (S t)) as [ready made]; simpl in *.
      destruct IH as (Hle & Hf & Ht & Hn).
      split; [lia|]. split; [|split].
      * intros i Hi. destruct i as [|i]; [by rewrite Nat.add_0_r|].
        replace (t + S i) with (S (t + i)) by lia. apply Hf. destruct ready; lia.
      * intros ->. destruct (Ht eq_refl) as [Hpos Hok]. split; [lia|].
        replace (t + (made - 0)) with (S (t + (made - 1))) by lia. exact Hok.
      * intros ->. by rewrite Hn.
Qed.

(** X29.  [_initialize_pool] makes at most MAX_RETRIES attempts to
    connect, one fewer than the API calls of [fetch_configmap]; every
    attempt before the last one made has failed; it returns with the pool
    exactly when its last attempt connected, and otherwise has used up
    all MAX_RETRIES attempts, none at all when MAX_RETRIES is zero. *)
Theorem initialize_pool_attempts connect cfg t :
  let r := _initialize_pool connect cfg t in
  r.2 <= MAX_RETRIES cfg
  /\ (forall i, i < r.2 - (if r.1 then 1 else 0) -> connect (t + i) = false)
  /\ (r.1 = true -> 0 < r.2 /\ connect (t + (r.2 - 1)) = true)
  /\ (r.1 = false -> r.2 = MAX_RETRIES cfg).
Proof. apply _initialize_pool_from_spec. Qed.
